(** * Barry: the Ding 2018 power-spectrum model and the Seo 2016 correlation model

    A shallow embedding of [barry/models/bao_power_Ding2018.py] and
    [barry/models/bao_correlation_Seo2016.py].

    Conventions of the embedding.
    - Python floats and NumPy float arrays are idealised as real numbers
      ([R]); overflow, underflow, NaN and rounding error of the binary
      formats are outside the model.
    - A 1-D array is the [list R] of its entries, a 2-D array the list of
      its rows (axis 0 is the outer list).  An array without rows keeps no
      column count.
    - Python exceptions are the [Raise] results of the [result] monad.
    - [np.round] is a parameter of the evaluation: what it does to the
      digits of a float is not modelled.
    - The base classes [PowerSpectrumFit], [CorrelationFunctionFit] and the
      SciPy routines are not part of the two files; an instance carries the
      attributes the base constructor sets and the inherited methods as
      fields of a record, and the SciPy routines are fields of [Scipy]. *)

From Stdlib Require Import Reals Lra Lia ZArith DecimalString.
From stdpp Require Import base option list strings gmap.

(** ** Exceptions *)

Inductive pyerr :=
  | KeyError (key : string)
  | IndexError
  | ValueError
  | NotImplementedError (msg : string)
  | OtherError (msg : string).

Inductive result (A : Type) :=
  | Ok (a : A)
  | Raise (e : pyerr).
Arguments Ok {A} a.
Arguments Raise {A} e.

#[global] Instance result_ret : MRet result := λ A a, Ok a.
#[global] Instance result_bind : MBind result := λ A B f m,
  match m with Ok a => f a | Raise e => Raise e end.
#[global] Instance result_fmap : FMap result := λ A B f m,
  match m with Ok a => Ok (f a) | Raise e => Raise e end.

Definition is_Ok {A} (m : result A) : Prop := ∃ a, m = Ok a.

(** A step that may raise, applied to every element from left to right. *)
Fixpoint forM {A B} (f : A → result B) (l : list A) : result (list B) :=
  match l with
  | [] => Ok []
  | x :: l' => y ← f x; ys ← forM f l'; Ok (y :: ys)
  end.

(** A loop that threads an accumulator through a body that may raise. *)
Fixpoint foldM {A B} (f : B → A → result B) (acc : B) (l : list A) : result B :=
  match l with
  | [] => Ok acc
  | x :: l' => acc' ← f acc x; foldM f acc' l'
  end.

(** Parameter dictionaries [p] and the subscript [p[key]]. *)
Abbreviation params := (gmap string R).

Definition getitem {V} (d : gmap string V) (key : string) : result V :=
  match d !! key with
  | Some v => Ok v
  | None => Raise (KeyError key)
  end.

(** ** The NumPy operations the two models use *)

Module np.

Local Open Scope R_scope.

Inductive ndarray :=
  | Scalar (x : R)
  | Arr1 (v : list R)
  | Arr2 (m : list (list R)).

(** Element-wise application of a scalar function ([np.exp], [-a],
    [a ** 2], [1.0 + a], ...). *)
Definition map (f : R → R) (a : ndarray) : ndarray :=
  match a with
  | Scalar x => Scalar (f x)
  | Arr1 v => Arr1 (f <$> v)
  | Arr2 m => Arr2 ((λ row : list R, f <$> row) <$> m)
  end.

(** Broadcasting along one axis: equal lengths pair up, an axis of length
    one is stretched, anything else is a [ValueError]. *)
Definition zip_bcast {A B C} (f : A → B → result C)
    (a : list A) (b : list B) : result (list C) :=
  if decide (length a = length b) then forM (λ xy, f xy.1 xy.2) (zip a b)
  else match a, b with
       | [x], _ => forM (f x) b
       | _, [y] => forM (λ x, f x y) a
       | _, _ => Raise ValueError
       end.

Definition bcast_rows (f : R → R → R) (a b : list (list R))
    : result (list (list R)) :=
  zip_bcast (zip_bcast (λ x y, Ok (f x y))) a b.

(** A binary element-wise operator with NumPy broadcasting; a 1-D operand
    meeting a 2-D one is a single row. *)
Definition binop (f : R → R → R) (a b : ndarray) : result ndarray :=
  match a, b with
  | Scalar x, _ => Ok (map (f x) b)
  | _, Scalar y => Ok (map (λ x, f x y) a)
  | Arr1 v, Arr1 w => Arr1 <$> zip_bcast (λ x y, Ok (f x y)) v w
  | Arr1 v, Arr2 m => Arr2 <$> bcast_rows f [v] m
  | Arr2 m, Arr1 v => Arr2 <$> bcast_rows f m [v]
  | Arr2 m, Arr2 n => Arr2 <$> bcast_rows f m n
  end.

Definition add := binop Rplus.
Definition sub := binop Rminus.
Definition mul := binop Rmult.
Definition div := binop Rdiv.

(** [a ** x] for a real exponent. *)
Definition power (a : ndarray) (x : R) : ndarray := map (λ b, Rpower b x) a.

(** [np.outer(a, b)] of two 1-D arrays. *)
Definition outer (a b : list R) : list (list R) :=
  (λ x : R, Rmult x <$> b) <$> a.

(** [np.tile(v, (n, 1))]: [n] copies of the row [v]. *)
Definition tile (v : list R) (n : nat) : list (list R) := replicate n v.

(** [m.T] of a 2-D array with [c] columns. *)
Definition transpose (c : nat) (m : list (list R)) : list (list R) :=
  (λ j : nat, omap (λ row : list R, row !! j) m) <$> seq 0 c.

Definition zeros (n : nat) : list R := replicate n 0.
Definition ones (n : nat) : list R := replicate n 1.

(** [a[i]] on the first axis. *)
Definition index (a : ndarray) (i : nat) : result ndarray :=
  match a with
  | Scalar _ => Raise IndexError
  | Arr1 v => match v !! i with Some x => Ok (Scalar x) | None => Raise IndexError end
  | Arr2 m => match m !! i with Some r => Ok (Arr1 r) | None => Raise IndexError end
  end.

(** The shape as far as the representation keeps it. *)
Definition shape (a : ndarray) : list (list nat) :=
  match a with
  | Scalar _ => []
  | Arr1 v => [[length v]]
  | Arr2 m => [length <$> m]
  end.

(** [a += b]: the sum has to fit the array [a] it is written into; a
    Python scalar [a] is rebound to the sum. *)
Definition iadd (a b : ndarray) : result ndarray :=
  s ← add a b;
  match a with
  | Scalar _ => Ok s
  | _ => if decide (shape s = shape a) then Ok s else Raise ValueError
  end.

(** The entry [(i, j)] of a 2-D array. *)
Definition get2 (m : list (list R)) (i j : nat) : option R :=
  m !! i ≫= λ row, row !! j.

(** The [r] by [c] array with entries [g i j]. *)
Definition mat (r c : nat) (g : nat → nat → R) : list (list R) :=
  (λ i : nat, (λ j : nat, g i j) <$> seq 0 c) <$> seq 0 r.

(** Operands that are themselves results of fallible steps, evaluated
    left to right. *)
Definition lift2 (op : ndarray → ndarray → result ndarray)
    (a b : result ndarray) : result ndarray :=
  x ← a; y ← b; op x y.

End np.

Import np.

Notation "a ⊞ b" := (np.lift2 np.add a b) (at level 50, left associativity).
Notation "a ⊟ b" := (np.lift2 np.sub a b) (at level 50, left associativity).
Notation "a ⊠ b" := (np.lift2 np.mul a b) (at level 40, left associativity).
Notation "a ⊘ b" := (np.lift2 np.div a b) (at level 40, left associativity).

(** ** SciPy

    [scipy.interpolate.splrep] / [splev] and [scipy.integrate.simps] are
    library routines; the models only compose them. *)
Record Scipy := {
  tck : Type;
  (** [splrep(x, y)] *)
  splrep : list R → ndarray → result tck;
  (** [splev(x, tck)] *)
  splev : ndarray → tck → result ndarray;
  (** [integrate.simps(y, x, axis=0)] *)
  simps : ndarray → list R → result ndarray;
}.

(** ** The cosmology provider [self.camb] *)
Record CambGenerator := {
  camb_ks : list R;
  camb_smoothing_kernel : list R;
}.

(** ** A [PowerSpectrumFit] instance

    The attributes the base constructor leaves on [self] and the
    methods [PowerDing2018] inherits and calls. *)
Record PowerSpectrumFit := {
  isotropic : bool;
  recon : bool;
  recon_type : string;
  marg : bool;
  n_poly : Z;
  poly_poles : list nat;
  n_data_poly : nat;
  nmu : nat;
  mu : list R;
  camb : CambGenerator;
  kvals : option (list R);
  pksmooth : option (list R);
  pkratio : option (list R);
  (** [self.data_dict[data_name]["ks_input"]] *)
  data_dict : gmap string (gmap string (list R));
  (** [self.get_pregen(key, om)] *)
  get_pregen : string → R → result R;
  (** [self.compute_basic_power_spectrum(om)]: [(pk_smooth_lin, pk_ratio)] *)
  compute_basic_power_spectrum : R → result (list R * list R);
  (** [self.deal_with_ndata(p, i)] *)
  deal_with_ndata : params → nat → result params;
  (** [self.add_three_poly(ks, k, p, prefac, pk)]: [(shape, poly)]; [pk]
      is one array in the isotropic call and the list of multipoles in the
      anisotropic one; [poly] is the list of its entries on axis 0. *)
  add_three_poly : list R → list R → params → ndarray →
                   ndarray + list ndarray → result (ndarray * list ndarray);
  add_five_poly : list R → list R → params → ndarray →
                  ndarray + list ndarray → result (ndarray * list ndarray);
  (** [self.integrate_mu(pk2d)]: [(pk0, pk2, pk4)] *)
  integrate_mu : ndarray → result (ndarray * ndarray * ndarray);
  (** [self.get_kprimefac(epsilon)], [self.get_muprime(epsilon)] *)
  get_kprimefac : R → result (list R);
  get_muprime : R → result ndarray;
}.

(** ** Declared parameters

    The base class [Model] keeps the parameters a model declares; it is
    not among the two source files. *)
Module model.

(** Modelled from the spec: the class [Param] is missing.  Each declared
    parameter exposes its name, display label, lower bound, upper bound
    and default value. *)
Record Param := {
  p_name : string;
  p_label : string;
  p_min : R;
  p_max : R;
  p_default : R;
}.

(** Modelled from the spec: [Model.add_param(name, label, min, max,
    default)] is missing.  It declares one more parameter, after those
    declared so far. *)
Definition add_param (name label : string) (lo hi default : R)
    (params : list Param) : list Param :=
  params ++ [{| p_name := name; p_label := label; p_min := lo; p_max := hi;
                p_default := default |}].

(** Modelled from the spec: [Model.set_default(name, default)] is
    missing.  It replaces the default value of the declared parameter
    [name]; an undeclared name is a [KeyError]. *)
Definition set_default (name : string) (default : R) (params : list Param)
    : result (list Param) :=
  if decide (name ∈ p_name <$> params) then
    Ok ((λ q, if decide (p_name q = name)
              then {| p_name := p_name q; p_label := p_label q; p_min := p_min q;
                      p_max := p_max q; p_default := default |}
              else q) <$> params)
  else Raise (KeyError name).

(** Modelled from the spec: the fixed-parameter bookkeeping of [Model] is
    missing.  A parameter named in the fixed-parameter list is excluded
    from the free-parameter set. *)
Definition free_params (fix_params : list string) (params : list Param) : list Param :=
  filter (λ q, p_name q ∉ fix_params) params.

(** Every declared parameter whose name is in [names] has default zero. *)
Definition zero_default (names : list string) (ps : list Param) : Prop :=
  ∀ q, q ∈ ps → p_name q ∈ names → p_default q = 0%R.

(** [str(n)] of a non-negative integer. *)
Definition str (n : nat) : string := NilEmpty.string_of_uint (Nat.to_uint n).

End model.

(** ** [functools.lru_cache]

    The cache is a list of (key, value) pairs, most recently used first,
    holding at most [maxsize] entries. *)
Module lru.

Section Cache.
Context {K V : Type} `{EqDecision K}.
Variable maxsize : nat.

Fixpoint find (key : K) (c : list (K * V)) : option V :=
  match c with
  | [] => None
  | kv :: c' => if decide (kv.1 = key) then Some kv.2 else find key c'
  end.

Definition remove (key : K) (c : list (K * V)) : list (K * V) :=
  filter (λ kv, kv.1 ≠ key) c.

(** One call of the wrapped function [f]: a hit returns the stored value
    and refreshes the entry, a miss runs [f], stores the result and
    drops the least recently used entry beyond [maxsize].  An exception
    of [f] leaves the cache as it was. *)
Definition call (f : K → result V) (key : K) (c : list (K * V))
    : result V * list (K * V) :=
  match find key c with
  | Some v => (Ok v, (key, v) :: remove key c)
  | None =>
      match f key with
      | Ok v => (Ok v, take maxsize ((key, v) :: c))
      | Raise e => (Raise e, c)
      end
  end.

(** Every stored value is what [f] returns at its key. *)
Definition coherent (f : K → result V) (c : list (K * V)) : Prop :=
  Forall (λ kv, f kv.1 = Ok kv.2) c.

(** A run of calls, one per key, threading the cache through. *)
Fixpoint run (f : K → result V) (keys : list K) (c : list (K * V))
    : list (result V) * list (K * V) :=
  match keys with
  | [] => ([], c)
  | key :: keys' =>
      let '(r, c1) := call f key c in
      let '(rs, c2) := run f keys' c1 in
      (r :: rs, c2)
  end.

(** The entry of [key] holds [v] and sits behind entries whose keys are
    all in [B]. *)
Definition behind (B : list K) (key : K) (v : V) (c : list (K * V)) : Prop :=
  ∃ pre post, c = pre ++ (key, v) :: post ∧ ∀ k, k ∈ pre.*1 → k ∈ B.

(** A cache as a run of calls leaves it: within [maxsize], one entry per
    key, every entry coherent with [f]. *)
Definition wf (f : K → result V) (c : list (K * V)) : Prop :=
  coherent f c ∧ length c ≤ maxsize ∧ NoDup c.*1.
End Cache.

End lru.

#[global] Instance R_eq_dec : EqDecision R := Req_dec_T.

(** ** [class PowerDing2018(PowerSpectrumFit)] *)
Module PowerDing2018.

Local Open Scope R_scope.

Section Damping.
Variable self : PowerSpectrumFit.

(** The twelve damping methods of lines 79-157, each
    [np.exp(-np.outer(...) * self.get_pregen(key, om))]. *)

(** The wavenumbers of the anisotropic damping arrays:
    [self.camb.ks] or [self.data_dict[data_name]["ks_input"]]. *)
Definition damping_ks (data_name : option string) : result (list R) :=
  match data_name with
  | None => Ok (camb_ks (camb self))
  | Some name => d ← getitem (data_dict self) name; getitem d "ks_input"%string
  end.

(** [np.exp(-X * sigma)] for a 2-D array [X]. *)
Definition exp_damp (X : list (list R)) (sigma : R) : list (list R) :=
  (λ row : list R, (λ x, exp (- x * sigma)) <$> row) <$> X.

Definition get_damping (growth om : R) : result (list (list R)) :=
  sigma ← get_pregen self "sigma_nl" om;
  Ok (exp_damp (outer ((λ m, 1 + (2 + growth) * growth * m ^ 2) <$> mu self)
                      ((λ k, k ^ 2) <$> camb_ks (camb self))) sigma).

Definition get_damping_dd (growth om : R) : result (list (list R)) :=
  sigma ← get_pregen self "sigma_dd_nl" om;
  Ok (exp_damp (outer ((λ m, 1 + (2 + growth) * growth * m ^ 2) <$> mu self)
                      ((λ k, k ^ 2) <$> camb_ks (camb self))) sigma).

Definition get_damping_sd (growth om : R) : result (list (list R)) :=
  sigma ← get_pregen self "sigma_sd_nl" om;
  Ok (exp_damp (outer ((λ m, 1 + growth * m ^ 2) <$> mu self)
                      ((λ k, k ^ 2) <$> camb_ks (camb self))) sigma).

Definition get_damping_ss (om : R) : result (list (list R)) :=
  sigma ← get_pregen self "sigma_ss_nl" om;
  Ok (exp_damp (tile ((λ k, k ^ 2) <$> camb_ks (camb self)) (nmu self)) sigma).

Definition get_damping_aniso_par (growth om : R) (data_name : option string)
    : result (list (list R)) :=
  ks ← damping_ks data_name;
  sigma ← get_pregen self "sigma_nl" om;
  Ok (exp_damp (outer ((λ k, (1 + (2 + growth) * growth) * k ^ 2) <$> ks)
                      ((λ m, m ^ 2) <$> mu self)) sigma).

Definition get_damping_aniso_perp (om : R) (data_name : option string)
    : result (list (list R)) :=
  ks ← damping_ks data_name;
  sigma ← get_pregen self "sigma_nl" om;
  Ok (exp_damp (outer ((λ k, k ^ 2) <$> ks) ((λ m, 1 - m ^ 2) <$> mu self)) sigma).

Definition get_damping_aniso_dd_par (growth om : R) (data_name : option string)
    : result (list (list R)) :=
  ks ← damping_ks data_name;
  sigma ← get_pregen self "sigma_dd_nl" om;
  Ok (exp_damp (outer ((λ k, (1 + (2 + growth) * growth) * k ^ 2) <$> ks)
                      ((λ m, m ^ 2) <$> mu self)) sigma).

Definition get_damping_aniso_dd_perp (om : R) (data_name : option string)
    : result (list (list R)) :=
  ks ← damping_ks data_name;
  sigma ← get_pregen self "sigma_dd_nl" om;
  Ok (exp_damp (outer ((λ k, k ^ 2) <$> ks) ((λ m, 1 - m ^ 2) <$> mu self)) sigma).

Definition get_damping_aniso_sd_par (growth om : R) (data_name : option string)
    : result (list (list R)) :=
  ks ← damping_ks data_name;
  sigma ← get_pregen self "sigma_sd_nl" om;
  Ok (exp_damp (outer ((λ k, (1 + growth) * k ^ 2) <$> ks)
                      ((λ m, m ^ 2) <$> mu self)) sigma).

Definition get_damping_aniso_sd_perp (om : R) (data_name : option string)
    : result (list (list R)) :=
  ks ← damping_ks data_name;
  sigma ← get_pregen self "sigma_sd_nl" om;
  Ok (exp_damp (outer ((λ k, k ^ 2) <$> ks) ((λ m, 1 - m ^ 2) <$> mu self)) sigma).

Definition get_damping_aniso_ss_par (om : R) (data_name : option string)
    : result (list (list R)) :=
  ks ← damping_ks data_name;
  sigma ← get_pregen self "sigma_ss_nl" om;
  Ok (exp_damp (outer ((λ k, k ^ 2) <$> ks) ((λ m, m ^ 2) <$> mu self)) sigma).

Definition get_damping_aniso_ss_perp (om : R) (data_name : option string)
    : result (list (list R)) :=
  ks ← damping_ks data_name;
  sigma ← get_pregen self "sigma_ss_nl" om;
  Ok (exp_damp (outer ((λ k, k ^ 2) <$> ks) ((λ m, 1 - m ^ 2) <$> mu self)) sigma).
End Damping.


Section Evaluate.
(** [np.round(x, decimals=d)].  NumPy rounds the floating-point product
    [x * 10 ** d], which no function on the reals reproduces at every
    input; the model only hands the rounded value on, so the rounding is
    a parameter of the evaluation. *)
Variable round : R → nat → R.
Variable sp : Scipy.
Variable self : PowerSpectrumFit.

Definition sq (v : list R) : list R := (λ x, x ^ 2) <$> v.

(** [splev(x, splrep(ks, y))] *)
Definition interp (x : ndarray) (ks : list R) (y : ndarray) : result ndarray :=
  t ← splrep sp ks y; splev sp x t.

(** Lines 203-209, "Get the basic power spectrum components":
    [(ks, pk_smooth_lin, pk_ratio)]. *)
Definition basic_components (p : params) : result (list R * list R * list R) :=
  match kvals self, pksmooth self, pkratio self with
  | Some kv, Some ps, Some pr => Ok (kv, ps, pr)
  | _, _, _ =>
      om ← getitem p "om"%string;
      '(ps, pr) ← compute_basic_power_spectrum self om;
      Ok (camb_ks (camb self), ps, pr)
  end.

(** Lines 211-213:
    [if not for_corr: if "b" not in p: p = self.deal_with_ndata(p, 0)] *)
Definition effective_params (p : params) (for_corr : bool) : result params :=
  if for_corr then Ok p
  else if decide (is_Some (p !! "b"%string)) then Ok p
  else deal_with_ndata self p 0.

(** Lines 228-230 and 280-282, "Lets round some things for the sake of
    numerical speed":
    [(om, growth)]. *)
Definition round_om_growth (p : params) : result (R * R) :=
  p_om ← getitem p "om"%string;
  b ← getitem p "b"%string;
  beta ← getitem p "beta"%string;
  Ok (round p_om 5, round (b * beta) 5).

(** Lines 239 and 250:
    [np.tile(0.5 * p["b_delta"] / p["b"] * ks**2, (self.nmu, 1))] *)
Definition iso_bdelta_prefac (p : params) (ks : list R) : result (list (list R)) :=
  b_delta ← getitem p "b_delta"%string;
  b ← getitem p "b"%string;
  Ok (tile ((λ k, 0.5 * b_delta / b * k ^ 2) <$> ks) (nmu self)).

(** Lines 225-252: the propagator of the isotropic branch
    ([if smooth: ... else: ...]). *)
Definition iso_propagator (p : params) (ks : list R) (smooth : bool)
    : result ndarray :=
  if smooth then Ok (Arr1 (zeros (length ks)))
  else
    '(om, growth) ← round_om_growth p;
    if recon self then
      damping_dd ← get_damping_dd self growth om;
      damping_sd ← get_damping_sd self growth om;
      damping_ss ← get_damping_ss self om;
      b ← getitem p "b"%string;
      let smooth_prefac :=
        Arr2 (tile ((λ s, s / b) <$> camb_smoothing_kernel (camb self)) (nmu self)) in
      bdelta_prefac ← Arr2 <$> iso_bdelta_prefac p ks;
      beta ← getitem p "beta"%string;
      kaiser_prefac ←
        Ok (np.map (λ x, 1 - x) smooth_prefac)
        ⊞ Ok (Arr2 (outer ((λ m, beta * m ^ 2) <$> mu self)
                          ((λ s, 1 - s) <$> camb_smoothing_kernel (camb self))))
        ⊞ Ok bdelta_prefac;
      (Ok (np.map (λ x, x ^ 2) kaiser_prefac) ⊟ Ok (np.map (λ x, x ^ 2) bdelta_prefac))
        ⊠ Ok (Arr2 damping_dd)
      ⊞ Ok (np.map (λ x, 2 * x) kaiser_prefac) ⊠ Ok smooth_prefac ⊠ Ok (Arr2 damping_sd)
      ⊞ Ok (np.map (λ x, x ^ 2) smooth_prefac) ⊠ Ok (Arr2 damping_ss)
    else
      damping ← get_damping self growth om;
      bdelta_prefac ← Arr2 <$> iso_bdelta_prefac p ks;
      beta ← getitem p "beta"%string;
      kaiser_prefac ←
        Ok (np.map (λ x, 1 + x)
              (Arr2 (transpose (length (mu self))
                       (tile ((λ m, beta * m ^ 2) <$> mu self) (length ks)))))
        ⊞ Ok bdelta_prefac;
      (Ok (np.map (λ x, x ^ 2) kaiser_prefac) ⊟ Ok (np.map (λ x, x ^ 2) bdelta_prefac))
        ⊠ Ok (Arr2 damping).

(** [1.0 + pk_ratio * propagator] of lines 257, 261 and 270. *)
Definition wiggle (pk_ratio : list R) (propagator : ndarray) : result ndarray :=
  np.map (λ x, 1 + x) <$> mul (Arr1 pk_ratio) propagator.

(** [add_three_poly if self.n_poly == 3 else add_five_poly] of lines
    263-267 and 337-341. *)
Definition add_poly :=
  if decide (n_poly self = 3%Z) then add_three_poly self else add_five_poly self.

(** Lines 215-272: the branch [if self.isotropic:]. *)
Definition compute_isotropic (k : list R) (p : params) (smooth for_corr : bool)
    (ks pk_smooth_lin pk_ratio : list R)
    : result (ndarray * list ndarray * option (list ndarray)) :=
  let pk := [Arr1 (zeros (length k))] in
  kprime ← (if for_corr then Ok k
            else alpha ← getitem p "alpha"%string; Ok ((λ x, x / alpha) <$> k));
  sigma_s ← getitem p "sigma_s"%string;
  let fog :=
    np.map (λ x, 1 / (1 + x) ^ 2)
      (Arr2 (outer (sq (mu self)) ((λ k, k ^ 2 * sigma_s ^ 2 / 2) <$> ks))) in
  b ← getitem p "b"%string;
  pk_smooth ← mul (Arr1 ((λ x, b ^ 2 * x) <$> pk_smooth_lin)) fog;
  propagator ← iso_propagator p ks smooth;
  prefac ← (if smooth then Ok (Arr1 (ones (length kprime)))
            else w ← wiggle pk_ratio propagator;
                 s ← simps sp w (mu self);
                 interp (Arr1 kprime) ks s);
  '(poly, pk1d) ←
    (if for_corr then
       w ← wiggle pk_ratio propagator;
       y ← mul pk_smooth w;
       s ← simps sp y (mu self);
       Ok (None, s)
     else
       '(shape, poly) ← add_poly ks k p prefac (inl (Arr1 (zeros (length k))));
       let poly := if marg self then drop 1 poly else poly in
       x ← add pk_smooth shape;
       w ← wiggle pk_ratio propagator;
       y ← mul x w;
       s ← simps sp y (mu self);
       Ok (Some poly, s));
  pk0 ← interp (Arr1 kprime) ks pk1d;
  Ok (Arr1 kprime, <[0%nat := pk0]> pk, poly).

(** [par ** power_par * perp ** power_perp] of lines 297-308 and 318-321. *)
Definition aniso_damping (par perp : list (list R)) (power_par power_perp : R)
    : result ndarray :=
  mul (power (Arr2 par) power_par) (power (Arr2 perp) power_perp).

(** Lines 292-324: the propagator of the anisotropic branch ("Compute the
    BAO damping", "Compute propagator"). *)
Definition aniso_propagator (p : params) (data_name : option string)
    (epsilon om growth : R) (kprime : list (list R)) (sprime kaiser_prefac : ndarray)
    : result ndarray :=
  alpha ← getitem p "alpha"%string;
  let power_par := 1 / (alpha ^ 2 * (1 + epsilon) ^ 4) in
  let power_perp := (1 + epsilon) ^ 2 / alpha ^ 2 in
  b_delta ← getitem p "b_delta"%string;
  b ← getitem p "b"%string;
  bdelta_prefac ←
    mul (np.map (λ K, 0.5 * b_delta / (b * K)) kaiser_prefac)
        (Arr2 ((λ row : list R, sq row) <$> kprime));
  if recon self then
    dd_par ← get_damping_aniso_dd_par self growth om data_name;
    dd_perp ← get_damping_aniso_dd_perp self om data_name;
    damping_dd ← aniso_damping dd_par dd_perp power_par power_perp;
    sd_par ← get_damping_aniso_sd_par self growth om data_name;
    sd_perp ← get_damping_aniso_sd_perp self om data_name;
    damping_sd ← aniso_damping sd_par sd_perp power_par power_perp;
    ss_par ← get_damping_aniso_ss_par self om data_name;
    ss_perp ← get_damping_aniso_ss_perp self om data_name;
    damping_ss ← aniso_damping ss_par ss_perp power_par power_perp;
    smooth_prefac ← div sprime (np.map (λ K, b * K) kaiser_prefac);
    let one_b_s := Ok (np.map (λ x, 1 + x) bdelta_prefac) ⊟ Ok smooth_prefac in
    (((λ a, np.map (λ x, x ^ 2) a) <$> one_b_s)
       ⊟ Ok (np.map (λ x, x ^ 2) bdelta_prefac))
      ⊠ Ok damping_dd
    ⊞ ((λ a, np.map (λ x, 2 * x) a) <$> one_b_s) ⊠ Ok smooth_prefac ⊠ Ok damping_sd
    ⊞ Ok (np.map (λ x, x ^ 2) smooth_prefac) ⊠ Ok damping_ss
  else
    par ← get_damping_aniso_par self growth om data_name;
    perp ← get_damping_aniso_perp self om data_name;
    damping ← aniso_damping par perp power_par power_perp;
    mul (np.map (λ x, 1 + 2 * x) bdelta_prefac) damping.

(** Line 346: [pk[pole] += shape[pole]], for the non-negative poles of a
    model configuration. *)
Definition add_shape (shape : ndarray) (pk : list ndarray) (pole : nat)
    : result (list ndarray) :=
  match pk !! pole with
  | None => Raise IndexError
  | Some a => s ← index shape pole; a' ← iadd a s; Ok (<[pole := a']> pk)
  end.

(** Lines 274-346: the branch [else:] of [if self.isotropic:]. *)
Definition compute_anisotropic (k : list R) (p : params) (smooth for_corr : bool)
    (data_name : option string) (ks pk_smooth_lin pk_ratio : list R)
    : result (ndarray * list ndarray * option (list ndarray)) :=
  p_eps ← getitem p "epsilon"%string;
  let epsilon := round p_eps 5 in
  kprime ← (if for_corr then Ok (transpose (length k) (tile k (nmu self)))
            else alpha ← getitem p "alpha"%string;
                 fac ← get_kprimefac self epsilon;
                 Ok (outer ((λ x, x / alpha) <$> k) fac));
  muprime ← get_muprime self epsilon;
  mk ← mul (np.map (λ x, x ^ 2) muprime) (Arr2 ((λ row : list R, sq row) <$> kprime));
  sigma_s ← getitem p "sigma_s"%string;
  let fog := np.map (λ x, 1 / (1 + x * sigma_s ^ 2 / 2) ^ 2) mk in
  '(om, growth) ← round_om_growth p;
  sprime ← (if recon self
            then interp (Arr2 kprime) ks (Arr1 (camb_smoothing_kernel (camb self)))
            else Ok (Scalar 0));
  beta ← getitem p "beta"%string;
  kaiser_prefac ←
    np.map (λ x, 1 + x)
      <$> mul (np.map (λ m, beta * m ^ 2) muprime) (np.map (λ s, 1 - s) sprime);
  b ← getitem p "b"%string;
  pk_smooth ←
    Ok (np.map (λ K, b ^ 2 * K ^ 2) kaiser_prefac)
    ⊠ interp (Arr2 kprime) ks (Arr1 pk_smooth_lin)
    ⊠ Ok fog;
  pk2d ← (if smooth then Ok pk_smooth
          else
            propagator ← aniso_propagator p data_name epsilon om growth
                           kprime sprime kaiser_prefac;
            Ok pk_smooth
            ⊠ (np.map (λ x, 1 + x)
                 <$> (interp (Arr2 kprime) ks (Arr1 pk_ratio) ⊠ Ok propagator)));
  '(pk0, pk2, pk4) ← integrate_mu self pk2d;
  let pk := [pk0; Arr1 (zeros (length k)); pk2; Arr1 (zeros (length k));
             pk4; Arr1 (zeros (length k))] in
  if for_corr then Ok (Arr1 k, pk, None)
  else
    '(shape, poly) ← add_poly k k p (Arr1 (ones (length k))) (inr pk);
    if marg self then Ok (Arr2 kprime, pk, Some (drop 1 poly))
    else
      pk' ← foldM (add_shape shape) pk (poly_poles self);
      Ok (Arr2 kprime, pk', Some poly).

(** Lines 174-348: [def compute_power_spectrum(self, k, p, smooth=False,
    for_corr=False, data_name=None)], returning [(kprime, pk, poly)]. *)
Definition compute_power_spectrum (k : list R) (p : params)
    (smooth for_corr : bool) (data_name : option string)
    : result (ndarray * list ndarray * option (list ndarray)) :=
  '(ks, pk_smooth_lin, pk_ratio) ← basic_components p;
  p ← effective_params p for_corr;
  if isotropic self
  then compute_isotropic k p smooth for_corr ks pk_smooth_lin pk_ratio
  else compute_anisotropic k p smooth for_corr data_name ks pk_smooth_lin pk_ratio.

(** *** The pure broadband prediction

    The reference the evaluation with [smooth=True] is compared with.  The
    smooth-spectrum term is the bias squared times the smooth linear
    spectrum times the Fingers-of-God factor, projected as the branch
    projects its spectrum, plus the polynomial terms unless [for_corr]; no
    damping array, no propagator and no wiggle ratio enters.  The claim's
    words give the term no Kaiser factor; [kaiser] says whether the
    anisotropic term carries the squared Kaiser factor
    [(1 + beta mu'^2 (1 - S))^2] all the same. *)

(** [pk[pole] + shape[pole]] for the poles of the model, one after the
    other. *)
Fixpoint plus_polynomial (shape : ndarray) (pk : list ndarray) (poles : list nat)
    : result (list ndarray) :=
  match poles with
  | [] => Ok pk
  | pole :: poles =>
      match pk !! pole with
      | None => Raise IndexError
      | Some a =>
          s ← index shape pole;
          sum ← add a s;
          plus_polynomial shape (<[pole := sum]> pk) poles
      end
  end.

Definition broadband_isotropic (k : list R) (p : params) (for_corr : bool)
    (ks pk_smooth_lin : list R)
    : result (ndarray * list ndarray * option (list ndarray)) :=
  kprime ← (if for_corr then Ok k
            else alpha ← getitem p "alpha"%string; Ok ((λ x, x / alpha) <$> k));
  sigma_s ← getitem p "sigma_s"%string;
  let fog :=
    np.map (λ x, 1 / (1 + x) ^ 2)
      (Arr2 (outer (sq (mu self)) ((λ k, k ^ 2 * sigma_s ^ 2 / 2) <$> ks))) in
  b ← getitem p "b"%string;
  pk_smooth ← mul (Arr1 ((λ x, b ^ 2 * x) <$> pk_smooth_lin)) fog;
  '(poly, pk1d) ←
    (if for_corr then
       s ← simps sp pk_smooth (mu self);
       Ok (None, s)
     else
       '(shape, poly) ← add_poly ks k p (Arr1 (ones (length kprime)))
                          (inl (Arr1 (zeros (length k))));
       let poly := if marg self then drop 1 poly else poly in
       x ← add pk_smooth shape;
       s ← simps sp x (mu self);
       Ok (Some poly, s));
  pk0 ← interp (Arr1 kprime) ks pk1d;
  Ok (Arr1 kprime, [pk0], poly).

Definition broadband_anisotropic (kaiser : bool) (k : list R) (p : params)
    (for_corr : bool) (ks pk_smooth_lin : list R)
    : result (ndarray * list ndarray * option (list ndarray)) :=
  p_eps ← getitem p "epsilon"%string;
  let epsilon := round p_eps 5 in
  kprime ← (if for_corr then Ok (transpose (length k) (tile k (nmu self)))
            else alpha ← getitem p "alpha"%string;
                 fac ← get_kprimefac self epsilon;
                 Ok (outer ((λ x, x / alpha) <$> k) fac));
  muprime ← get_muprime self epsilon;
  mk ← mul (np.map (λ x, x ^ 2) muprime) (Arr2 ((λ row : list R, sq row) <$> kprime));
  sigma_s ← getitem p "sigma_s"%string;
  let fog := np.map (λ x, 1 / (1 + x * sigma_s ^ 2 / 2) ^ 2) mk in
  amplitude ←
    (if kaiser then
       sprime ← (if recon self
                 then interp (Arr2 kprime) ks
                        (Arr1 (camb_smoothing_kernel (camb self)))
                 else Ok (Scalar 0));
       beta ← getitem p "beta"%string;
       kaiser_prefac ←
         np.map (λ x, 1 + x)
           <$> mul (np.map (λ m, beta * m ^ 2) muprime) (np.map (λ s, 1 - s) sprime);
       b ← getitem p "b"%string;
       Ok (np.map (λ K, b ^ 2 * K ^ 2) kaiser_prefac)
     else
       b ← getitem p "b"%string;
       Ok (Scalar (b ^ 2)));
  pk_smooth ←
    Ok amplitude ⊠ interp (Arr2 kprime) ks (Arr1 pk_smooth_lin) ⊠ Ok fog;
  '(pk0, pk2, pk4) ← integrate_mu self pk_smooth;
  let pk := [pk0; Arr1 (zeros (length k)); pk2; Arr1 (zeros (length k));
             pk4; Arr1 (zeros (length k))] in
  if for_corr then Ok (Arr1 k, pk, None)
  else
    '(shape, poly) ← add_poly k k p (Arr1 (ones (length k))) (inr pk);
    if marg self then Ok (Arr2 kprime, pk, Some (drop 1 poly))
    else
      pk' ← plus_polynomial shape pk (poly_poles self);
      Ok (Arr2 kprime, pk', Some poly).

Definition broadband (kaiser : bool) (k : list R) (p : params) (for_corr : bool)
    : result (ndarray * list ndarray * option (list ndarray)) :=
  '(ks, pk_smooth_lin, _) ← basic_components p;
  p ← effective_params p for_corr;
  if isotropic self
  then broadband_isotropic k p for_corr ks pk_smooth_lin
  else broadband_anisotropic kaiser k p for_corr ks pk_smooth_lin.

(** The prediction in the claim's words: no Kaiser factor in either
    branch. *)
Definition claimed_broadband := broadband false.
End Evaluate.

(** *** The cached methods and the evaluation over their caches

    [@lru_cache(maxsize=4)] wraps each damping method.  For one instance
    the key of a call is the tuple of the remaining arguments, here the
    positional floats and the [data_name] keyword; every method has a
    cache of its own, reached by the method's name.  The evaluation is
    written a second time with the caches threaded through it: a step
    takes the caches and returns its outcome and the caches it leaves. *)
Abbreviation Key := (list R * option string)%type.
Abbreviation Cache := (list (Key * list (list R))).
(** The caches of one instance by method name; a method not called yet
    has no entry. *)
Abbreviation Caches := (gmap string Cache).

Definition CacheM (A : Type) : Type := Caches → result A * Caches.
#[global] Instance CacheM_ret : MRet CacheM := λ A a c, (Ok a, c).
#[global] Instance CacheM_bind : MBind CacheM := λ A B f m c,
  match m c with
  | (Ok a, c') => f a c'
  | (Raise e, c') => (Raise e, c')
  end.
(** A step that does not touch the caches. *)
Definition lift {A} (m : result A) : CacheM A := λ c, (m, c).

(** A call of the cached method [name]; an exception of the method leaves
    the caches as they were. *)
Definition cached (name : string) (f : Key → result (list (list R))) (key : Key)
    : CacheM (list (list R)) := λ c,
  match lru.call 4 f key (default [] (c !! name)) with
  | (Ok v, cache) => (Ok v, <[name := cache]> c)
  | (Raise e, _) => (Raise e, c)
  end.

Section Cached.
Variable round : R → nat → R.
Variable sp : Scipy.
Variable self : PowerSpectrumFit.

(** The methods on the arguments of a key: [(growth, om)], [(om,)],
    [(growth, om, data_name)] and [(om, data_name)].  A call with other
    arguments is a [TypeError]. *)
Definition of_growth_om (f : R → R → result (list (list R))) (key : Key)
    : result (list (list R)) :=
  match key with
  | ([growth; om], None) => f growth om
  | _ => Raise (OtherError "TypeError")
  end.
Definition of_om (f : R → result (list (list R))) (key : Key)
    : result (list (list R)) :=
  match key with
  | ([om], None) => f om
  | _ => Raise (OtherError "TypeError")
  end.
Definition of_growth_om_data
    (f : R → R → option string → result (list (list R))) (key : Key)
    : result (list (list R)) :=
  match key with
  | ([growth; om], data_name) => f growth om data_name
  | _ => Raise (OtherError "TypeError")
  end.
Definition of_om_data (f : R → option string → result (list (list R))) (key : Key)
    : result (list (list R)) :=
  match key with
  | ([om], data_name) => f om data_name
  | _ => Raise (OtherError "TypeError")
  end.

(** The twelve cached methods of lines 79-157. *)
Definition cached_methods : list (string * (Key → result (list (list R)))) :=
  [("get_damping_dd", of_growth_om (get_damping_dd self));
   ("get_damping_sd", of_growth_om (get_damping_sd self));
   ("get_damping_ss", of_om (get_damping_ss self));
   ("get_damping", of_growth_om (get_damping self));
   ("get_damping_aniso_par", of_growth_om_data (get_damping_aniso_par self));
   ("get_damping_aniso_perp", of_om_data (get_damping_aniso_perp self));
   ("get_damping_aniso_dd_par", of_growth_om_data (get_damping_aniso_dd_par self));
   ("get_damping_aniso_dd_perp", of_om_data (get_damping_aniso_dd_perp self));
   ("get_damping_aniso_sd_par", of_growth_om_data (get_damping_aniso_sd_par self));
   ("get_damping_aniso_sd_perp", of_om_data (get_damping_aniso_sd_perp self));
   ("get_damping_aniso_ss_par", of_om_data (get_damping_aniso_ss_par self));
   ("get_damping_aniso_ss_perp", of_om_data (get_damping_aniso_ss_perp self))]%string.

(** Caches as calls of the methods leave them: each within [maxsize], one
    entry per key, every stored array what its method returns at the
    key. *)
Definition caches_wf (c : Caches) : Prop :=
  ∀ name f, (name, f) ∈ cached_methods → lru.wf 4 f (default [] (c !! name)).

Definition cached_get_damping_dd (growth om : R) :=
  cached "get_damping_dd" (of_growth_om (get_damping_dd self)) ([growth; om], None).
Definition cached_get_damping_sd (growth om : R) :=
  cached "get_damping_sd" (of_growth_om (get_damping_sd self)) ([growth; om], None).
Definition cached_get_damping_ss (om : R) :=
  cached "get_damping_ss" (of_om (get_damping_ss self)) ([om], None).
Definition cached_get_damping (growth om : R) :=
  cached "get_damping" (of_growth_om (get_damping self)) ([growth; om], None).
Definition cached_get_damping_aniso_par (growth om : R) (data_name : option string) :=
  cached "get_damping_aniso_par" (of_growth_om_data (get_damping_aniso_par self))
    ([growth; om], data_name).
Definition cached_get_damping_aniso_perp (om : R) (data_name : option string) :=
  cached "get_damping_aniso_perp" (of_om_data (get_damping_aniso_perp self))
    ([om], data_name).
Definition cached_get_damping_aniso_dd_par (growth om : R) (data_name : option string) :=
  cached "get_damping_aniso_dd_par" (of_growth_om_data (get_damping_aniso_dd_par self))
    ([growth; om], data_name).
Definition cached_get_damping_aniso_dd_perp (om : R) (data_name : option string) :=
  cached "get_damping_aniso_dd_perp" (of_om_data (get_damping_aniso_dd_perp self))
    ([om], data_name).
Definition cached_get_damping_aniso_sd_par (growth om : R) (data_name : option string) :=
  cached "get_damping_aniso_sd_par" (of_growth_om_data (get_damping_aniso_sd_par self))
    ([growth; om], data_name).
Definition cached_get_damping_aniso_sd_perp (om : R) (data_name : option string) :=
  cached "get_damping_aniso_sd_perp" (of_om_data (get_damping_aniso_sd_perp self))
    ([om], data_name).
Definition cached_get_damping_aniso_ss_par (om : R) (data_name : option string) :=
  cached "get_damping_aniso_ss_par" (of_om_data (get_damping_aniso_ss_par self))
    ([om], data_name).
Definition cached_get_damping_aniso_ss_perp (om : R) (data_name : option string) :=
  cached "get_damping_aniso_ss_perp" (of_om_data (get_damping_aniso_ss_perp self))
    ([om], data_name).

(** The cached calls of an evaluation with [smooth=False], as method
    names and keys: lines 232-234 and 245 in the isotropic branch, lines
    297-306 and 318-320 in the anisotropic one. *)
Definition damping_calls (om growth : R) (data_name : option string)
    : list (string * Key) :=
  (if isotropic self then
     if recon self then
       [("get_damping_dd", ([growth; om], None));
        ("get_damping_sd", ([growth; om], None));
        ("get_damping_ss", ([om], None))]
     else [("get_damping", ([growth; om], None))]
   else
     if recon self then
       [("get_damping_aniso_dd_par", ([growth; om], data_name));
        ("get_damping_aniso_dd_perp", ([om], data_name));
        ("get_damping_aniso_sd_par", ([growth; om], data_name));
        ("get_damping_aniso_sd_perp", ([om], data_name));
        ("get_damping_aniso_ss_par", ([om], data_name));
        ("get_damping_aniso_ss_perp", ([om], data_name))]
     else
       [("get_damping_aniso_par", ([growth; om], data_name));
        ("get_damping_aniso_perp", ([om], data_name))])%string.

(** The entry of [key] is the most recent one of the cache of [name] and
    holds [v]. *)
Definition stored (c : Caches) (name : string) (key : Key) (v : list (list R)) : Prop :=
  ∃ rest, c !! name = Some ((key, v) :: rest) ∧ key ∉ rest.*1.

(** Every call of [calls] has its entry stored as the most recent one. *)
Definition all_stored (calls : list (string * Key)) (c : Caches) : Prop :=
  ∀ name key, (name, key) ∈ calls → ∃ v, stored c name key v.

(** [m] returns [r] whatever well-formed caches it starts from, and leaves
    well-formed caches. *)
Definition returns_as {A} (m : CacheM A) (r : result A) : Prop :=
  ∀ c, caches_wf c → ∃ c', m c = (r, c') ∧ caches_wf c'.

(** When [m] returns, the entries of [calls] are stored and the caches of
    the other methods are as they were. *)
Definition stores {A} (m : CacheM A) (calls : list (string * Key)) : Prop :=
  ∀ c a c', caches_wf c → m c = (Ok a, c') →
    caches_wf c' ∧ all_stored calls c' ∧
    ∀ name, name ∉ calls.*1 → c' !! name = c !! name.

(** [m] leaves the caches [c] exactly as they are. *)
Definition keeps {A} (c : Caches) (m : CacheM A) : Prop := (m c).2 = c.

(** Lines 225-252 over the caches. *)
Definition cached_iso_propagator (p : params) (ks : list R) (smooth : bool)
    : CacheM ndarray :=
  if smooth then mret (Arr1 (zeros (length ks)))
  else
    '(om, growth) ← lift (round_om_growth round p);
    if recon self then
      damping_dd ← cached_get_damping_dd growth om;
      damping_sd ← cached_get_damping_sd growth om;
      damping_ss ← cached_get_damping_ss om;
      lift (
        b ← getitem p "b"%string;
        let smooth_prefac :=
          Arr2 (tile ((λ s, s / b) <$> camb_smoothing_kernel (camb self)) (nmu self)) in
        bdelta_prefac ← Arr2 <$> iso_bdelta_prefac self p ks;
        beta ← getitem p "beta"%string;
        kaiser_prefac ←
          Ok (np.map (λ x, 1 - x) smooth_prefac)
          ⊞ Ok (Arr2 (outer ((λ m, beta * m ^ 2) <$> mu self)
                            ((λ s, 1 - s) <$> camb_smoothing_kernel (camb self))))
          ⊞ Ok bdelta_prefac;
        (Ok (np.map (λ x, x ^ 2) kaiser_prefac) ⊟ Ok (np.map (λ x, x ^ 2) bdelta_prefac))
          ⊠ Ok (Arr2 damping_dd)
        ⊞ Ok (np.map (λ x, 2 * x) kaiser_prefac) ⊠ Ok smooth_prefac ⊠ Ok (Arr2 damping_sd)
        ⊞ Ok (np.map (λ x, x ^ 2) smooth_prefac) ⊠ Ok (Arr2 damping_ss))
    else
      damping ← cached_get_damping growth om;
      lift (
        bdelta_prefac ← Arr2 <$> iso_bdelta_prefac self p ks;
        beta ← getitem p "beta"%string;
        kaiser_prefac ←
          Ok (np.map (λ x, 1 + x)
                (Arr2 (transpose (length (mu self))
                         (tile ((λ m, beta * m ^ 2) <$> mu self) (length ks)))))
          ⊞ Ok bdelta_prefac;
        (Ok (np.map (λ x, x ^ 2) kaiser_prefac) ⊟ Ok (np.map (λ x, x ^ 2) bdelta_prefac))
          ⊠ Ok (Arr2 damping)).

(** Lines 215-272 over the caches. *)
Definition cached_compute_isotropic (k : list R) (p : params) (smooth for_corr : bool)
    (ks pk_smooth_lin pk_ratio : list R)
    : CacheM (ndarray * list ndarray * option (list ndarray)) :=
  let pk := [Arr1 (zeros (length k))] in
  kprime ← lift (if for_corr then Ok k
                 else alpha ← getitem p "alpha"%string; Ok ((λ x, x / alpha) <$> k));
  sigma_s ← lift (getitem p "sigma_s"%string);
  let fog :=
    np.map (λ x, 1 / (1 + x) ^ 2)
      (Arr2 (outer (sq (mu self)) ((λ k, k ^ 2 * sigma_s ^ 2 / 2) <$> ks))) in
  b ← lift (getitem p "b"%string);
  pk_smooth ← lift (mul (Arr1 ((λ x, b ^ 2 * x) <$> pk_smooth_lin)) fog);
  propagator ← cached_iso_propagator p ks smooth;
  lift (
    prefac ← (if smooth then Ok (Arr1 (ones (length kprime)))
              else w ← wiggle pk_ratio propagator;
                   s ← simps sp w (mu self);
                   interp sp (Arr1 kprime) ks s);
    '(poly, pk1d) ←
      (if for_corr then
         w ← wiggle pk_ratio propagator;
         y ← mul pk_smooth w;
         s ← simps sp y (mu self);
         Ok (None, s)
       else
         '(shape, poly) ← add_poly self ks k p prefac (inl (Arr1 (zeros (length k))));
         let poly := if marg self then drop 1 poly else poly in
         x ← add pk_smooth shape;
         w ← wiggle pk_ratio propagator;
         y ← mul x w;
         s ← simps sp y (mu self);
         Ok (Some poly, s));
    pk0 ← interp sp (Arr1 kprime) ks pk1d;
    Ok (Arr1 kprime, <[0%nat := pk0]> pk, poly)).

(** Lines 292-324 over the caches. *)
Definition cached_aniso_propagator (p : params) (data_name : option string)
    (epsilon om growth : R) (kprime : list (list R)) (sprime kaiser_prefac : ndarray)
    : CacheM ndarray :=
  alpha ← lift (getitem p "alpha"%string);
  let power_par := 1 / (alpha ^ 2 * (1 + epsilon) ^ 4) in
  let power_perp := (1 + epsilon) ^ 2 / alpha ^ 2 in
  b_delta ← lift (getitem p "b_delta"%string);
  b ← lift (getitem p "b"%string);
  bdelta_prefac ←
    lift (mul (np.map (λ K, 0.5 * b_delta / (b * K)) kaiser_prefac)
              (Arr2 ((λ row : list R, sq row) <$> kprime)));
  if recon self then
    dd_par ← cached_get_damping_aniso_dd_par growth om data_name;
    dd_perp ← cached_get_damping_aniso_dd_perp om data_name;
    damping_dd ← lift (aniso_damping dd_par dd_perp power_par power_perp);
    sd_par ← cached_get_damping_aniso_sd_par growth om data_name;
    sd_perp ← cached_get_damping_aniso_sd_perp om data_name;
    damping_sd ← lift (aniso_damping sd_par sd_perp power_par power_perp);
    ss_par ← cached_get_damping_aniso_ss_par om data_name;
    ss_perp ← cached_get_damping_aniso_ss_perp om data_name;
    damping_ss ← lift (aniso_damping ss_par ss_perp power_par power_perp);
    lift (
      smooth_prefac ← div sprime (np.map (λ K, b * K) kaiser_prefac);
      let one_b_s := Ok (np.map (λ x, 1 + x) bdelta_prefac) ⊟ Ok smooth_prefac in
      (((λ a, np.map (λ x, x ^ 2) a) <$> one_b_s)
         ⊟ Ok (np.map (λ x, x ^ 2) bdelta_prefac))
        ⊠ Ok damping_dd
      ⊞ ((λ a, np.map (λ x, 2 * x) a) <$> one_b_s) ⊠ Ok smooth_prefac ⊠ Ok damping_sd
      ⊞ Ok (np.map (λ x, x ^ 2) smooth_prefac) ⊠ Ok damping_ss)
  else
    par ← cached_get_damping_aniso_par growth om data_name;
    perp ← cached_get_damping_aniso_perp om data_name;
    lift (
      damping ← aniso_damping par perp power_par power_perp;
      mul (np.map (λ x, 1 + 2 * x) bdelta_prefac) damping).

(** Lines 274-346 over the caches. *)
Definition cached_compute_anisotropic (k : list R) (p : params)
    (smooth for_corr : bool) (data_name : option string)
    (ks pk_smooth_lin pk_ratio : list R)
    : CacheM (ndarray * list ndarray * option (list ndarray)) :=
  p_eps ← lift (getitem p "epsilon"%string);
  let epsilon := round p_eps 5 in
  kprime ← lift (if for_corr then Ok (transpose (length k) (tile k (nmu self)))
                 else alpha ← getitem p "alpha"%string;
                      fac ← get_kprimefac self epsilon;
                      Ok (outer ((λ x, x / alpha) <$> k) fac));
  muprime ← lift (get_muprime self epsilon);
  mk ← lift (mul (np.map (λ x, x ^ 2) muprime)
                 (Arr2 ((λ row : list R, sq row) <$> kprime)));
  sigma_s ← lift (getitem p "sigma_s"%string);
  let fog := np.map (λ x, 1 / (1 + x * sigma_s ^ 2 / 2) ^ 2) mk in
  '(om, growth) ← lift (round_om_growth round p);
  sprime ← lift (if recon self
                 then interp sp (Arr2 kprime) ks
                        (Arr1 (camb_smoothing_kernel (camb self)))
                 else Ok (Scalar 0));
  beta ← lift (getitem p "beta"%string);
  kaiser_prefac ←
    lift (np.map (λ x, 1 + x)
            <$> mul (np.map (λ m, beta * m ^ 2) muprime) (np.map (λ s, 1 - s) sprime));
  b ← lift (getitem p "b"%string);
  pk_smooth ←
    lift (Ok (np.map (λ K, b ^ 2 * K ^ 2) kaiser_prefac)
          ⊠ interp sp (Arr2 kprime) ks (Arr1 pk_smooth_lin)
          ⊠ Ok fog);
  pk2d ← (if smooth then mret pk_smooth
          else
            propagator ← cached_aniso_propagator p data_name epsilon om growth
                           kprime sprime kaiser_prefac;
            lift (Ok pk_smooth
                  ⊠ (np.map (λ x, 1 + x)
                       <$> (interp sp (Arr2 kprime) ks (Arr1 pk_ratio)
                            ⊠ Ok propagator))));
  lift (
    '(pk0, pk2, pk4) ← integrate_mu self pk2d;
    let pk := [pk0; Arr1 (zeros (length k)); pk2; Arr1 (zeros (length k));
               pk4; Arr1 (zeros (length k))] in
    if for_corr then Ok (Arr1 k, pk, None)
    else
      '(shape, poly) ← add_poly self k k p (Arr1 (ones (length k))) (inr pk);
      if marg self then Ok (Arr2 kprime, pk, Some (drop 1 poly))
      else
        pk' ← foldM (add_shape shape) pk (poly_poles self);
        Ok (Arr2 kprime, pk', Some poly)).

(** Lines 174-348 over the caches. *)
Definition cached_compute_power_spectrum (k : list R) (p : params)
    (smooth for_corr : bool) (data_name : option string)
    : CacheM (ndarray * list ndarray * option (list ndarray)) :=
  '(ks, pk_smooth_lin, pk_ratio) ← lift (basic_components self p);
  p ← lift (effective_params self p for_corr);
  if isotropic self
  then cached_compute_isotropic k p smooth for_corr ks pk_smooth_lin pk_ratio
  else cached_compute_anisotropic k p smooth for_corr data_name
         ks pk_smooth_lin pk_ratio.
End Cached.

(** *** [precompute] *)

(** What [camb.get_data(om, h0)] returns, as far as [precompute] reads
    it: [c["r_s"]], [c["ks"]] and [c["pk_lin"]]. *)
Record CambData := {
  r_s : R;
  data_ks : list R;
  pk_lin : list R;
}.

Section Precompute.
Variable sp : Scipy.
(** [scipy.special.jn(n, x)] *)
Variable jn : Z → R → R.
(** [camb.get_data(om, h0)] *)
Variable get_data : CambGenerator → R → R → result CambData.

(** [integrate.simps(y, ks) / (6.0 * np.pi**2)]; the integrand is 1-D,
    where the default axis is axis 0. *)
Definition sigma_integral (y : result ndarray) (ks : list R) : result ndarray :=
  y ← y; i ← simps sp y ks; div i (Scalar (6 * PI ^ 2)).

(** Lines 62-77: [def precompute(self, camb, om, h0)] *)
Definition precompute (camb : CambGenerator) (om h0 : R)
    : result (gmap string ndarray) :=
  c ← get_data camb om h0;
  let r_drag := r_s c in
  let ks := data_ks c in
  let pk_lin := Arr1 (pk_lin c) in
  let j0 := Arr1 ((λ k, jn 0 (r_drag * k)) <$> ks) in
  let s := Arr1 (camb_smoothing_kernel camb) in
  sigma_nl ←
    sigma_integral (Ok pk_lin ⊠ Ok (np.map (λ x, 1 - x) j0)) ks;
  sigma_dd_nl ←
    sigma_integral
      (Ok pk_lin ⊠ Ok (np.map (λ x, (1 - x) ^ 2) s) ⊠ Ok (np.map (λ x, 1 - x) j0)) ks;
  sigma_sd_nl ←
    sigma_integral
      (Ok pk_lin
       ⊠ ((np.map (λ x, 0.5 * x)
             <$> (Ok (np.map (λ x, x ^ 2) s) ⊞ Ok (np.map (λ x, (1 - x) ^ 2) s)))
          ⊞ (Ok j0 ⊠ Ok s ⊠ Ok (np.map (λ x, 1 - x) s)))) ks;
  sigma_ss_nl ←
    sigma_integral
      (Ok pk_lin ⊠ Ok (np.map (λ x, x ^ 2) s) ⊠ Ok (np.map (λ x, 1 - x) j0)) ks;
  Ok (<["sigma_ss_nl"%string := sigma_ss_nl]>
        (<["sigma_sd_nl"%string := sigma_sd_nl]>
           (<["sigma_dd_nl"%string := sigma_dd_nl]>
              (<["sigma_nl"%string := sigma_nl]> ∅)))).
End Precompute.

(** *** [declare_parameters] *)
Section Declare.
Import model.
Local Open Scope string_scope.

(** The polynomial amplitudes of one [(i, pole)] pair. *)
Definition declare_poly (n_poly : Z) (i pole : nat) (params : list Param)
    : list Param :=
  let params :=
    if decide (3 ≤ n_poly)%Z then
      add_param ("a{" +:+ str pole +:+ "}_3_{" +:+ str (i + 1) +:+ "}")
                ("$a_{" +:+ str pole +:+ ",3," +:+ str (i + 1) +:+ "}$")
                (-5000) 5000 0
        (add_param ("a{" +:+ str pole +:+ "}_2_{" +:+ str (i + 1) +:+ "}")
                   ("$a_{" +:+ str pole +:+ ",2," +:+ str (i + 1) +:+ "}$")
                   (-20000) 20000 0
           (add_param ("a{" +:+ str pole +:+ "}_1_{" +:+ str (i + 1) +:+ "}")
                      ("$a_{" +:+ str pole +:+ ",1," +:+ str (i + 1) +:+ "}$")
                      (-20000) 20000 0 params))
    else params in
  if decide (n_poly = 5)%Z then
    add_param ("a{" +:+ str pole +:+ "}_5_{" +:+ str (i + 1) +:+ "}")
              ("$a_{" +:+ str pole +:+ ",5," +:+ str (i + 1) +:+ "}$")
              (-3) 3 0
      (add_param ("a{" +:+ str pole +:+ "}_4_{" +:+ str (i + 1) +:+ "}")
                 ("$a_{" +:+ str pole +:+ ",4," +:+ str (i + 1) +:+ "}$")
                 (-200) 200 0 params)
  else params.

(** Lines 159-172: [def declare_parameters(self)]; [super_params] is what
    [super().declare_parameters()] has declared. *)
Definition declare_parameters (self : PowerSpectrumFit) (super_params : list Param)
    : list Param :=
  let params := add_param "beta" "$\beta$" 0.01 4 0.5 super_params in
  let params := add_param "sigma_s" "$\Sigma_s$" 0.01 10 5 params in
  let params := add_param "b_delta" "$b_{\delta}$" (-5) 5 0 params in
  foldl (λ params i,
           foldl (λ params pole, declare_poly (n_poly self) i pole params)
                 params (poly_poles self))
        params (seq 0 (n_data_poly self)).
End Declare.

(** *** [__init__] *)

(** The constructor's keyword arguments. *)
Record InitArgs := {
  arg_name : string;
  arg_fix_params : list string;
  arg_smooth_type : option string;
  arg_recon : option string;
  arg_postprocess : option string;
  arg_smooth : bool;
  arg_correction : option string;
  arg_isotropic : bool;
  arg_poly_poles : list nat;
  arg_marg : option string;
  arg_n_poly : Z;
  arg_n_data : nat;
  arg_data_share_bias : bool;
  arg_data_share_poly : bool;
}.

Section Init.
(** [super().__init__(...)], entered with [self.marg_bias] already set,
    and the inherited [self.set_marg(fix_params, poly_poles, n_poly)]. *)
Variable super_init : bool → InitArgs → result PowerSpectrumFit.
Variable set_marg :
  PowerSpectrumFit → list string → list nat → Z → result PowerSpectrumFit.

(** Lines 17-60: [def __init__(self, name=..., ..., data_share_poly=False)] *)
Definition init (args : InitArgs) : result PowerSpectrumFit :=
  if decide (arg_n_poly args ∈ [0; 3; 5]%Z) then
    let marg_bias := false in
    self ← super_init marg_bias args;
    if decide (recon_type self = "sym"%string ∨ recon_type self = "ani"%string)
    then Raise (NotImplementedError
      "Symmetric and Anisotropic reconstruction not yet available for Ding2018 model")
    else set_marg self (arg_fix_params args) (arg_poly_poles args) (arg_n_poly args)
  else Raise (NotImplementedError
    "Models require n_poly to be 0, 3 or 5 polynomial terms per multipole").
End Init.

End PowerDing2018.


(** ** [class CorrSeo2016(CorrelationFunctionFit)] *)
Module CorrSeo2016.
Import model.
Local Open Scope string_scope.

(** The constructor's keyword arguments. *)
Record InitArgs := {
  arg_name : string;
  arg_fix_params : list string;
  arg_smooth_type : option string;
  arg_recon : option string;
  arg_smooth : bool;
  arg_correction : option string;
  arg_isotropic : bool;
  arg_poly_poles : list nat;
  arg_marg : option string;
}.

Section Class.
(** [PowerSeo2016] lives in another file; its instances are opaque here. *)
Variable PowerSeo2016 : Type.
(** [PowerSeo2016(fix_params=, smooth_type=, recon=, smooth=, correction=,
    isotropic=, marg=)] *)
Variable PowerSeo2016_init :
  list string → option string → option string → bool → option string → bool →
  option string → result PowerSeo2016.

(** The attributes of an instance. *)
Record Instance := {
  recon_smoothing_scale : option R;
  isotropic : bool;
  marg : bool;
  poly_poles : list nat;
  fix_params : list string;
  params : list Param;
  parent : option PowerSeo2016;
}.

Definition with_params (self : Instance) (ps : list Param) : Instance :=
  {| recon_smoothing_scale := recon_smoothing_scale self;
     isotropic := isotropic self; marg := marg self;
     poly_poles := poly_poles self; fix_params := fix_params self;
     params := ps; parent := parent self |}.

Definition with_parent (self : Instance) (m : PowerSeo2016) : Instance :=
  {| recon_smoothing_scale := recon_smoothing_scale self;
     isotropic := isotropic self; marg := marg self;
     poly_poles := poly_poles self; fix_params := fix_params self;
     params := params self; parent := Some m |}.

(** What [super().declare_parameters()] declares for an instance. *)
Variable super_declared : Instance → list Param.

(** [f"a{{{pole}}}_1"], [f"a{{{pole}}}_2"], [f"a{{{pole}}}_3"] *)
Definition poly_names (pole : nat) : list string :=
  ["a{" +:+ str pole +:+ "}_1"; "a{" +:+ str pole +:+ "}_2";
   "a{" +:+ str pole +:+ "}_3"].

(** The three [add_param] calls of one pole. *)
Definition declare_pole (pole : nat) (ps : list Param) : list Param :=
  add_param ("a{" +:+ str pole +:+ "}_3") ("$a_{" +:+ str pole +:+ ",3}$") (-0.2) 0.2 0
    (add_param ("a{" +:+ str pole +:+ "}_2") ("$a_{" +:+ str pole +:+ ",2}$") (-2) 2 0
       (add_param ("a{" +:+ str pole +:+ "}_1") ("$a_{" +:+ str pole +:+ ",1}$")
                  (-100) 100 0 ps)).

(** Lines 59-68: [def declare_parameters(self)] *)
Definition declare_parameters (self : Instance) : Instance :=
  let ps := (params self ++ super_declared self)%list in
  let ps := add_param "b" "$b$" 0.1 10 1 ps in
  let ps := add_param "beta" "$\beta$" 0.01 4 0.5 ps in
  let ps := add_param "sigma_s" "$\Sigma_s$" 0.01 10 5 ps in
  with_params self (foldl (λ ps pole, declare_pole pole ps) ps (poly_poles self)).

(** Modelled from the spec: the constructor of the base class
    [CorrelationFunctionFit] is not among the source files.  It stores the
    configuration (the marginalization flag holds for the modes "full"
    and "partial"), has the instance declare its parameters and records
    the fixed ones. *)
Definition CorrelationFunctionFit_init (scale : option R) (name : string)
    (fix_params : list string) (smooth_type : option string) (smooth : bool)
    (correction : option string) (isotropic : bool) (poly_poles : list nat)
    (marg : option string) : result Instance :=
  Ok (declare_parameters
        {| recon_smoothing_scale := scale;
           isotropic := isotropic;
           marg := bool_decide (marg = Some "full" ∨ marg = Some "partial");
           poly_poles := poly_poles;
           fix_params := fix_params;
           params := [];
           parent := None |}).

(** The three [self.set_default(..., 0.0)] calls of one pole. *)
Definition default_pole (self : Instance) (pole : nat) : result Instance :=
  ps ← set_default ("a{" +:+ str pole +:+ "}_1") 0 (params self);
  ps ← set_default ("a{" +:+ str pole +:+ "}_2") 0 ps;
  ps ← set_default ("a{" +:+ str pole +:+ "}_3") 0 ps;
  Ok (with_params self ps).

(** Lines 14-57: [def __init__(self, name=..., fix_params=..., ...,
    marg=None)] *)
Definition init (args : InitArgs) : result Instance :=
  let scale := None in
  let poles := if arg_isotropic args then [0%nat] else arg_poly_poles args in
  let fixed :=
    match arg_marg args with
    | Some _ => (arg_fix_params args ++ (poles ≫= poly_names))%list
    | None => arg_fix_params args
    end in
  self ← CorrelationFunctionFit_init scale (arg_name args) fixed
           (arg_smooth_type args) (arg_smooth args) (arg_correction args)
           (arg_isotropic args) poles (arg_marg args);
  m ← PowerSeo2016_init fixed (arg_smooth_type args) (arg_recon args)
        (arg_smooth args) (arg_correction args) (arg_isotropic args) (arg_marg args);
  let self := with_parent self m in
  if marg self then foldM default_pole self (poly_poles self) else Ok self.
End Class.

End CorrSeo2016.

(** ** Properties of grids and arrays *)

Module arrays.
Local Open Scope R_scope.

(** A wavenumber grid whose entries do not decrease with the index. *)
Definition increasing (ks : list R) : Prop :=
  ∀ j1 j2 k1 k2, (j1 ≤ j2)%nat → ks !! j1 = Some k1 → ks !! j2 = Some k2 → k1 <= k2.

Definition nonneg (ks : list R) : Prop := Forall (λ k, 0 <= k) ks.

(** A 2-D array indexed [(mu, k)] whose entries do not increase along the
    [k] axis, in every row. *)
Definition decreasing_in_k (D : list (list R)) : Prop :=
  ∀ i j1 j2 x1 x2, (j1 ≤ j2)%nat →
    get2 D i j1 = Some x1 → get2 D i j2 = Some x2 → x2 <= x1.

(** Entry by entry, the combined array is the product of the two powers. *)
Definition product_of_powers (par perp D : list (list R)) (pp pq : R) : Prop :=
  length D = length par ∧
  ∀ j i x y, get2 par j i = Some x → get2 perp j i = Some y →
    get2 D j i = Some (Rpower x pp * Rpower y pq).


(** A 2-D array with [r] rows of [c] entries. *)
Definition rect (r c : nat) (m : list (list R)) : Prop :=
  length m = r ∧ Forall (λ row, length row = c) m.

(** Every entry of a 2-D array lies in the interval [0, 1]. *)
Definition in_unit (D : list (list R)) : Prop :=
  ∀ i j x, get2 D i j = Some x → 0 <= x <= 1.

(** [A] is [D] transposed, raised entry by entry to the power [q]. *)
Definition transposed_power (D A : list (list R)) (q : R) : Prop :=
  ∀ i j x, get2 D i j = Some x → get2 A j i = Some (Rpower x q).

(** Every row of a 2-D array has [n] entries, or [n] is the length one
    that stretches over any row. *)
Definition fits (n : nat) (m : list (list R)) : Prop :=
  n = 1%nat ∨ Forall (λ row, length row = n) m.

End arrays.

(** ** The anisotropic damping methods, side by side *)

Module methods.
Import PowerDing2018.

(** The four parallel/perpendicular pairs the anisotropic branch combines,
    at one [growth] and [om]. *)
Definition aniso_damping_pairs (self : PowerSpectrumFit) (growth om : R)
    : list ((option string → result (list (list R)))
            * (option string → result (list (list R)))) :=
  [ (get_damping_aniso_par self growth om, get_damping_aniso_perp self om);
    (get_damping_aniso_dd_par self growth om, get_damping_aniso_dd_perp self om);
    (get_damping_aniso_sd_par self growth om, get_damping_aniso_sd_perp self om);
    (get_damping_aniso_ss_par self om, get_damping_aniso_ss_perp self om) ].

(** The eight methods that take a [data_name]. *)
Definition aniso_damping_methods (self : PowerSpectrumFit) (growth om : R)
    : list (option string → result (list (list R))) :=
  pr ← aniso_damping_pairs self growth om; [pr.1; pr.2].

(** One pair combined as the anisotropic branch does it:
    [par(...) ** power_par * perp(...) ** power_perp]. *)
Definition combined_damping (par perp : option string → result (list (list R)))
    (data_name : option string) (power_par power_perp : R) : result ndarray :=
  a ← par data_name; b ← perp data_name; aniso_damping a b power_par power_perp.

Local Open Scope string_scope.

(** The parameters an evaluation looks up in [p] itself, in the order of
    the lookups: ["om"] for the basic components unless they are
    pregenerated, then those of the branch taken. *)
Definition read_keys (self : PowerSpectrumFit) (smooth for_corr : bool)
    : list string :=
  ((match kvals self, pksmooth self, pkratio self with
    | Some _, Some _, Some _ => []
    | _, _, _ => ["om"]
    end)
   ++
   (if isotropic self then
      (if for_corr then [] else ["alpha"]) ++ ["sigma_s"; "b"]
      ++ (if smooth then [] else ["om"; "b"; "beta"; "b_delta"])
    else
      ["epsilon"] ++ (if for_corr then [] else ["alpha"])
      ++ ["sigma_s"; "om"; "b"; "beta"]
      ++ (if smooth then [] else ["alpha"; "b_delta"])))%list.

End methods.

(** ** The propagator as the Seo/Ding prescription words it *)

Module prescription.
Local Open Scope R_scope.

(** [(kaiser^2 - bias^2) damping_dd + 2 kaiser smooth damping_sd
     + smooth^2 damping_ss] *)
Definition propagator_recon (kaiser_prefac bdelta_prefac smooth_prefac
    damping_dd damping_sd damping_ss : R) : R :=
  (kaiser_prefac ^ 2 - bdelta_prefac ^ 2) * damping_dd
  + 2 * kaiser_prefac * smooth_prefac * damping_sd
  + smooth_prefac ^ 2 * damping_ss.

(** [(kaiser^2 - bias^2) damping] *)
Definition propagator_norecon (kaiser_prefac bdelta_prefac damping : R) : R :=
  (kaiser_prefac ^ 2 - bdelta_prefac ^ 2) * damping.

End prescription.

(** ** Concrete instances used by the examples *)

Module examples.
Local Open Scope R_scope.

(** A rounding for the examples: the nearest integer to the exact real,
    ties to the even one, after scaling by [10 ^ decimals]. *)
Definition rint (x : R) : Z :=
  let n := Int_part x in
  let f := x - IZR n in
  if Rlt_dec f (1 / 2) then n
  else if Rlt_dec (1 / 2) f then (n + 1)%Z
  else if Z.even n then n else (n + 1)%Z.

Definition round (x : R) (decimals : nat) : R :=
  IZR (rint (x * 10 ^ decimals)) / 10 ^ decimals.

(** A stand-in for SciPy: the "spline" keeps its knots and evaluates to
    the ordinates it was built from, the quadrature adds the rows up. *)
Definition col_sum (m : list (list R)) : list R :=
  match m with
  | [] => []
  | row :: rows => foldl (zip_with Rplus) row rows
  end.

Definition toy_scipy : Scipy := {|
  tck := ndarray;
  splrep := λ _ y, Ok y;
  splev := λ _ t, Ok t;
  simps := λ y _, match y with
                  | Arr2 m => Ok (Arr1 (col_sum m))
                  | Arr1 v => Ok (Scalar (foldr Rplus 0 v))
                  | Scalar _ => Raise ValueError
                  end;
|}.

(** Polynomial terms that vanish: a zero shape over [ks] in the isotropic
    call, six zero rows over [k] in the anisotropic one. *)
Definition toy_add_poly (ks k : list R) (p : params) (prefac : ndarray)
    (pk : ndarray + list ndarray) : result (ndarray * list ndarray) :=
  match pk with
  | inl _ => Ok (Arr1 (zeros (length ks)), [Arr1 (zeros (length k)); Arr1 (ones (length k))])
  | inr _ => Ok (Arr2 (replicate 6 (zeros (length k))),
                 [Arr1 (zeros (length k)); Arr1 (ones (length k))])
  end.

(** An instance with two angles and two wavenumbers; every damping scale
    is 1 and the polynomial terms vanish. *)
Definition toy_model_rt (ks : list R) (iso rec : bool) (rt : string)
    (mrg : bool) (poles : list nat) : PowerSpectrumFit := {|
  isotropic := iso;
  recon := rec;
  recon_type := rt;
  marg := mrg;
  n_poly := 5;
  poly_poles := poles;
  n_data_poly := 1;
  nmu := 2;
  mu := [0; 1];
  camb := {| camb_ks := ks; camb_smoothing_kernel := [0.5; 0.25] |};
  kvals := None;
  pksmooth := None;
  pkratio := None;
  data_dict := ∅;
  get_pregen := λ _ _, Ok 1;
  compute_basic_power_spectrum := λ _, Ok ([10; 20], [1; 1]);
  deal_with_ndata := λ p _, Ok p;
  add_three_poly := toy_add_poly;
  add_five_poly := toy_add_poly;
  integrate_mu := λ a, Ok (Arr1 [1; 2], Arr1 [3; 4], Arr1 [5; 6]);
  get_kprimefac := λ _, Ok [1; 1];
  get_muprime := λ _, Ok (Arr1 [0; 1]);
|}.

(** An isotropic instance on the grid [[1; 2]] with the smoothing kernel
    [S]; with a wiggle ratio given, the basic components are
    pregenerated. *)
Definition toy_iso_with (rec : bool) (S : list R) (ratio : option (list R))
    : PowerSpectrumFit := {|
  isotropic := true;
  recon := rec;
  recon_type := if rec then "iso" else "None";
  marg := false;
  n_poly := 5;
  poly_poles := [0%nat];
  n_data_poly := 1;
  nmu := 2;
  mu := [0; 1];
  camb := {| camb_ks := [1; 2]; camb_smoothing_kernel := S |};
  kvals := Some [1; 2];
  pksmooth := Some [10; 20];
  pkratio := ratio;
  data_dict := ∅;
  get_pregen := λ _ _, Ok 1;
  compute_basic_power_spectrum := λ _, Ok ([10; 20], [1; 1]);
  deal_with_ndata := λ p _, Ok p;
  add_three_poly := toy_add_poly;
  add_five_poly := toy_add_poly;
  integrate_mu := λ a, Ok (Arr1 [1; 2], Arr1 [3; 4], Arr1 [5; 6]);
  get_kprimefac := λ _, Ok [1; 1];
  get_muprime := λ _, Ok (Arr1 [0; 1]);
|}.

(** The same with a smoothing kernel that vanishes. *)
Definition toy_unsmoothed (rec : bool) : PowerSpectrumFit :=
  toy_iso_with rec (zeros 2) None.

(** An anisotropic instance without reconstruction whose [integrate_mu]
    hands the 2-D spectrum through as each of its multipoles. *)
Definition toy_aniso : PowerSpectrumFit := {|
  isotropic := false;
  recon := false;
  recon_type := "None";
  marg := false;
  n_poly := 5;
  poly_poles := [0%nat; 2%nat];
  n_data_poly := 1;
  nmu := 2;
  mu := [0; 1];
  camb := {| camb_ks := [1; 2]; camb_smoothing_kernel := [0.5; 0.25] |};
  kvals := None;
  pksmooth := None;
  pkratio := None;
  data_dict := ∅;
  get_pregen := λ _ _, Ok 1;
  compute_basic_power_spectrum := λ _, Ok ([10; 20], [1; 1]);
  deal_with_ndata := λ p _, Ok p;
  add_three_poly := toy_add_poly;
  add_five_poly := toy_add_poly;
  integrate_mu := λ a, Ok (a, a, a);
  get_kprimefac := λ _, Ok [1; 1];
  get_muprime := λ _, Ok (Arr1 [0; 1]);
|}.

Definition toy_model_on (ks : list R) (iso rec : bool) :=
  toy_model_rt ks iso rec (if rec then "iso" else "None").

Definition toy_model := toy_model_on [1; 2].

(** A base constructor that keeps the reconstruction tag it is given, and
    a [set_marg] that changes nothing. *)
Definition toy_super_init (marg_bias : bool) (args : PowerDing2018.InitArgs)
    : result PowerSpectrumFit :=
  let rt := default "None"%string (PowerDing2018.arg_recon args) in
  Ok (toy_model_rt [1; 2] (PowerDing2018.arg_isotropic args)
        (negb (String.eqb rt "None")) rt
        (bool_decide (is_Some (PowerDing2018.arg_marg args)))
        (PowerDing2018.arg_poly_poles args)).

Definition toy_set_marg (self : PowerSpectrumFit) (fix_params : list string)
    (poly_poles : list nat) (n_poly : Z) : result PowerSpectrumFit := Ok self.

Definition toy_ding_args (rec : option string) (n : Z) : PowerDing2018.InitArgs := {|
  PowerDing2018.arg_name := "Pk Ding 2018";
  PowerDing2018.arg_fix_params := ["om"; "beta"]%string;
  PowerDing2018.arg_smooth_type := None;
  PowerDing2018.arg_recon := rec;
  PowerDing2018.arg_postprocess := None;
  PowerDing2018.arg_smooth := false;
  PowerDing2018.arg_correction := None;
  PowerDing2018.arg_isotropic := true;
  PowerDing2018.arg_poly_poles := [0; 2]%nat;
  PowerDing2018.arg_marg := None;
  PowerDing2018.arg_n_poly := n;
  PowerDing2018.arg_n_data := 1;
  PowerDing2018.arg_data_share_bias := false;
  PowerDing2018.arg_data_share_poly := false;
|}.

(** A stand-in for the parent model of [CorrSeo2016] and for what its base
    class declares. *)
Definition toy_parent_init (fix_params : list string) (smooth_type recon : option string)
    (smooth : bool) (correction : option string) (isotropic : bool)
    (marg : option string) : result unit := Ok ().

Definition toy_super_declared (self : CorrSeo2016.Instance unit) : list model.Param :=
  [{| model.p_name := "om"; model.p_label := "$\Omega_m$"; model.p_min := 0.1;
      model.p_max := 0.5; model.p_default := 0.31 |};
   {| model.p_name := "alpha"; model.p_label := "$\alpha$"; model.p_min := 0.8;
      model.p_max := 1.2; model.p_default := 1 |}].

Definition toy_corr_args (iso : bool) (poles : list nat) (mrg : option string)
    : CorrSeo2016.InitArgs := {|
  CorrSeo2016.arg_name := "Corr Seo 2016";
  CorrSeo2016.arg_fix_params := ["om"; "beta"]%string;
  CorrSeo2016.arg_smooth_type := None;
  CorrSeo2016.arg_recon := None;
  CorrSeo2016.arg_smooth := false;
  CorrSeo2016.arg_correction := None;
  CorrSeo2016.arg_isotropic := iso;
  CorrSeo2016.arg_poly_poles := poles;
  CorrSeo2016.arg_marg := mrg;
|}.

(** A provider whose data sit on its own grid, and a Bessel function that
    vanishes. *)
Definition toy_jn (n : Z) (x : R) : R := 0.

Definition toy_get_data (camb : CambGenerator) (om h0 : R)
    : result PowerDing2018.CambData :=
  Ok {| PowerDing2018.r_s := 100; PowerDing2018.data_ks := camb_ks camb;
        PowerDing2018.pk_lin := [10; 20] |}.

Definition toy_params_with (om : R) : params :=
  <["om"%string := om]> (<["alpha"%string := 1]> (<["epsilon"%string := 0]>
  (<["b"%string := 1]> (<["beta"%string := 0.5]> (<["sigma_s"%string := 5]>
  (<["b_delta"%string := 0]> ∅)))))).

Definition toy_params : params := toy_params_with 0.31.

End examples.

(** * Properties *)

(** ** The [result] monad *)

Lemma bind_Ok_inv {A B} (m : result A) (f : A → result B) b :
  m ≫= f = Ok b → ∃ a, m = Ok a ∧ f a = Ok b.
Proof. destruct m as [a|e]; [|done]. intros H. by exists a. Qed.

Lemma fmap_Ok_inv {A B} (m : result A) (f : A → B) b :
  f <$> m = Ok b → ∃ a, m = Ok a ∧ b = f a.
Proof. destruct m as [a|e]; [|done]. intros [= <-]. by exists a. Qed.

Lemma getitem_Ok {V} (d : gmap string V) key v :
  getitem d key = Ok v ↔ d !! key = Some v.
Proof.
  unfold getitem. destruct (d !! key); split; intros; simplify_eq; done.
Qed.

(** Peel the binds of a computation known to return. *)
Ltac inv_bind H :=
  repeat match type of H with
  | _ ≫= _ = Ok _ =>
      let x := fresh "x" in let Hx := fresh "Hx" in
      apply bind_Ok_inv in H as (x & Hx & H)
  | _ <$> _ = Ok _ =>
      let x := fresh "x" in let Hx := fresh "Hx" in
      apply fmap_Ok_inv in H as (x & Hx & H)
  | (let '(_, _) := ?x in _) = Ok _ => destruct x
  | Ok _ = Ok _ => injection H as H
  end.

Module np_facts.
Local Open Scope R_scope.

Lemma forM_ok {A B} (f : A → result B) (g : A → B) (l : list A) :
  (∀ x, x ∈ l → f x = Ok (g x)) → forM f l = Ok (g <$> l).
Proof.
  induction l as [|x l IH]; intros H; simpl; [done|].
  rewrite (H x) by left. simpl. rewrite IH; [done|].
  intros y Hy. apply H. by right.
Qed.

Lemma forM_fmap {A B C} (f : B → result C) (g : A → B) (l : list A) :
  forM f (g <$> l) = forM (λ x, f (g x)) l.
Proof.
  induction l as [|x l IH]; [done|].
  rewrite fmap_cons. cbn [forM]. by rewrite IH.
Qed.

Lemma zip_fmap_diag {A B C} (g : A → B) (h : A → C) (l : list A) :
  zip (g <$> l) (h <$> l) = (λ x, (g x, h x)) <$> l.
Proof.
  induction l as [|x l IH]; [done|].
  rewrite !fmap_cons. cbn [zip zip_with]. by rewrite <- IH.
Qed.

Lemma fmap_seq_nth {A B} (d : A) (f : A → B) (l : list A) :
  f <$> l = (λ i, f (nth i l d)) <$> seq 0 (length l).
Proof.
  apply list_eq. intros i. rewrite !list_lookup_fmap.
  destruct (decide (i < length l)%nat) as [Hi|Hi].
  - rewrite lookup_seq_lt by done. simpl.
    destruct (lookup_lt_is_Some_2 l i Hi) as [x Hx].
    rewrite Hx. simpl. by rewrite (nth_lookup_Some _ _ _ _ Hx).
  - rewrite lookup_seq_ge by lia. rewrite lookup_ge_None_2 by lia. done.
Qed.

Lemma get2_mat r c g i j :
  (i < r)%nat → (j < c)%nat → get2 (mat r c g) i j = Some (g i j).
Proof.
  intros Hi Hj. unfold get2, mat.
  rewrite list_lookup_fmap, lookup_seq_lt by done. simpl.
  by rewrite list_lookup_fmap, lookup_seq_lt.
Qed.

Lemma mat_ext r c g h :
  (∀ i j, (i < r)%nat → (j < c)%nat → g i j = h i j) → mat r c g = mat r c h.
Proof.
  intros H. unfold mat. apply list_fmap_ext. intros k i Hi.
  apply lookup_seq in Hi as [-> Hi]. apply list_fmap_ext. intros k' j Hj.
  apply lookup_seq in Hj as [-> Hj]. simpl. auto.
Qed.

Lemma seq_nth_id {A} (d : A) (l : list A) :
  l = (λ i, nth i l d) <$> seq 0 (length l).
Proof.
  etrans; [symmetry; apply list_fmap_id|]. apply (fmap_seq_nth d).
Qed.

Lemma outer_mat a b :
  outer a b = mat (length a) (length b) (λ i j, nth i a 0 * nth j b 0).
Proof.
  unfold outer, mat. rewrite (fmap_seq_nth 0 _ a).
  apply list_fmap_ext. intros _ i _. apply (fmap_seq_nth 0).
Qed.

Lemma tile_mat v n : tile v n = mat n (length v) (λ _ j, nth j v 0).
Proof.
  unfold tile, mat. apply list_eq. intros i.
  rewrite list_lookup_fmap.
  destruct (decide (i < n)%nat) as [Hi|Hi].
  - rewrite lookup_replicate_2, lookup_seq_lt by done. simpl.
    f_equal. rewrite <- (fmap_seq_nth 0 (λ x, x) v). by rewrite list_fmap_id.
  - rewrite lookup_seq_ge by lia. apply lookup_replicate_None. lia.
Qed.

Lemma transpose_tile v n :
  transpose (length v) (tile v n) = mat (length v) n (λ i _, nth i v 0).
Proof.
  unfold transpose, tile, mat. apply list_fmap_ext. intros i x Hi.
  apply lookup_seq in Hi as [-> Hi]. simpl.
  destruct (lookup_lt_is_Some_2 v i Hi) as [x Hx].
  rewrite (nth_lookup_Some _ _ _ _ Hx).
  clear Hi. induction n as [|n IH]; [done|].
  cbn [replicate omap list_omap]. rewrite Hx, IH.
  cbn [seq]. rewrite fmap_cons. f_equal.
  by rewrite <- fmap_S_seq, <- list_fmap_compose.
Qed.

Lemma map_mat f r c g :
  (λ row : list R, f <$> row) <$> mat r c g = mat r c (λ i j, f (g i j)).
Proof.
  unfold mat. rewrite <- list_fmap_compose. apply list_fmap_ext. intros _ i _.
  simpl. by rewrite <- list_fmap_compose.
Qed.

Lemma zip_bcast_pure_seq (f : R → R → R) (g h : nat → R) (l : list nat) :
  zip_bcast (λ x y, Ok (f x y)) (g <$> l) (h <$> l)
  = Ok ((λ j, f (g j) (h j)) <$> l).
Proof.
  unfold zip_bcast. rewrite decide_True by (by rewrite !length_fmap).
  rewrite zip_fmap_diag, forM_fmap. by apply forM_ok.
Qed.

Lemma bcast_rows_mat f r c g h :
  bcast_rows f (mat r c g) (mat r c h) = Ok (mat r c (λ i j, f (g i j) (h i j))).
Proof.
  unfold bcast_rows, mat, zip_bcast at 1.
  rewrite decide_True by (by rewrite !length_fmap).
  rewrite zip_fmap_diag, forM_fmap. apply forM_ok. intros i _. simpl.
  apply zip_bcast_pure_seq.
Qed.

Lemma binop_mat f r c g h :
  binop f (Arr2 (mat r c g)) (Arr2 (mat r c h))
  = Ok (Arr2 (mat r c (λ i j, f (g i j) (h i j)))).
Proof. simpl. by rewrite bcast_rows_mat. Qed.

Lemma outer_fmap_mat (f g : R → R) a b :
  outer (f <$> a) (g <$> b)
  = mat (length a) (length b) (λ i j, f (nth i a 0) * g (nth j b 0)).
Proof.
  unfold outer, mat. rewrite <- list_fmap_compose, (fmap_seq_nth 0 _ a).
  apply list_fmap_ext. intros _ i _. simpl.
  rewrite <- list_fmap_compose. apply (fmap_seq_nth 0).
Qed.

Lemma tile_fmap_mat (f : R → R) v n :
  tile (f <$> v) n = mat n (length v) (λ _ j, f (nth j v 0)).
Proof.
  rewrite tile_mat, length_fmap. apply mat_ext. intros _ j _ Hj.
  destruct (lookup_lt_is_Some_2 v j Hj) as [x Hx].
  rewrite (nth_lookup_Some _ _ _ _ Hx).
  apply nth_lookup_Some. by rewrite list_lookup_fmap, Hx.
Qed.

Lemma transpose_tile_fmap (f : R → R) v n :
  transpose (length v) (tile (f <$> v) n) = mat (length v) n (λ i _, f (nth i v 0)).
Proof.
  rewrite <- (length_fmap f v) at 1. rewrite transpose_tile, length_fmap.
  apply mat_ext. intros i _ Hi _.
  destruct (lookup_lt_is_Some_2 v i Hi) as [x Hx].
  rewrite (nth_lookup_Some _ _ _ _ Hx).
  apply nth_lookup_Some. by rewrite list_lookup_fmap, Hx.
Qed.

Lemma length_mat r c g : length (mat r c g) = r.
Proof. unfold mat. by rewrite length_fmap, length_seq. Qed.

Lemma mat_row_length r c g row : row ∈ mat r c g → length row = c.
Proof.
  unfold mat. intros (i & -> & _)%list_elem_of_fmap.
  by rewrite length_fmap, length_seq.
Qed.

Lemma get2_mat_inv r c g i j x :
  get2 (mat r c g) i j = Some x → (i < r)%nat ∧ (j < c)%nat ∧ x = g i j.
Proof.
  unfold get2, mat. rewrite list_lookup_fmap.
  destruct (seq 0 r !! i) as [i'|] eqn:Hi; [|done]. simpl.
  apply lookup_seq in Hi as [-> Hi]. rewrite list_lookup_fmap.
  destruct (seq 0 c !! j) as [j'|] eqn:Hj; [|done]. simpl.
  apply lookup_seq in Hj as [-> Hj]. intros [= <-]. done.
Qed.

Lemma mat_rect r c g : arrays.rect r c (mat r c g).
Proof.
  split; [apply length_mat|]. apply Forall_forall. intros row. apply mat_row_length.
Qed.

Lemma rect_mat r c m :
  arrays.rect r c m → m = mat r c (λ i j, nth j (nth i m []) 0).
Proof.
  intros [Hr Hc]. unfold mat. subst r.
  etrans; [apply (seq_nth_id [] m)|].
  apply list_fmap_ext. intros i x Hi. apply lookup_seq in Hi as [-> Hi]. simpl.
  destruct (lookup_lt_is_Some_2 m _ Hi) as [row Hrow].
  rewrite (nth_lookup_Some _ _ _ _ Hrow).
  rewrite <- (Forall_lookup_1 _ _ _ _ Hc Hrow).
  apply (seq_nth_id 0).
Qed.

Lemma get2_nth m i j x : get2 m i j = Some x → nth j (nth i m []) 0 = x.
Proof.
  unfold get2. destruct (m !! i) as [row|] eqn:Hrow; [|done]. simpl.
  intros Hj. rewrite (nth_lookup_Some _ _ _ _ Hrow). by apply nth_lookup_Some.
Qed.

End np_facts.

Import np_facts.

Module damping_facts.
Import PowerDing2018.
Local Open Scope R_scope.

Lemma exp_damp_mat r c g sigma :
  exp_damp (mat r c g) sigma = mat r c (λ i j, exp (- g i j * sigma)).
Proof. unfold exp_damp. apply (map_mat (λ x, exp (- x * sigma))). Qed.

(** The arrays [np.exp(-np.outer(f(a), g(b)) * sigma)] all damping methods
    build. *)
Lemma exp_damp_outer (f g : R → R) a b sigma :
  exp_damp (outer (f <$> a) (g <$> b)) sigma
  = mat (length a) (length b)
      (λ i j, exp (- (f (nth i a 0) * g (nth j b 0)) * sigma)).
Proof. by rewrite outer_fmap_mat, exp_damp_mat. Qed.

Lemma exp_mono x y : x <= y → exp x <= exp y.
Proof.
  intros [H| ->]; [|lra]. left. by apply exp_increasing.
Qed.

(** An exponential damping array with non-negative angular weights and a
    non-negative scale falls along a non-negative increasing arrays. *)
Lemma damping_decreasing (w : nat → R) ks r sigma :
  (∀ i, 0 <= w i) → 0 <= sigma → arrays.nonneg ks → arrays.increasing ks →
  arrays.decreasing_in_k
    (mat r (length ks) (λ i j, exp (- (w i * (nth j ks 0) ^ 2) * sigma))).
Proof.
  intros Hw Hs Hnn Hinc i j1 j2 x1 x2 Hj H1 H2.
  apply get2_mat_inv in H1 as (_ & Hj1 & ->).
  apply get2_mat_inv in H2 as (_ & Hj2 & ->).
  destruct (lookup_lt_is_Some_2 ks j1 Hj1) as [k1 Hk1].
  destruct (lookup_lt_is_Some_2 ks j2 Hj2) as [k2 Hk2].
  rewrite (nth_lookup_Some _ _ _ _ Hk1), (nth_lookup_Some _ _ _ _ Hk2).
  assert (0 <= k1) as Hk1' by (eapply (Forall_lookup_1 _ _ _ _ Hnn); eauto).
  assert (k1 <= k2) as Hle by eauto.
  apply exp_mono. specialize (Hw i).
  assert (k1 ^ 2 <= k2 ^ 2) by nra.
  assert (w i * k1 ^ 2 <= w i * k2 ^ 2) by nra.
  nra.
Qed.

Section Shapes.
Variable self : PowerSpectrumFit.

Lemma get_damping_rect growth om D :
  get_damping self growth om = Ok D →
  arrays.rect (length (mu self)) (length (camb_ks (camb self))) D.
Proof.
  unfold get_damping. intros (sigma & _ & [= <-])%bind_Ok_inv.
  rewrite exp_damp_outer. apply mat_rect.
Qed.

Lemma get_damping_dd_rect growth om D :
  get_damping_dd self growth om = Ok D →
  arrays.rect (length (mu self)) (length (camb_ks (camb self))) D.
Proof.
  unfold get_damping_dd. intros (sigma & _ & [= <-])%bind_Ok_inv.
  rewrite exp_damp_outer. apply mat_rect.
Qed.

Lemma get_damping_sd_rect growth om D :
  get_damping_sd self growth om = Ok D →
  arrays.rect (length (mu self)) (length (camb_ks (camb self))) D.
Proof.
  unfold get_damping_sd. intros (sigma & _ & [= <-])%bind_Ok_inv.
  rewrite exp_damp_outer. apply mat_rect.
Qed.

Lemma get_damping_ss_rect om D :
  get_damping_ss self om = Ok D →
  arrays.rect (nmu self) (length (camb_ks (camb self))) D.
Proof.
  unfold get_damping_ss. intros (sigma & _ & [= <-])%bind_Ok_inv.
  rewrite tile_fmap_mat, exp_damp_mat. apply mat_rect.
Qed.
End Shapes.

End damping_facts.

(** Two returns of the same computation are the same value. *)
Ltac same_result :=
  repeat match goal with
  | H1 : ?m = Ok ?a, H2 : ?m = Ok ?b |- _ =>
      rewrite H1 in H2; injection H2 as H2; subst b
  end.

Module aniso_facts.
Import PowerDing2018 damping_facts.
Local Open Scope R_scope.

Lemma aniso_damping_mat r c g h pp pq :
  aniso_damping (mat r c g) (mat r c h) pp pq
  = Ok (Arr2 (mat r c (λ i j, Rpower (g i j) pp * Rpower (h i j) pq))).
Proof.
  unfold aniso_damping, power, mul. cbn [np.map].
  rewrite !map_mat. apply binop_mat.
Qed.

Lemma product_of_powers_mat r c g h pp pq :
  arrays.product_of_powers (mat r c g) (mat r c h)
    (mat r c (λ i j, Rpower (g i j) pp * Rpower (h i j) pq)) pp pq.
Proof.
  split; [by rewrite !length_mat|].
  intros j i x y (Hj & Hi & ->)%get2_mat_inv (_ & _ & ->)%get2_mat_inv.
  by apply get2_mat.
Qed.

(** What one parallel/perpendicular pair of the cached methods yields
    when both return. *)
Lemma aniso_pair (ks mus : list R) (f g f' g' : R → R) sigma sigma' pp pq :
  ∃ D,
    aniso_damping (exp_damp (outer (f <$> ks) (g <$> mus)) sigma)
                  (exp_damp (outer (f' <$> ks) (g' <$> mus)) sigma') pp pq
    = Ok (Arr2 D) ∧
    arrays.product_of_powers
      (exp_damp (outer (f <$> ks) (g <$> mus)) sigma)
      (exp_damp (outer (f' <$> ks) (g' <$> mus)) sigma') D pp pq.
Proof.
  rewrite !exp_damp_outer.
  eexists. split; [apply aniso_damping_mat | apply product_of_powers_mat].
Qed.

End aniso_facts.

Module bcast_facts.
Import PowerDing2018.
Local Open Scope R_scope.

Lemma forM_length {A B} (f : A → result B) l s :
  forM f l = Ok s → length s = length l.
Proof.
  revert s. induction l as [|x l IH]; intros s H; cbn [forM] in H.
  - by injection H as <-.
  - apply bind_Ok_inv in H as (y & Hy & H).
    apply bind_Ok_inv in H as (ys & Hys & H). injection H as <-.
    simpl. f_equal. by apply IH.
Qed.

Lemma forM_elem {A B} (f : A → result B) l s :
  forM f l = Ok s → ∀ z, z ∈ s → ∃ x, x ∈ l ∧ f x = Ok z.
Proof.
  revert s. induction l as [|x l IH]; intros s H z Hz; cbn [forM] in H.
  - injection H as <-. by apply elem_of_nil in Hz.
  - apply bind_Ok_inv in H as (y & Hy & H).
    apply bind_Ok_inv in H as (ys & Hys & H). injection H as <-.
    apply elem_of_cons in Hz as [->|Hz].
    + exists x. split; [left|done].
    + destruct (IH _ Hys z Hz) as (x' & Hx' & Hf). exists x'. split; [by right|done].
Qed.

Lemma zip_bcast_elem {A B C} (F : A → B → result C) a b s :
  zip_bcast F a b = Ok s →
  ∀ z, z ∈ s → ∃ x y, x ∈ a ∧ y ∈ b ∧ F x y = Ok z.
Proof.
  unfold zip_bcast. intros H z Hz. destruct (decide (length a = length b)).
  - destruct (forM_elem _ _ _ H z Hz) as ([x y] & Hxy & Hf).
    exists x, y. split; [by eapply elem_of_zip_l|]. split; [by eapply elem_of_zip_r|done].
  - destruct a as [|x [|x' a]], b as [|y [|y' b]]; try done;
      destruct (forM_elem _ _ _ H z Hz) as (w & Hw & Hf);
      try (by apply elem_of_nil in Hw);
      do 2 eexists; (split; [|split; [|exact Hf]]); first [exact Hw | left].
Qed.

Lemma forM_pure {A B} (g : A → B) (l : list A) :
  forM (λ x, Ok (g x)) l = Ok (g <$> l).
Proof. by apply forM_ok. Qed.

Lemma zip_bcast_pure_length_l (f : R → R → R) v w s :
  zip_bcast (λ x y, Ok (f x y)) v w = Ok s → length s = length v ∨ length v = 1%nat.
Proof.
  unfold zip_bcast. intros H. destruct (decide (length v = length w)) as [Hl|Hl].
  - left. apply forM_length in H. rewrite H, length_zip. lia.
  - destruct v as [|x [|x' v]], w as [|y [|y' w]]; try done;
      first [by right | left; by apply forM_length in H].
Qed.

Lemma zip_bcast_pure_length_r (f : R → R → R) v w s :
  zip_bcast (λ x y, Ok (f x y)) v w = Ok s → length s = length w ∨ length w = 1%nat.
Proof.
  unfold zip_bcast. intros H. destruct (decide (length v = length w)) as [Hl|Hl].
  - left. apply forM_length in H. rewrite H, length_zip. lia.
  - destruct v as [|x [|x' v]], w as [|y [|y' w]]; try done;
      first [by right | left; by apply forM_length in H].
Qed.

Lemma bcast_rows_fits_l f m m' s n :
  bcast_rows f m m' = Ok s → arrays.fits n m → arrays.fits n s.
Proof.
  intros H [->|Hm]; [by left|].
  destruct (decide (n = 1%nat)) as [->|Hn]; [by left|]. right.
  apply Forall_forall. intros z Hz.
  destruct (zip_bcast_elem _ _ _ _ H z Hz) as (x & y & Hx & _ & Hxy).
  rewrite Forall_forall in Hm. specialize (Hm x Hx).
  apply zip_bcast_pure_length_l in Hxy. lia.
Qed.

Lemma bcast_rows_fits_r f m m' s n :
  bcast_rows f m m' = Ok s → arrays.fits n m' → arrays.fits n s.
Proof.
  intros H [->|Hm]; [by left|].
  destruct (decide (n = 1%nat)) as [->|Hn]; [by left|]. right.
  apply Forall_forall. intros z Hz.
  destruct (zip_bcast_elem _ _ _ _ H z Hz) as (x & y & _ & Hy & Hxy).
  rewrite Forall_forall in Hm. specialize (Hm y Hy).
  apply zip_bcast_pure_length_r in Hxy. lia.
Qed.

Lemma fmap_mul_1 (row : list R) : (λ x, x * 1) <$> row = row.
Proof.
  induction row as [|x row IH]; [done|]. rewrite fmap_cons, IH. f_equal. ring.
Qed.

Lemma row_times_ones (row : list R) n :
  length row = n ∨ n = 1%nat →
  zip_bcast (λ x y, Ok (x * y)) row (ones n) = Ok row.
Proof.
  intros Hn. unfold zip_bcast, ones.
  destruct (decide (length row = length (replicate n 1))) as [Hl|Hl].
  - rewrite length_replicate in Hl. subst n.
    rewrite (forM_ok _ (λ xy, xy.1 * xy.2)) by done. f_equal.
    clear Hn. induction row as [|x row IH]; [done|].
    cbn [length replicate zip zip_with]. rewrite fmap_cons, IH. simpl. f_equal. ring.
  - rewrite length_replicate in Hl. destruct Hn as [Hn| ->]; [done|].
    cbn [replicate].
    destruct row as [|x [|x' row]]; [done|done|].
    rewrite forM_pure. by rewrite fmap_mul_1.
Qed.

Lemma mul_ones_fits n m :
  arrays.fits n m → mul (Arr2 m) (Arr1 (ones n)) = Ok (Arr2 m).
Proof.
  intros Hfit. unfold mul. cbn [binop]. unfold bcast_rows.
  assert (∀ row, row ∈ m → zip_bcast (λ x y, Ok (x * y)) row (ones n) = Ok row) as Hrow.
  { intros row Hrow. apply row_times_ones. destruct Hfit as [->|Hm]; [by right|].
    left. by eapply (proj1 (Forall_forall _ _) Hm). }
  unfold zip_bcast at 1.
  destruct (decide (length m = length [ones n])) as [Hl|Hl].
  - destruct m as [|row [|row' m]]; try done.
    cbn [zip zip_with forM]. simpl. rewrite Hrow by left. done.
  - destruct m as [|row [|row' m]]; [done|done|].
    rewrite (forM_ok _ (λ row, row)) by (by intros; apply Hrow).
    simpl. by rewrite list_fmap_id.
Qed.

Lemma wiggle_zeros pk_ratio n :
  length pk_ratio = n → wiggle pk_ratio (Arr1 (zeros n)) = Ok (Arr1 (ones n)).
Proof.
  intros <-. unfold wiggle, mul. cbn [binop]. unfold zip_bcast, zeros, ones.
  rewrite decide_True by (by rewrite length_replicate).
  rewrite (forM_ok _ (λ xy, xy.1 * xy.2)) by done.
  cbn [fmap result_fmap np.map]. do 2 f_equal.
  induction pk_ratio as [|x l IH]; [done|].
  cbn [length replicate zip zip_with]. rewrite !fmap_cons, IH. simpl. f_equal. ring.
Qed.

(** The isotropic smooth spectrum [b^2 pk_smooth_lin fog] has the columns
    of the grid [ks]. *)
Lemma pk_smooth_fits (v a : list R) (g h : R → R) ks X :
  mul (Arr1 v) (np.map g (Arr2 (outer a (h <$> ks)))) = Ok X →
  ∃ m, X = Arr2 m ∧ arrays.fits (length ks) m.
Proof.
  unfold mul. cbn [binop np.map]. intros (m & Hm & ->)%fmap_Ok_inv.
  exists m. split; [done|]. eapply bcast_rows_fits_r; [exact Hm|].
  right. rewrite outer_mat, map_mat, length_fmap.
  apply (proj2 (mat_rect _ _ _)).
Qed.

Lemma add_fits n m shape X :
  add (Arr2 m) shape = Ok X → arrays.fits n m →
  ∃ m', X = Arr2 m' ∧ arrays.fits n m'.
Proof.
  unfold add. intros H Hfit. destruct shape as [y|w|m2]; cbn [binop np.map] in H.
  - injection H as <-. eexists. split; [done|].
    destruct Hfit as [->|Hm]; [by left|right].
    apply Forall_fmap. eapply Forall_impl; [exact Hm|].
    intros row Hrow. simpl. by rewrite length_fmap.
  - apply fmap_Ok_inv in H as (m' & Hm' & ->). exists m'. split; [done|].
    by eapply bcast_rows_fits_l.
  - apply fmap_Ok_inv in H as (m' & Hm' & ->). exists m'. split; [done|].
    by eapply bcast_rows_fits_l.
Qed.

End bcast_facts.

Import PowerDing2018 damping_facts aniso_facts.
Local Open Scope R_scope.

Lemma growth_weight_nonneg growth m :
  -1 <= m <= 1 → 0 <= 1 + (2 + growth) * growth * m ^ 2.
Proof.
  intros Hm.
  assert (0 <= m ^ 2 * (growth + 1) ^ 2) by (apply Rmult_le_pos; apply pow2_ge_0).
  assert (m ^ 2 <= 1) by nra.
  replace (1 + (2 + growth) * growth * m ^ 2)
    with ((1 - m ^ 2) + m ^ 2 * (growth + 1) ^ 2) by ring.
  lra.
Qed.

Lemma growth_weight_sd_nonneg growth m :
  -1 <= growth → -1 <= m <= 1 → 0 <= 1 + growth * m ^ 2.
Proof.
  intros Hg Hm.
  assert (0 <= m ^ 2 * (growth + 1)) by (apply Rmult_le_pos; [apply pow2_ge_0 | lra]).
  assert (m ^ 2 <= 1) by nra.
  replace (1 + growth * m ^ 2) with ((1 - m ^ 2) + m ^ 2 * (growth + 1)) by ring.
  lra.
Qed.

Lemma nth_within (mus : list R) i :
  Forall (λ m, -1 <= m <= 1) mus → -1 <= nth i mus 0 <= 1.
Proof.
  intros Hmu. destruct (decide (i < length mus)%nat) as [Hi|Hi].
  - destruct (lookup_lt_is_Some_2 mus i Hi) as [m Hm].
    rewrite (nth_lookup_Some _ _ _ _ Hm). by eapply (Forall_lookup_1 _ _ _ _ Hmu).
  - rewrite nth_overflow by lia. lra.
Qed.

(** Evaluate a chain of element-wise operations on arrays in [mat] form. *)
Ltac mat_eval :=
  unfold np.lift2, add, sub, mul;
  cbn [mbind result_bind fmap result_fmap np.map];
  repeat (rewrite ?map_mat; rewrite binop_mat;
          cbn [mbind result_bind fmap result_fmap np.map]);
  rewrite ?map_mat.

Ltac getitems :=
  repeat match goal with
  | H : ?p !! ?key = Some ?v |- context [getitem ?p ?key] =>
      rewrite (proj2 (getitem_Ok p key v) H)
  end;
  cbn [mbind result_bind fmap result_fmap].

(** One step of a returning computation, replayed in the goal. *)
Ltac step H :=
  let x := fresh "x" in let Hx := fresh "Hx" in
  apply bind_Ok_inv in H as (x & Hx & H);
  try (rewrite Hx; cbn [mbind result_bind]).

Module smooth_facts.
Import bcast_facts.

Section Smooth.
Variable round : R → nat → R.
Variable sp : Scipy.
Variable self : PowerSpectrumFit.

Lemma compute_isotropic_smooth k p for_corr ks pk_smooth_lin pk_ratio r :
  length pk_ratio = length ks →
  compute_isotropic round sp self k p true for_corr ks pk_smooth_lin pk_ratio = Ok r →
  broadband_isotropic sp self k p for_corr ks pk_smooth_lin = Ok r.
Proof.
  intros Hlen H. unfold compute_isotropic, broadband_isotropic in *.
  cbn [iso_propagator] in H. cbv zeta in *.
  step H. step H. step H. step H.
  destruct (pk_smooth_fits _ _ _ _ _ _ Hx2) as (m & -> & Hfit).
  cbn [mbind result_bind] in H.
  apply bind_Ok_inv in H as ([poly pk1d] & Hin & H).
  match goal with |- ?inner ≫= _ = _ => assert (inner = Ok (poly, pk1d)) as -> end;
    [|exact H].
  rewrite (wiggle_zeros _ _ Hlen) in Hin. cbn [mbind result_bind] in Hin.
  destruct for_corr.
  - rewrite (mul_ones_fits _ _ Hfit) in Hin. exact Hin.
  - apply bind_Ok_inv in Hin as ([shape poly'] & Hap & Hin).
    rewrite Hap. cbn [mbind result_bind].
    apply bind_Ok_inv in Hin as (X & HX & Hin).
    rewrite HX. cbn [mbind result_bind].
    destruct (add_fits _ _ _ _ HX Hfit) as (m' & -> & Hfit').
    rewrite (mul_ones_fits _ _ Hfit') in Hin. exact Hin.
Qed.

(** What the in-place additions of the code return, the plain sums
    return too. *)
Lemma iadd_add a s a' : iadd a s = Ok a' → add a s = Ok a'.
Proof.
  unfold iadd. intros (x & Hx & H)%bind_Ok_inv. rewrite Hx.
  destruct a; [done|..]; by destruct (decide _).
Qed.

Lemma add_shape_plus_polynomial shape poles pk pk' :
  foldM (add_shape shape) pk poles = Ok pk' →
  plus_polynomial shape pk poles = Ok pk'.
Proof.
  revert pk. induction poles as [|pole poles IH]; intros pk H;
    cbn [foldM plus_polynomial] in *; [done|].
  apply bind_Ok_inv in H as (pk1 & H1 & H). unfold add_shape in H1.
  destruct (pk !! pole) as [a|]; [|done].
  apply bind_Ok_inv in H1 as (s & Hs & H1).
  apply bind_Ok_inv in H1 as (a' & Ha' & H1). injection H1 as <-.
  rewrite Hs. cbn [mbind result_bind]. rewrite (iadd_add _ _ _ Ha').
  cbn [mbind result_bind]. by apply IH.
Qed.

Lemma compute_anisotropic_smooth k p for_corr data_name ks pk_smooth_lin pk_ratio r :
  compute_anisotropic round sp self k p true for_corr data_name ks pk_smooth_lin pk_ratio
  = Ok r →
  broadband_anisotropic round sp self true k p for_corr ks pk_smooth_lin = Ok r.
Proof.
  intros H. unfold compute_anisotropic, broadband_anisotropic in *. cbv zeta in *.
  step H. step H. step H. step H. step H.
  apply bind_Ok_inv in H as ([om growth] & _ & H).
  step H. step H. step H. step H. step H.
  cbn [mbind result_bind] in H.
  apply bind_Ok_inv in H as ([[pk0 pk2] pk4] & Hint & H). rewrite Hint.
  cbn [mbind result_bind]. destruct for_corr; [exact H|].
  apply bind_Ok_inv in H as ([shape poly] & Hpoly & H). rewrite Hpoly.
  cbn [mbind result_bind]. destruct (marg self); [exact H|].
  apply bind_Ok_inv in H as (pk' & Hfold & H).
  rewrite (add_shape_plus_polynomial _ _ _ _ Hfold). exact H.
Qed.

Lemma compute_power_spectrum_smooth k p for_corr data_name r :
  (∀ ks pk_smooth_lin pk_ratio,
     basic_components self p = Ok (ks, pk_smooth_lin, pk_ratio) →
     length pk_ratio = length ks) →
  compute_power_spectrum round sp self k p true for_corr data_name = Ok r →
  broadband round sp self true k p for_corr = Ok r.
Proof.
  intros Hlen H. unfold compute_power_spectrum, broadband in *.
  apply bind_Ok_inv in H as ([[ks psl] pr] & Hbc & H). rewrite Hbc.
  cbn [mbind result_bind]. step H.
  destruct (isotropic self).
  - eapply compute_isotropic_smooth; [|exact H]. by eapply Hlen.
  - by eapply compute_anisotropic_smooth.
Qed.
End Smooth.

End smooth_facts.

Module evaluate_facts.

Lemma add_shape_other shape pk pole pk' :
  add_shape shape pk pole = Ok pk' →
  length pk' = length pk ∧ ∀ i, i ≠ pole → pk' !! i = pk !! i.
Proof.
  unfold add_shape. destruct (pk !! pole) as [a|]; [|done]. intros H.
  apply bind_Ok_inv in H as (s & _ & H).
  apply bind_Ok_inv in H as (a' & _ & H). injection H as <-.
  split; [apply length_insert|]. intros i Hi. by apply list_lookup_insert_ne.
Qed.

Lemma foldM_add_shape_other shape poles pk pk' :
  foldM (add_shape shape) pk poles = Ok pk' →
  length pk' = length pk ∧ ∀ i, i ∉ poles → pk' !! i = pk !! i.
Proof.
  revert pk. induction poles as [|pole poles IH]; intros pk H; cbn [foldM] in H.
  - injection H as <-. done.
  - apply bind_Ok_inv in H as (pk1 & H1 & H).
    apply add_shape_other in H1 as [Hlen1 Hother1].
    apply IH in H as [Hlen Hother]. split; [congruence|].
    intros i Hi. apply not_elem_of_cons in Hi as [Hne Hi].
    rewrite Hother by done. by apply Hother1.
Qed.


Section Returns.
Variable round : R → nat → R.
Variable sp : Scipy.
Variable self : PowerSpectrumFit.

(** What a returning isotropic evaluation has done. *)
Lemma compute_isotropic_inv k p smooth for_corr ks pk_smooth_lin pk_ratio
    kprime pk poly :
  compute_isotropic round sp self k p smooth for_corr ks pk_smooth_lin pk_ratio
  = Ok (kprime, pk, poly) →
  (∃ pk0, pk = [pk0]) ∧
  if for_corr then kprime = Arr1 k ∧ poly = None
  else ∃ prefac shape poly_full,
         add_poly self ks k p prefac (inl (Arr1 (zeros (length k))))
         = Ok (shape, poly_full) ∧
         poly = Some (if marg self then drop 1 poly_full else poly_full).
Proof.
  intros H. unfold compute_isotropic in H. cbv zeta in H.
  apply bind_Ok_inv in H as (kprime' & Hk & H).
  apply bind_Ok_inv in H as (sigma_s & _ & H).
  apply bind_Ok_inv in H as (b & _ & H).
  apply bind_Ok_inv in H as (pk_smooth & _ & H).
  apply bind_Ok_inv in H as (propagator & _ & H).
  apply bind_Ok_inv in H as (prefac & _ & H).
  apply bind_Ok_inv in H as ([poly' pk1d] & Hin & H).
  apply bind_Ok_inv in H as (pk0 & _ & H). injection H as <- <- <-.
  split; [by exists pk0|]. destruct for_corr.
  - injection Hk as <-.
    apply bind_Ok_inv in Hin as (w & _ & Hin).
    apply bind_Ok_inv in Hin as (y & _ & Hin).
    apply bind_Ok_inv in Hin as (s & _ & Hin). by injection Hin as <- <-.
  - apply bind_Ok_inv in Hin as ([shape poly_full] & Hpoly & Hin).
    apply bind_Ok_inv in Hin as (x & _ & Hin).
    apply bind_Ok_inv in Hin as (w & _ & Hin).
    apply bind_Ok_inv in Hin as (y & _ & Hin).
    apply bind_Ok_inv in Hin as (s & _ & Hin). injection Hin as <- <-.
    by exists prefac, shape, poly_full.
Qed.

(** What a returning anisotropic evaluation has done. *)
Lemma compute_anisotropic_inv k p smooth for_corr data_name ks pk_smooth_lin pk_ratio
    kprime pk poly :
  compute_anisotropic round sp self k p smooth for_corr data_name ks pk_smooth_lin pk_ratio
  = Ok (kprime, pk, poly) →
  ∃ pk2d pk0 pk2 pk4,
    integrate_mu self pk2d = Ok (pk0, pk2, pk4) ∧
    let base := [pk0; Arr1 (zeros (length k)); pk2; Arr1 (zeros (length k));
                 pk4; Arr1 (zeros (length k))] in
    if for_corr then kprime = Arr1 k ∧ pk = base ∧ poly = None
    else ∃ shape poly_full,
           add_poly self k k p (Arr1 (ones (length k))) (inr base)
           = Ok (shape, poly_full) ∧
           if marg self then pk = base ∧ poly = Some (drop 1 poly_full)
           else foldM (add_shape shape) base (poly_poles self) = Ok pk ∧
                poly = Some poly_full.
Proof.
  intros H. unfold compute_anisotropic in H. cbv zeta in H.
  apply bind_Ok_inv in H as (p_eps & _ & H).
  apply bind_Ok_inv in H as (kprime' & _ & H).
  apply bind_Ok_inv in H as (muprime & _ & H).
  apply bind_Ok_inv in H as (mk & _ & H).
  apply bind_Ok_inv in H as (sigma_s & _ & H).
  apply bind_Ok_inv in H as ([om growth] & _ & H).
  apply bind_Ok_inv in H as (sprime & _ & H).
  apply bind_Ok_inv in H as (beta & _ & H).
  apply bind_Ok_inv in H as (kaiser_prefac & _ & H).
  apply bind_Ok_inv in H as (b & _ & H).
  apply bind_Ok_inv in H as (pk_smooth & _ & H).
  apply bind_Ok_inv in H as (pk2d & _ & H).
  apply bind_Ok_inv in H as ([[pk0 pk2] pk4] & Hint & H).
  exists pk2d, pk0, pk2, pk4. split; [done|]. cbv zeta.
  destruct for_corr.
  - by injection H as <- <- <-.
  - apply bind_Ok_inv in H as ([shape poly_full] & Hpoly & H).
    exists shape, poly_full. split; [done|].
    destruct (marg self).
    + by injection H as <- <- <-.
    + apply bind_Ok_inv in H as (pk' & Hfold & H). by injection H as <- <- <-.
Qed.

(** A returning evaluation went through one of the two branches. *)
Lemma compute_power_spectrum_inv k p smooth for_corr data_name r :
  compute_power_spectrum round sp self k p smooth for_corr data_name = Ok r →
  ∃ ks pk_smooth_lin pk_ratio p',
    if isotropic self
    then compute_isotropic round sp self k p' smooth for_corr ks pk_smooth_lin pk_ratio = Ok r
    else compute_anisotropic round sp self k p' smooth for_corr data_name
           ks pk_smooth_lin pk_ratio = Ok r.
Proof.
  intros H. unfold compute_power_spectrum in H.
  apply bind_Ok_inv in H as ([[ks psl] pr] & _ & H).
  apply bind_Ok_inv in H as (p' & _ & H).
  exists ks, psl, pr, p'. by destruct (isotropic self).
Qed.
End Returns.

End evaluate_facts.

Module corr_facts.
Import model CorrSeo2016.

Lemma add_param_names name label lo hi d ps :
  p_name <$> add_param name label lo hi d ps = (p_name <$> ps) ++ [name].
Proof. unfold add_param. by rewrite fmap_app. Qed.

Lemma set_default_names name v ps ps' :
  set_default name v ps = Ok ps' → p_name <$> ps' = p_name <$> ps.
Proof.
  unfold set_default. destruct (decide _); [|done]. intros [= <-].
  rewrite <- list_fmap_compose. apply list_fmap_ext. intros _ q _. simpl.
  by destruct (decide _).
Qed.

Lemma set_default_zero name names ps ps' :
  set_default name 0%R ps = Ok ps' → zero_default names ps →
  zero_default (name :: names) ps'.
Proof.
  unfold set_default. destruct (decide _); [|done]. intros [= <-] Hz q' Hq' Hn.
  apply list_elem_of_fmap in Hq' as (q & -> & Hq).
  destruct (decide (p_name q = name)) as [Heq|Hne]; [done|].
  apply Hz; [done|]. apply elem_of_cons in Hn as [Hn|Hn]; [done|done].
Qed.

Section Class.
Context {PowerSeo2016 : Type}.

Lemma declare_pole_names pole ps :
  p_name <$> declare_pole pole ps = (p_name <$> ps) ++ poly_names pole.
Proof.
  unfold declare_pole, poly_names. rewrite !add_param_names.
  by rewrite <- !app_assoc.
Qed.

Lemma declare_poles_names poles ps :
  p_name <$> foldl (λ ps pole, declare_pole pole ps) ps poles
  = (p_name <$> ps) ++ (poles ≫= poly_names).
Proof.
  revert ps. induction poles as [|pole poles IH]; intros ps.
  - by rewrite app_nil_r.
  - cbn [foldl]. rewrite IH, declare_pole_names, bind_cons.
    by rewrite <- app_assoc.
Qed.

(** The names [declare_parameters] leaves declared: those of the base
    class, then the bias, RSD and Fingers-of-God parameters, then three
    polynomial amplitudes per pole. *)
Lemma declare_parameters_names (super_declared : Instance PowerSeo2016 → list Param)
    (self : Instance PowerSeo2016) :
  p_name <$> params _ (declare_parameters _ super_declared self)
  = (p_name <$> (params _ self ++ super_declared self))
    ++ ["b"; "beta"; "sigma_s"]%string ++ (poly_poles _ self ≫= poly_names).
Proof.
  unfold declare_parameters. cbn [params with_params].
  rewrite declare_poles_names, !add_param_names.
  by rewrite <- !app_assoc.
Qed.

Lemma default_pole_spec (self self' : Instance PowerSeo2016) pole names :
  default_pole _ self pole = Ok self' →
  poly_poles _ self' = poly_poles _ self ∧
  fix_params _ self' = fix_params _ self ∧
  p_name <$> params _ self' = p_name <$> params _ self ∧
  (zero_default names (params _ self) →
   zero_default (poly_names pole ++ names) (params _ self')).
Proof.
  unfold default_pole. intros H.
  apply bind_Ok_inv in H as (ps1 & H1 & H).
  apply bind_Ok_inv in H as (ps2 & H2 & H).
  apply bind_Ok_inv in H as (ps3 & H3 & H). injection H as <-.
  cbn [poly_poles fix_params params with_params]. split; [done|]. split; [done|].
  split.
  - rewrite (set_default_names _ _ _ _ H3), (set_default_names _ _ _ _ H2).
    apply (set_default_names _ _ _ _ H1).
  - intros Hz. unfold poly_names. cbn [app].
    intros q Hq Hn.
    apply (set_default_zero _ _ _ _ H3
             (set_default_zero _ _ _ _ H2 (set_default_zero _ _ _ _ H1 Hz))); [done|].
    rewrite !elem_of_cons in Hn. rewrite !elem_of_cons. tauto.
Qed.

Lemma foldM_default_pole_spec poles (self self' : Instance PowerSeo2016) names :
  foldM (default_pole _) self poles = Ok self' →
  poly_poles _ self' = poly_poles _ self ∧
  fix_params _ self' = fix_params _ self ∧
  p_name <$> params _ self' = p_name <$> params _ self ∧
  (zero_default names (params _ self) →
   ∀ q, q ∈ params _ self' → p_name q ∈ (poles ≫= poly_names) ++ names →
        p_default q = 0%R).
Proof.
  revert self names. induction poles as [|pole poles IH]; intros self names H;
    cbn [foldM] in H.
  - injection H as <-. split_and!; try done.
  - apply bind_Ok_inv in H as (self1 & H1 & H).
    destruct (default_pole_spec _ _ _ names H1) as (Hp1 & Hf1 & Hn1 & Hz1).
    destruct (IH _ (poly_names pole ++ names) H) as (Hp & Hf & Hn & Hz).
    split; [congruence|]. split; [congruence|]. split; [congruence|].
    intros Hz0 q Hq Hin. apply Hz; [by apply Hz1|done|].
    rewrite bind_cons in Hin. rewrite !elem_of_app in Hin. rewrite !elem_of_app.
    tauto.
Qed.
End Class.

End corr_facts.

Module lru_facts.

Section Cache.
Context {K V : Type} `{EqDecision K}.
Variable maxsize : nat.
Variable f : K → result V.

Lemma find_elem key (c : list (K * V)) v :
  lru.find key c = Some v → (key, v) ∈ c.
Proof.
  induction c as [|[k' v'] c IH]; cbn [lru.find]; [done|].
  destruct (decide _) as [Heq|Hne]; simpl in *.
  - intros [= <-]. subst. left.
  - intros H. right. by apply IH.
Qed.

(** A call returns what the wrapped function returns and keeps every
    stored value equal to the function's value at its key. *)
Lemma call_transparent key (c : list (K * V)) r c' :
  lru.coherent f c → lru.call maxsize f key c = (r, c') →
  r = f key ∧ lru.coherent f c'.
Proof.
  unfold lru.call, lru.coherent. intros Hc H.
  destruct (lru.find key c) as [v|] eqn:Hfind.
  - injection H as <- <-. apply find_elem in Hfind.
    pose proof (proj1 (Forall_forall _ _) Hc _ Hfind) as Hv. simpl in Hv.
    split; [done|]. constructor; [done|].
    apply Forall_forall. intros x [_ Hx]%list_elem_of_filter.
    by apply (proj1 (Forall_forall _ _) Hc).
  - destruct (f key) as [v|e] eqn:Hf; injection H as <- <-; (split; [done|]).
    + apply Forall_take. by constructor.
    + done.
Qed.

Lemma call_hit key (c : list (K * V)) v :
  lru.find key c = Some v →
  lru.call maxsize f key c = (Ok v, (key, v) :: lru.remove key c).
Proof. unfold lru.call. by intros ->. Qed.

End Cache.

End lru_facts.

Module lru_wf.
Import lru_facts.
Local Open Scope nat_scope.

Lemma remove_dups_length {A} `{EqDecision A} (l : list A) :
  length (remove_dups l) ≤ length l.
Proof.
  apply submseteq_length, NoDup_submseteq; [apply NoDup_remove_dups|].
  intros x. by rewrite elem_of_remove_dups.
Qed.

Section Cache.
Context {K V : Type} `{EqDecision K}.
Variable maxsize : nat.
Variable f : K → result V.

Lemma find_remove_length key (c : list (K * V)) v :
  lru.find key c = Some v → length (lru.remove key c) < length c.
Proof.
  intros Hf%find_elem. unfold lru.remove.
  apply (length_filter_lt _ _ (key, v)); [done|]. simpl. by intros Hn.
Qed.

Lemma find_None_keys key (c : list (K * V)) :
  lru.find key c = None → key ∉ c.*1.
Proof.
  induction c as [|[k' v'] c IH]; cbn [lru.find]; [intros _; apply not_elem_of_nil|].
  destruct (decide _) as [Heq|Hne]; [done|]. simpl in *.
  intros Hf. apply not_elem_of_cons. split; [congruence|by apply IH].
Qed.

Lemma remove_keys key (c : list (K * V)) :
  (lru.remove key c).*1 = filter (λ k, k ≠ key) c.*1.
Proof.
  induction c as [|[k' v'] c IH]; [done|].
  unfold lru.remove in *. rewrite fmap_cons, !filter_cons. simpl.
  destruct (decide (k' ≠ key)); [rewrite fmap_cons|]; by rewrite IH.
Qed.

Lemma remove_absent key (c : list (K * V)) :
  key ∉ c.*1 → lru.remove key c = c.
Proof.
  induction c as [|[k' v'] c IH]; [done|].
  rewrite fmap_cons. intros [Hne Hc]%not_elem_of_cons. simpl in Hne.
  unfold lru.remove in *. rewrite filter_cons. simpl.
  destruct (decide (k' ≠ key)) as [_|Hn]; [by rewrite IH|].
  exfalso. apply Hn. congruence.
Qed.

(** One call returns what [f] returns and keeps the cache well formed. *)
Lemma call_wf key (c : list (K * V)) r c' :
  lru.wf maxsize f c → lru.call maxsize f key c = (r, c') →
  r = f key ∧ lru.wf maxsize f c'.
Proof.
  intros (Hc & Hlen & Hnd) Hcall.
  destruct (call_transparent maxsize f key c r c' Hc Hcall) as [Hr Hc'].
  split; [done|]. split; [done|].
  unfold lru.call in Hcall. destruct (lru.find key c) as [v|] eqn:Hfind.
  - injection Hcall as _ <-. split.
    + simpl. pose proof (find_remove_length _ _ _ Hfind). lia.
    + rewrite fmap_cons, remove_keys. simpl. apply NoDup_cons. split.
      * intros [Hk _]%list_elem_of_filter. by apply Hk.
      * by apply NoDup_filter.
  - destruct (f key) as [v|e]; injection Hcall as _ <-; [|done]. split.
    + rewrite length_take. lia.
    + rewrite fmap_take. eapply sublist_NoDup; [|apply sublist_take].
      rewrite fmap_cons. simpl. apply NoDup_cons. split; [|done].
      by apply find_None_keys.
Qed.

(** A call that returned leaves its entry in front of the others. *)
Lemma call_front key (c : list (K * V)) v c' :
  0 < maxsize → lru.call maxsize f key c = (Ok v, c') →
  ∃ rest, c' = (key, v) :: rest ∧ key ∉ rest.*1.
Proof.
  intros Hpos Hcall. unfold lru.call in Hcall.
  destruct (lru.find key c) as [v'|] eqn:Hfind.
  - injection Hcall as <- <-. eexists. split; [done|].
    rewrite remove_keys. intros [Hk _]%list_elem_of_filter. by apply Hk.
  - destruct (f key) as [v'|e]; [|done]. injection Hcall as <- <-.
    destruct maxsize as [|n]; [lia|]. cbn [take]. eexists. split; [done|].
    rewrite fmap_take. intros (i & Hin & _)%elem_of_take.
    apply (find_None_keys _ _ Hfind). by eapply list_elem_of_lookup_2.
Qed.

(** A call whose entry is in front is a hit that leaves the cache as it
    is. *)
Lemma front_hit key v (rest : list (K * V)) :
  key ∉ rest.*1 →
  lru.call maxsize f key ((key, v) :: rest) = (Ok v, (key, v) :: rest).
Proof.
  intros Hk. unfold lru.call. cbn [lru.find]. simpl.
  rewrite decide_True by done. do 2 f_equal.
  unfold lru.remove. rewrite filter_cons. simpl.
  destruct (decide (key ≠ key)) as [Hn|_]; [done|].
  by apply remove_absent.
Qed.
End Cache.

End lru_wf.

Module cache_facts.
Import lru_facts lru_wf.

Lemma bind_run {A B} (m : CacheM A) (f : A → CacheM B) c :
  (m ≫= f) c = match m c with
               | (Ok a, c') => f a c'
               | (Raise e, c') => (Raise e, c')
               end.
Proof. done. Qed.

Lemma bind_inv {A B} (m : CacheM A) (f : A → CacheM B) c b c' :
  (m ≫= f) c = (Ok b, c') → ∃ a c1, m c = (Ok a, c1) ∧ f a c1 = (Ok b, c').
Proof.
  rewrite bind_run. destruct (m c) as [[a|e] c1]; [|done]. intros H. by exists a, c1.
Qed.

Section Cached.
Variable round : R → nat → R.
Variable sp : Scipy.
Variable self : PowerSpectrumFit.

Lemma caches_wf_empty : caches_wf self ∅.
Proof.
  intros name f _. rewrite lookup_empty. simpl.
  split; [constructor|]. split; [simpl; lia|constructor].
Qed.

Lemma cached_methods_names : NoDup (cached_methods self).*1.
Proof. apply (bool_decide_unpack _). by vm_compute. Qed.

Lemma cached_method_unique name f g :
  (name, f) ∈ cached_methods self → (name, g) ∈ cached_methods self → f = g.
Proof.
  pose proof cached_methods_names as Hnd. revert Hnd.
  generalize (cached_methods self). intros l. induction l as [|[n h] l IH]; intros Hnd.
  - by intros ?%elem_of_nil.
  - rewrite fmap_cons in Hnd. apply NoDup_cons in Hnd as [Hn Hnd]. simpl in Hn.
    intros [Hf|Hf]%elem_of_cons [Hg|Hg]%elem_of_cons.
    + congruence.
    + injection Hf as -> ->. exfalso. apply Hn.
      apply list_elem_of_fmap. by exists (n, g).
    + injection Hg as -> ->. exfalso. apply Hn.
      apply list_elem_of_fmap. by exists (n, f).
    + by apply IH.
Qed.

Lemma caches_wf_insert c name f cache :
  caches_wf self c → (name, f) ∈ cached_methods self → lru.wf 4 f cache →
  caches_wf self (<[name := cache]> c).
Proof.
  intros Hwf Hin Hc name' g Hg.
  destruct (decide (name' = name)) as [->|Hne].
  - rewrite lookup_insert_eq. simpl. by rewrite (cached_method_unique name g f).
  - rewrite lookup_insert_ne by done. by apply Hwf.
Qed.

(** *** The evaluation over the caches returns what the evaluation returns *)

Lemma returns_lift {A} (r : result A) : returns_as self (lift r) r.
Proof. intros c Hwf. by exists c. Qed.

Lemma returns_ret {A} (a : A) : returns_as self (mret a) (Ok a).
Proof. intros c Hwf. by exists c. Qed.

Lemma returns_bind {A B} (m : CacheM A) (f : A → CacheM B) r (g : A → result B) :
  returns_as self m r → (∀ a, returns_as self (f a) (g a)) →
  returns_as self (m ≫= f) (r ≫= g).
Proof.
  intros Hm Hf c Hwf. rewrite bind_run.
  destruct (Hm c Hwf) as (c1 & -> & Hwf1).
  destruct r as [a|e]; [by apply Hf|]. by exists c1.
Qed.

Lemma returns_cached name f key :
  (name, f) ∈ cached_methods self → returns_as self (cached name f key) (f key).
Proof.
  intros Hin c Hwf. unfold cached.
  destruct (lru.call 4 f key (default [] (c !! name))) as [r cache] eqn:Hcall.
  destruct (call_wf 4 f key _ r cache (Hwf name f Hin) Hcall) as [-> Hwf'].
  destruct (f key) as [v|e]; [|by exists c].
  eexists. split; [done|]. by eapply caches_wf_insert.
Qed.

Ltac method_in :=
  unfold cached_methods;
  repeat first [apply list_elem_of_here | apply list_elem_of_further].

Ltac returns_step :=
  lazymatch goal with
  | |- returns_as _ (lift _) _ => apply returns_lift
  | |- returns_as _ (cached _ _ _) _ => apply returns_cached; method_in
  | |- returns_as _ (_ ≫= _) _ => apply returns_bind; [|intros ?]
  end.

Lemma cached_iso_propagator_returns p ks smooth :
  returns_as self (cached_iso_propagator round self p ks smooth)
    (iso_propagator round self p ks smooth).
Proof.
  unfold cached_iso_propagator, iso_propagator.
  destruct smooth; [apply returns_ret|].
  apply returns_bind; [apply returns_lift|]. intros [om growth].
  unfold cached_get_damping_dd, cached_get_damping_sd, cached_get_damping_ss,
    cached_get_damping.
  destruct (recon self); repeat returns_step.
Qed.

Lemma cached_compute_isotropic_returns k p smooth for_corr ks psl pr :
  returns_as self (cached_compute_isotropic round sp self k p smooth for_corr ks psl pr)
    (compute_isotropic round sp self k p smooth for_corr ks psl pr).
Proof.
  unfold cached_compute_isotropic, compute_isotropic. cbv zeta.
  do 4 (apply returns_bind; [apply returns_lift|intros ?]).
  apply returns_bind; [apply cached_iso_propagator_returns|intros ?].
  apply returns_lift.
Qed.

Lemma cached_aniso_propagator_returns p data_name epsilon om growth kprime sprime K :
  returns_as self
    (cached_aniso_propagator self p data_name epsilon om growth kprime sprime K)
    (aniso_propagator self p data_name epsilon om growth kprime sprime K).
Proof.
  unfold cached_aniso_propagator, aniso_propagator. cbv zeta.
  do 4 (apply returns_bind; [apply returns_lift|intros ?]).
  unfold cached_get_damping_aniso_par, cached_get_damping_aniso_perp,
    cached_get_damping_aniso_dd_par, cached_get_damping_aniso_dd_perp,
    cached_get_damping_aniso_sd_par, cached_get_damping_aniso_sd_perp,
    cached_get_damping_aniso_ss_par, cached_get_damping_aniso_ss_perp.
  destruct (recon self); repeat returns_step.
Qed.

Lemma cached_compute_anisotropic_returns k p smooth for_corr data_name ks psl pr :
  returns_as self
    (cached_compute_anisotropic round sp self k p smooth for_corr data_name ks psl pr)
    (compute_anisotropic round sp self k p smooth for_corr data_name ks psl pr).
Proof.
  unfold cached_compute_anisotropic, compute_anisotropic. cbv zeta.
  do 5 (apply returns_bind; [apply returns_lift|intros ?]).
  apply returns_bind; [apply returns_lift|intros [om growth]].
  do 5 (apply returns_bind; [apply returns_lift|intros ?]).
  apply returns_bind; [|intros ?; apply returns_lift].
  destruct smooth; [apply returns_ret|].
  apply returns_bind; [apply cached_aniso_propagator_returns|intros ?].
  apply returns_lift.
Qed.

Lemma cached_compute_power_spectrum_returns k p smooth for_corr data_name :
  returns_as self
    (cached_compute_power_spectrum round sp self k p smooth for_corr data_name)
    (compute_power_spectrum round sp self k p smooth for_corr data_name).
Proof.
  unfold cached_compute_power_spectrum, compute_power_spectrum.
  apply returns_bind; [apply returns_lift|intros [[ks psl] pr]].
  apply returns_bind; [apply returns_lift|intros p'].
  destruct (isotropic self).
  - apply cached_compute_isotropic_returns.
  - apply cached_compute_anisotropic_returns.
Qed.

(** *** What an evaluation leaves in the caches *)

Lemma stores_lift {A} (r : result A) : stores self (lift r) [].
Proof.
  intros c a c' Hwf [= -> ->]. split; [done|]. split; [|done].
  by intros name key ?%elem_of_nil.
Qed.

Lemma stores_ret {A} (a : A) : stores self (mret a) [].
Proof. apply (stores_lift (Ok a)). Qed.

Lemma stores_lift_bind {A B} (r : result A) (f : A → CacheM B) calls :
  (∀ a, r = Ok a → stores self (f a) calls) → stores self (lift r ≫= f) calls.
Proof.
  intros Hf c b c' Hwf (a & c1 & [= -> ->] & H)%bind_inv. by eapply Hf.
Qed.

Lemma stores_cached_bind {B} name f key (g : list (list R) → CacheM B) calls :
  (name, f) ∈ cached_methods self → name ∉ calls.*1 →
  (∀ v, stores self (g v) calls) →
  stores self (cached name f key ≫= g) ((name, key) :: calls).
Proof.
  intros Hin Hfresh Hg c b c' Hwf (v & c1 & Hcall & H)%bind_inv.
  unfold cached in Hcall.
  destruct (lru.call 4 f key (default [] (c !! name))) as [r cache] eqn:Hlru.
  destruct r as [v'|e]; [|done]. injection Hcall as -> <-.
  destruct (call_wf 4 f key _ _ _ (Hwf name f Hin) Hlru) as [_ Hwfc].
  destruct (call_front 4 f key _ _ _ ltac:(lia) Hlru) as (rest & -> & Hrest).
  destruct (Hg v _ b c' (caches_wf_insert _ _ _ _ Hwf Hin Hwfc) H)
    as (Hwf' & Hst & Hsame).
  split; [done|]. split.
  - intros name' key' [[= -> ->]|Hin']%elem_of_cons; [|by apply Hst].
    exists v, rest. split; [|done]. by rewrite (Hsame _ Hfresh), lookup_insert_eq.
  - intros name' Hn. rewrite fmap_cons in Hn.
    apply not_elem_of_cons in Hn as [Hne Hn]. simpl in Hne.
    by rewrite (Hsame _ Hn), lookup_insert_ne.
Qed.

Lemma stores_bind_lift {A B} (m : CacheM A) (g : A → result B) calls :
  stores self m calls → stores self (m ≫= λ a, lift (g a)) calls.
Proof.
  intros Hm c b c' Hwf (a & c1 & Hc & [= _ <-])%bind_inv. by eapply Hm.
Qed.

(** *** An evaluation whose entries are stored leaves the caches alone *)

Lemma keeps_lift {A} c (r : result A) : keeps c (lift r).
Proof. done. Qed.

Lemma keeps_ret {A} c (a : A) : keeps c (mret a).
Proof. done. Qed.

Lemma keeps_bind {A B} c (m : CacheM A) (f : A → CacheM B) :
  keeps c m → (∀ a, keeps c (f a)) → keeps c (m ≫= f).
Proof.
  unfold keeps. intros Hm Hf. rewrite bind_run.
  destruct (m c) as [[a|e] c1]; simpl in Hm; subst c1; [apply Hf|done].
Qed.

Lemma keeps_lift_bind {A B} c (r : result A) (f : A → CacheM B) :
  (∀ a, r = Ok a → keeps c (f a)) → keeps c (lift r ≫= f).
Proof.
  unfold keeps. intros Hf. rewrite bind_run. unfold lift.
  destruct r as [a|e]; [by apply Hf|done].
Qed.

Lemma keeps_cached c name f key v :
  stored c name key v → cached name f key c = (Ok v, c).
Proof.
  intros (rest & Hc & Hrest). unfold cached. rewrite Hc. simpl.
  rewrite front_hit by done. by rewrite insert_id.
Qed.

Lemma keeps_cached_bind {B} c name f key (g : list (list R) → CacheM B) :
  (∃ v, stored c name key v) → (∀ v, keeps c (g v)) →
  keeps c (cached name f key ≫= g).
Proof.
  intros [v Hst] Hg. unfold keeps. rewrite bind_run, (keeps_cached _ _ _ _ _ Hst).
  apply Hg.
Qed.

Ltac fresh_name :=
  rewrite ?fmap_cons, ?fmap_nil; cbn [fst];
  repeat (apply not_elem_of_cons; split; [discriminate|]); apply not_elem_of_nil.

Ltac unfold_cached_methods :=
  unfold cached_get_damping_dd, cached_get_damping_sd, cached_get_damping_ss,
    cached_get_damping,
    cached_get_damping_aniso_par, cached_get_damping_aniso_perp,
    cached_get_damping_aniso_dd_par, cached_get_damping_aniso_dd_perp,
    cached_get_damping_aniso_sd_par, cached_get_damping_aniso_sd_perp,
    cached_get_damping_aniso_ss_par, cached_get_damping_aniso_ss_perp.

Ltac stores_step :=
  lazymatch goal with
  | |- stores _ (lift _) _ => apply stores_lift
  | |- stores _ (lift _ ≫= _) _ => apply stores_lift_bind; intros ? _
  | |- stores _ (cached _ _ _ ≫= _) _ =>
      apply stores_cached_bind; [method_in | fresh_name | intros ?]
  end.

Lemma round_om_growth_lookup (p : params) om b beta :
  p !! "om"%string = Some om → p !! "b"%string = Some b →
  p !! "beta"%string = Some beta →
  round_om_growth round p = Ok (round om 5, round (b * beta) 5).
Proof. unfold round_om_growth, getitem. by intros -> -> ->. Qed.

Lemma cached_iso_propagator_stores p ks om growth data_name :
  isotropic self = true →
  round_om_growth round p = Ok (om, growth) →
  stores self (cached_iso_propagator round self p ks false)
    (damping_calls self om growth data_name).
Proof.
  intros Hiso Hrog. unfold cached_iso_propagator, damping_calls.
  rewrite Hiso, Hrog. apply stores_lift_bind. intros _ [= <-].
  unfold_cached_methods. destruct (recon self); repeat stores_step.
Qed.

Lemma cached_aniso_propagator_stores p data_name epsilon om growth kprime sprime K :
  isotropic self = false →
  stores self
    (cached_aniso_propagator self p data_name epsilon om growth kprime sprime K)
    (damping_calls self om growth data_name).
Proof.
  intros Hiso. unfold cached_aniso_propagator, damping_calls. rewrite Hiso.
  cbv zeta. do 4 (apply stores_lift_bind; intros ? _).
  unfold_cached_methods. destruct (recon self); repeat stores_step.
Qed.

Lemma cached_compute_power_spectrum_stores k (p : params) for_corr data_name om b beta :
  p !! "om"%string = Some om → p !! "b"%string = Some b →
  p !! "beta"%string = Some beta →
  stores self (cached_compute_power_spectrum round sp self k p false for_corr data_name)
    (damping_calls self (round om 5) (round (b * beta) 5) data_name).
Proof.
  intros Hom Hb Hbeta.
  pose proof (round_om_growth_lookup p om b beta Hom Hb Hbeta) as Hrog.
  unfold cached_compute_power_spectrum.
  apply stores_lift_bind. intros [[ks psl] pr] _.
  apply stores_lift_bind. intros p' Hp'.
  assert (p' = p) as ->.
  { unfold effective_params in Hp'. destruct for_corr; [congruence|].
    rewrite decide_True in Hp' by (by rewrite Hb). congruence. }
  destruct (isotropic self) eqn:Hiso.
  - unfold cached_compute_isotropic. cbv zeta.
    do 4 (apply stores_lift_bind; intros ? _).
    apply stores_bind_lift. by apply cached_iso_propagator_stores.
  - unfold cached_compute_anisotropic. cbv zeta.
    do 5 (apply stores_lift_bind; intros ? _).
    rewrite Hrog. apply stores_lift_bind. intros _ [= <-].
    do 5 (apply stores_lift_bind; intros ? _).
    apply stores_bind_lift. apply stores_bind_lift.
    by apply cached_aniso_propagator_stores.
Qed.

Ltac keeps_step Hst :=
  lazymatch goal with
  | |- keeps _ (lift _) => apply keeps_lift
  | |- keeps _ (lift _ ≫= _) => apply keeps_lift_bind; intros ? _
  | |- keeps _ (cached _ _ _ ≫= _) =>
      apply keeps_cached_bind;
        [apply Hst; repeat first [apply list_elem_of_here | apply list_elem_of_further]
        | intros ?]
  end.

Lemma cached_iso_propagator_keeps c p ks om growth data_name :
  isotropic self = true →
  round_om_growth round p = Ok (om, growth) →
  all_stored (damping_calls self om growth data_name) c →
  keeps c (cached_iso_propagator round self p ks false).
Proof.
  intros Hiso Hrog. unfold cached_iso_propagator, damping_calls.
  rewrite Hiso, Hrog. intros Hst. apply keeps_lift_bind. intros _ [= <-].
  unfold_cached_methods. destruct (recon self); repeat keeps_step Hst.
Qed.

Lemma cached_aniso_propagator_keeps c p data_name epsilon om growth kprime sprime K :
  isotropic self = false →
  all_stored (damping_calls self om growth data_name) c →
  keeps c (cached_aniso_propagator self p data_name epsilon om growth kprime sprime K).
Proof.
  intros Hiso. unfold cached_aniso_propagator, damping_calls. rewrite Hiso.
  intros Hst. cbv zeta. do 4 (apply keeps_lift_bind; intros ? _).
  unfold_cached_methods. destruct (recon self); repeat keeps_step Hst.
Qed.

Lemma cached_compute_power_spectrum_keeps c k (p : params) for_corr data_name
    om b beta :
  p !! "om"%string = Some om → p !! "b"%string = Some b →
  p !! "beta"%string = Some beta →
  all_stored (damping_calls self (round om 5) (round (b * beta) 5) data_name) c →
  keeps c (cached_compute_power_spectrum round sp self k p false for_corr data_name).
Proof.
  intros Hom Hb Hbeta Hst.
  pose proof (round_om_growth_lookup p om b beta Hom Hb Hbeta) as Hrog.
  unfold cached_compute_power_spectrum.
  apply keeps_lift_bind. intros [[ks psl] pr] _.
  apply keeps_lift_bind. intros p' Hp'.
  assert (p' = p) as ->.
  { unfold effective_params in Hp'. destruct for_corr; [congruence|].
    rewrite decide_True in Hp' by (by rewrite Hb). congruence. }
  destruct (isotropic self) eqn:Hiso.
  - unfold cached_compute_isotropic. cbv zeta.
    do 4 (apply keeps_lift_bind; intros ? _).
    apply keeps_bind; [|intros ?; apply keeps_lift].
    by eapply cached_iso_propagator_keeps.
  - unfold cached_compute_anisotropic. cbv zeta.
    do 5 (apply keeps_lift_bind; intros ? _).
    rewrite Hrog. apply keeps_lift_bind. intros _ [= <-].
    do 5 (apply keeps_lift_bind; intros ? _).
    apply keeps_bind; [|intros ?; apply keeps_lift].
    apply keeps_bind; [|intros ?; apply keeps_lift].
    by apply cached_aniso_propagator_keeps.
Qed.
End Cached.
End cache_facts.

Module round_facts.
Local Open Scope R_scope.

Lemma Int_part_unique (x : R) (n : Z) : IZR n <= x < IZR n + 1 → Int_part x = n.
Proof. intros [H1 H2]. symmetry. apply Int_part_spec. lra. Qed.

(** [examples.rint] of a real strictly closer than one half to an integer. *)
Lemma rint_near (x : R) (n : Z) :
  IZR n - 1 / 2 < x < IZR n + 1 / 2 → examples.rint x = n.
Proof.
  intros [Hlo Hhi]. unfold examples.rint.
  destruct (Rle_lt_dec (IZR n) x) as [Hle|Hlt].
  - rewrite (Int_part_unique x n) by lra.
    destruct (Rlt_dec _ _) as [_|Hn]; [done|]. exfalso. apply Hn. lra.
  - rewrite (Int_part_unique x (n - 1)) by (rewrite minus_IZR; lra).
    rewrite minus_IZR.
    destruct (Rlt_dec _ _) as [Hc|_]; [lra|].
    destruct (Rlt_dec _ _) as [_|Hn]; [lia|]. exfalso. apply Hn. lra.
Qed.

End round_facts.

(** An explicit short grid increases with the index. *)
Ltac grid_increasing :=
  let j1 := fresh in let j2 := fresh in
  intros j1 j2 ? ? ? ? ?;
  repeat (destruct j1 as [|j1]; simplify_eq/=);
  repeat (destruct j2 as [|j2]; simplify_eq/=); (lra || lia).

(** * The claims *)

(** C1.  In the non-smooth isotropic evaluation, once the cached damping
    arrays of the rounded [(growth, om)] are available, the propagator is
    returned as a 2-D array over the [mu] grid and [ks].  With
    reconstruction its [(mu, k)] entry is
    [(kaiser_prefac^2 - bdelta_prefac^2) damping_dd
     + 2 kaiser_prefac smooth_prefac damping_sd + smooth_prefac^2 damping_ss];
    without it the entry is [(kaiser_prefac^2 - bdelta_prefac^2) damping].
    Here [bdelta_prefac = 0.5 b_delta / b k^2], [smooth_prefac = S(k) / b],
    and [kaiser_prefac] is the Kaiser factor with the non-linear-bias term:
    [1 - smooth_prefac + beta mu^2 (1 - S(k)) + bdelta_prefac] with
    reconstruction, [1 + beta mu^2 + bdelta_prefac] without. *)
Theorem iso_propagator_prescription (round : R → nat → R)
    (self : PowerSpectrumFit) (p : params)
    (ks : list R) (p_om b beta b_delta : R) :
  p !! "om"%string = Some p_om →
  p !! "b"%string = Some b →
  p !! "beta"%string = Some beta →
  p !! "b_delta"%string = Some b_delta →
  nmu self = length (mu self) →
  length ks = length (camb_ks (camb self)) →
  let om := round p_om 5%nat in
  let growth := round (b * beta) 5%nat in
  if recon self then
    length (camb_smoothing_kernel (camb self)) = length (camb_ks (camb self)) →
    ∀ Ddd Dsd Dss,
      get_damping_dd self growth om = Ok Ddd →
      get_damping_sd self growth om = Ok Dsd →
      get_damping_ss self om = Ok Dss →
      ∃ P, iso_propagator round self p ks false = Ok (Arr2 P) ∧
        arrays.rect (length (mu self)) (length ks) P ∧
        ∀ i j mu_i k_j S_j dd sd ss,
          mu self !! i = Some mu_i → ks !! j = Some k_j →
          camb_smoothing_kernel (camb self) !! j = Some S_j →
          get2 Ddd i j = Some dd → get2 Dsd i j = Some sd → get2 Dss i j = Some ss →
          let smooth_prefac := S_j / b in
          let bdelta_prefac := 0.5 * b_delta / b * k_j ^ 2 in
          let kaiser_prefac :=
            1 - smooth_prefac + beta * mu_i ^ 2 * (1 - S_j) + bdelta_prefac in
          get2 P i j
          = Some (prescription.propagator_recon
                    kaiser_prefac bdelta_prefac smooth_prefac dd sd ss)
  else
    ∀ D,
      get_damping self growth om = Ok D →
      ∃ P, iso_propagator round self p ks false = Ok (Arr2 P) ∧
        arrays.rect (length (mu self)) (length ks) P ∧
        ∀ i j mu_i k_j d,
          mu self !! i = Some mu_i → ks !! j = Some k_j →
          get2 D i j = Some d →
          let bdelta_prefac := 0.5 * b_delta / b * k_j ^ 2 in
          let kaiser_prefac := 1 + beta * mu_i ^ 2 + bdelta_prefac in
          get2 P i j
          = Some (prescription.propagator_norecon kaiser_prefac bdelta_prefac d).
Proof.
  intros Hom Hb Hbeta Hbd Hnmu Hks om growth.
  destruct (recon self) eqn:Hrec.
  - intros HS Ddd Dsd Dss Hdd Hsd Hss.
    unfold iso_propagator, round_om_growth, iso_bdelta_prefac.
    rewrite Hrec. getitems. fold om growth. rewrite Hdd, Hsd, Hss. getitems.
    apply get_damping_dd_rect, rect_mat in Hdd.
    apply get_damping_sd_rect, rect_mat in Hsd.
    apply get_damping_ss_rect, rect_mat in Hss.
    rewrite Hdd, Hsd, Hss.
    rewrite outer_fmap_mat, !tile_fmap_mat.
    rewrite Hnmu, HS, Hks. mat_eval.
    eexists. split; [reflexivity|]. split; [rewrite <- Hks; apply mat_rect|].
    intros i j mu_i k_j S_j dd sd ss Hi Hj HSj Hdd' Hsd' Hss'.
    rewrite get2_mat by (rewrite <- ?Hks; by eapply lookup_lt_Some).
    apply get2_mat_inv in Hdd' as (_ & _ & ->).
    apply get2_mat_inv in Hsd' as (_ & _ & ->).
    apply get2_mat_inv in Hss' as (_ & _ & ->).
    rewrite (nth_lookup_Some _ _ _ _ Hi), (nth_lookup_Some _ _ _ _ Hj),
      (nth_lookup_Some _ _ _ _ HSj).
    unfold prescription.propagator_recon. f_equal; try ring.
  - intros D HD.
    unfold iso_propagator, round_om_growth, iso_bdelta_prefac.
    rewrite Hrec. getitems. fold om growth. rewrite HD. getitems.
    apply get_damping_rect, rect_mat in HD. rewrite HD.
    rewrite transpose_tile_fmap, !tile_fmap_mat.
    rewrite Hnmu, Hks. mat_eval.
    eexists. split; [reflexivity|]. split; [rewrite <- Hks; apply mat_rect|].
    intros i j mu_i k_j d Hi Hj Hd.
    rewrite get2_mat by (rewrite <- ?Hks; by eapply lookup_lt_Some).
    apply get2_mat_inv in Hd as (_ & _ & ->).
    rewrite (nth_lookup_Some _ _ _ _ Hi), (nth_lookup_Some _ _ _ _ Hj).
    unfold prescription.propagator_norecon. f_equal; try ring.
Qed.

Lemma iso_propagator_prescription_witness :
  (∃ P dd sd ss,
     iso_propagator examples.round (examples.toy_model true true false [0%nat]) examples.toy_params
       [1; 2] false = Ok (Arr2 P) ∧
     get2 P 1 1
     = Some (prescription.propagator_recon
               (1 - 0.25 / 1 + 0.5 * 1 ^ 2 * (1 - 0.25) + 0.5 * 0 / 1 * 2 ^ 2)
               (0.5 * 0 / 1 * 2 ^ 2) (0.25 / 1) dd sd ss))
  ∧
  (∃ P d,
     iso_propagator examples.round (examples.toy_model true false false [0%nat]) examples.toy_params
       [1; 2] false = Ok (Arr2 P) ∧
     get2 P 1 1
     = Some (prescription.propagator_norecon
               (1 + 0.5 * 1 ^ 2 + 0.5 * 0 / 1 * 2 ^ 2) (0.5 * 0 / 1 * 2 ^ 2) d)).
Proof.
  split.
  - pose proof (iso_propagator_prescription examples.round
                  (examples.toy_model true true false [0%nat]) examples.toy_params
                  [1; 2] 0.31 1 0.5 0 eq_refl eq_refl eq_refl eq_refl eq_refl eq_refl) as H.
    destruct (H eq_refl _ _ _ eq_refl eq_refl eq_refl) as (P & HP & _ & Hent).
    exists P. do 3 eexists. split; [exact HP|].
    apply (Hent 1%nat 1%nat 1 2 0.25); reflexivity.
  - pose proof (iso_propagator_prescription examples.round
                  (examples.toy_model true false false [0%nat]) examples.toy_params
                  [1; 2] 0.31 1 0.5 0 eq_refl eq_refl eq_refl eq_refl eq_refl eq_refl) as H.
    destruct (H _ eq_refl) as (P & HP & _ & Hent).
    exists P. eexists. split; [exact HP|].
    apply (Hent 1%nat 1%nat 1 2); reflexivity.
Defined.

(** C2 (as amended).  With [smooth=True] the propagator of the isotropic
    branch is the zero array, and whatever [compute_power_spectrum] returns
    is the pure broadband prediction: the smooth-spectrum term, which is
    the bias squared times the smooth linear spectrum times the
    Fingers-of-God factor in the isotropic branch and carries the squared
    Kaiser factor as well in the anisotropic branch, with the polynomial
    terms added unless [for_corr]; neither a damping array nor the wiggle
    ratio occurs in it.  For an isotropic model that is the prediction in
    the claim's own words.  The wiggle ratio is tabulated on the grid [ks]
    of the basic components. *)
Theorem smooth_returns_broadband (round : R → nat → R) (sp : Scipy)
    (self : PowerSpectrumFit)
    (k : list R) (p : params) (for_corr : bool) (data_name : option string)
    (r : ndarray * list ndarray * option (list ndarray)) :
  (∀ ks pk_smooth_lin pk_ratio,
     basic_components self p = Ok (ks, pk_smooth_lin, pk_ratio) →
     length pk_ratio = length ks) →
  compute_power_spectrum round sp self k p true for_corr data_name = Ok r →
  (∀ p' ks, iso_propagator round self p' ks true = Ok (Arr1 (zeros (length ks)))) ∧
  broadband round sp self true k p for_corr = Ok r ∧
  (isotropic self = true → claimed_broadband round sp self k p for_corr = Ok r).
Proof.
  intros Hlen H. split; [done|].
  pose proof (smooth_facts.compute_power_spectrum_smooth _ _ _ _ _ _ _ _ Hlen H) as Hb.
  split; [exact Hb|]. intros Hiso. revert Hb.
  unfold claimed_broadband, broadband. by rewrite Hiso.
Qed.

Lemma smooth_returns_broadband_witness :
  (∃ r,
     compute_power_spectrum examples.round examples.toy_scipy
       (examples.toy_model true true true [0%nat])
       [1; 2] examples.toy_params true false None = Ok r ∧
     claimed_broadband examples.round examples.toy_scipy
       (examples.toy_model true true true [0%nat])
       [1; 2] examples.toy_params false = Ok r) ∧
  (∃ r,
     compute_power_spectrum examples.round examples.toy_scipy examples.toy_aniso
       [1; 2] examples.toy_params true false None = Ok r ∧
     broadband examples.round examples.toy_scipy examples.toy_aniso true
       [1; 2] examples.toy_params false = Ok r).
Proof.
  split.
  - eexists. split; [reflexivity|].
    refine (proj2 (proj2 (smooth_returns_broadband examples.round examples.toy_scipy
                            (examples.toy_model true true true [0%nat])
                            [1; 2] examples.toy_params false None _ _ eq_refl))
              eq_refl).
    intros ks psl pr [= <- <- <-]. reflexivity.
  - eexists. split; [reflexivity|].
    refine (proj1 (proj2 (smooth_returns_broadband examples.round examples.toy_scipy
                            examples.toy_aniso
                            [1; 2] examples.toy_params false None _ _ eq_refl))).
    intros ks psl pr [= <- <- <-]. reflexivity.
Defined.

(** C2 as stated fails.  For an anisotropic model the spectrum returned
    with [smooth=True] carries the squared Kaiser factor: at [mu' = 1]
    with [beta = 0.5] it is [1.5^2] times the bias squared times the
    smooth linear spectrum times the Fingers-of-God factor. *)
Lemma smooth_carries_kaiser_counterexample :
  ∃ r r',
    compute_power_spectrum examples.round examples.toy_scipy examples.toy_aniso
      [1; 2] examples.toy_params true true None = Ok r ∧
    claimed_broadband examples.round examples.toy_scipy examples.toy_aniso
      [1; 2] examples.toy_params true = Ok r' ∧
    r ≠ r'.
Proof.
  eexists _, _. split; [reflexivity|]. split; [reflexivity|].
  intros H. injection H as _ H _. clear - H. lra.
Qed.
(** C3.  Whenever the damping scale [sigma] of [om] is precomputed,
    [get_damping(growth, om)] returns the 2-D array over the model's [mu]
    grid and the provider's [k] grid whose [(mu, k)] entry is
    [exp(-(1 + (2 + growth) growth mu^2) k^2 sigma)].  In the anisotropic
    path (where [epsilon] is the rounded parameter the branch works with)
    every damping array that enters the propagator is, entry by entry,
    the parallel array raised to [1 / (alpha^2 (1 + epsilon)^4)] times the
    perpendicular array raised to [(1 + epsilon)^2 / alpha^2]: the plain
    pair without reconstruction, the dd, sd and ss pairs with it; and
    the propagator returned is the one built from these arrays. *)
Theorem damping_formulas (self : PowerSpectrumFit) (growth om : R) :
  (∀ sigma, get_pregen self "sigma_nl" om = Ok sigma →
     ∃ D, get_damping self growth om = Ok D ∧
       length D = length (mu self) ∧
       ∀ i j mu_i k_j,
         mu self !! i = Some mu_i → camb_ks (camb self) !! j = Some k_j →
         get2 D i j
         = Some (exp (- (1 + (2 + growth) * growth * mu_i ^ 2) * k_j ^ 2 * sigma)))
  ∧
  (∀ p data_name epsilon kprime sprime kaiser_prefac P,
     aniso_propagator self p data_name epsilon om growth kprime sprime kaiser_prefac
     = Ok P →
     ∃ alpha b_delta b bdelta_prefac,
       p !! "alpha"%string = Some alpha ∧
       p !! "b_delta"%string = Some b_delta ∧
       p !! "b"%string = Some b ∧
       mul (np.map (λ K, 0.5 * b_delta / (b * K)) kaiser_prefac)
           (Arr2 ((λ row : list R, sq row) <$> kprime)) = Ok bdelta_prefac ∧
       let power_par := 1 / (alpha ^ 2 * (1 + epsilon) ^ 4) in
       let power_perp := (1 + epsilon) ^ 2 / alpha ^ 2 in
       if recon self then
         ∃ Ddd Dsd Dss smooth_prefac,
           (∃ par perp,
              get_damping_aniso_dd_par self growth om data_name = Ok par ∧
              get_damping_aniso_dd_perp self om data_name = Ok perp ∧
              aniso_damping par perp power_par power_perp = Ok (Arr2 Ddd) ∧
              arrays.product_of_powers par perp Ddd power_par power_perp) ∧
           (∃ par perp,
              get_damping_aniso_sd_par self growth om data_name = Ok par ∧
              get_damping_aniso_sd_perp self om data_name = Ok perp ∧
              aniso_damping par perp power_par power_perp = Ok (Arr2 Dsd) ∧
              arrays.product_of_powers par perp Dsd power_par power_perp) ∧
           (∃ par perp,
              get_damping_aniso_ss_par self om data_name = Ok par ∧
              get_damping_aniso_ss_perp self om data_name = Ok perp ∧
              aniso_damping par perp power_par power_perp = Ok (Arr2 Dss) ∧
              arrays.product_of_powers par perp Dss power_par power_perp) ∧
           div sprime (np.map (λ K, b * K) kaiser_prefac) = Ok smooth_prefac ∧
           let one_b_s := Ok (np.map (λ x, 1 + x) bdelta_prefac) ⊟ Ok smooth_prefac in
           (((λ a, np.map (λ x, x ^ 2) a) <$> one_b_s)
              ⊟ Ok (np.map (λ x, x ^ 2) bdelta_prefac))
             ⊠ Ok (Arr2 Ddd)
           ⊞ ((λ a, np.map (λ x, 2 * x) a) <$> one_b_s) ⊠ Ok smooth_prefac
             ⊠ Ok (Arr2 Dsd)
           ⊞ Ok (np.map (λ x, x ^ 2) smooth_prefac) ⊠ Ok (Arr2 Dss)
           = Ok P
       else
         ∃ D,
           (∃ par perp,
              get_damping_aniso_par self growth om data_name = Ok par ∧
              get_damping_aniso_perp self om data_name = Ok perp ∧
              aniso_damping par perp power_par power_perp = Ok (Arr2 D) ∧
              arrays.product_of_powers par perp D power_par power_perp) ∧
           mul (np.map (λ x, 1 + 2 * x) bdelta_prefac) (Arr2 D) = Ok P).
Proof.
  split.
  - intros sigma Hsig. unfold get_damping. rewrite Hsig. simpl.
    eexists. split; [done|]. rewrite exp_damp_outer. split; [apply length_mat|].
    intros i j mu_i k_j Hi Hj.
    rewrite get2_mat by (by eapply lookup_lt_Some).
    rewrite (nth_lookup_Some _ _ _ _ Hi), (nth_lookup_Some _ _ _ _ Hj).
    do 2 f_equal. ring.
  - intros p dn eps kprime sprime K P H. unfold aniso_propagator in H.
    apply bind_Ok_inv in H as (alpha & Ha%getitem_Ok & H).
    apply bind_Ok_inv in H as (b_delta & Hbdl%getitem_Ok & H).
    apply bind_Ok_inv in H as (b & Hb%getitem_Ok & H).
    apply bind_Ok_inv in H as (bd & Hbd & H).
    exists alpha, b_delta, b, bd. split_and!; [done..|]. cbv zeta in *.
    destruct (recon self).
    + apply bind_Ok_inv in H as (dd_par & Hddp & H).
      apply bind_Ok_inv in H as (dd_perp & Hddq & H).
      apply bind_Ok_inv in H as (Ddd & Hdd & H).
      apply bind_Ok_inv in H as (sd_par & Hsdp & H).
      apply bind_Ok_inv in H as (sd_perp & Hsdq & H).
      apply bind_Ok_inv in H as (Dsd & Hsd & H).
      apply bind_Ok_inv in H as (ss_par & Hssp & H).
      apply bind_Ok_inv in H as (ss_perp & Hssq & H).
      apply bind_Ok_inv in H as (Dss & Hss & H).
      apply bind_Ok_inv in H as (smooth_prefac & Hsp & H).
      assert (∃ D, Ddd = Arr2 D ∧
                arrays.product_of_powers dd_par dd_perp D
                  (1 / (alpha ^ 2 * (1 + eps) ^ 4)) ((1 + eps) ^ 2 / alpha ^ 2))
        as (D1 & -> & HP1).
      { unfold get_damping_aniso_dd_par, get_damping_aniso_dd_perp in *.
        inv_bind Hddp. inv_bind Hddq. same_result. subst.
        edestruct aniso_pair as (D & HD & HP). rewrite HD in Hdd.
        injection Hdd as <-. by exists D. }
      assert (∃ D, Dsd = Arr2 D ∧
                arrays.product_of_powers sd_par sd_perp D
                  (1 / (alpha ^ 2 * (1 + eps) ^ 4)) ((1 + eps) ^ 2 / alpha ^ 2))
        as (D2 & -> & HP2).
      { unfold get_damping_aniso_sd_par, get_damping_aniso_sd_perp in *.
        inv_bind Hsdp. inv_bind Hsdq. same_result. subst.
        edestruct aniso_pair as (D & HD & HP). rewrite HD in Hsd.
        injection Hsd as <-. by exists D. }
      assert (∃ D, Dss = Arr2 D ∧
                arrays.product_of_powers ss_par ss_perp D
                  (1 / (alpha ^ 2 * (1 + eps) ^ 4)) ((1 + eps) ^ 2 / alpha ^ 2))
        as (D3 & -> & HP3).
      { unfold get_damping_aniso_ss_par, get_damping_aniso_ss_perp in *.
        inv_bind Hssp. inv_bind Hssq. same_result. subst.
        edestruct aniso_pair as (D & HD & HP). rewrite HD in Hss.
        injection Hss as <-. by exists D. }
      exists D1, D2, D3, smooth_prefac. split_and!; [eauto 10..|exact Hsp|exact H].
    + apply bind_Ok_inv in H as (par & Hp & H).
      apply bind_Ok_inv in H as (perp & Hq & H).
      apply bind_Ok_inv in H as (D & HD & H).
      assert (∃ D', D = Arr2 D' ∧
                arrays.product_of_powers par perp D'
                  (1 / (alpha ^ 2 * (1 + eps) ^ 4)) ((1 + eps) ^ 2 / alpha ^ 2))
        as (D' & -> & HP).
      { unfold get_damping_aniso_par, get_damping_aniso_perp in *.
        inv_bind Hp. inv_bind Hq. same_result. subst.
        edestruct aniso_pair as (D' & HD' & HP). rewrite HD' in HD.
        injection HD as <-. by exists D'. }
      exists D'. split; [eauto 10 | exact H].
Qed.

Lemma damping_formulas_witness :
  (∃ D, get_damping (examples.toy_model false false false [0; 2]%nat) 0.5 0.31 = Ok D ∧
        get2 D 1 1 = Some (exp (- (1 + (2 + 0.5) * 0.5 * 1 ^ 2) * 2 ^ 2 * 1))) ∧
  (∃ P D par perp,
     aniso_propagator (examples.toy_model false false false [0; 2]%nat)
       (<["alpha"%string := 2]> (<["b"%string := 1]> (<["b_delta"%string := 0.1]> ∅)))
       None 0.5 0.31 0.5 [[1; 1]; [2; 2]] (Scalar 0) (Arr1 [1; 1.5]) = Ok P ∧
     get_damping_aniso_par (examples.toy_model false false false [0; 2]%nat)
       0.5 0.31 None = Ok par ∧
     get_damping_aniso_perp (examples.toy_model false false false [0; 2]%nat)
       0.31 None = Ok perp ∧
     arrays.product_of_powers par perp D
       (1 / (2 ^ 2 * (1 + 0.5) ^ 4)) ((1 + 0.5) ^ 2 / 2 ^ 2) ∧
     mul (np.map (λ x, 1 + 2 * x)
            (Arr2 [[0.5 * 0.1 / (1 * 1) * 1 ^ 2; 0.5 * 0.1 / (1 * 1.5) * 1 ^ 2];
                   [0.5 * 0.1 / (1 * 1) * 2 ^ 2; 0.5 * 0.1 / (1 * 1.5) * 2 ^ 2]]))
         (Arr2 D) = Ok P).
Proof.
  destruct (damping_formulas (examples.toy_model false false false [0; 2]%nat) 0.5 0.31)
    as [HA HB].
  split.
  - destruct (HA 1 eq_refl) as (D & HD & _ & Hent).
    exists D. split; [exact HD | apply Hent; reflexivity].
  - assert (∃ P, aniso_propagator (examples.toy_model false false false [0; 2]%nat)
                   (<["alpha"%string := 2]>
                      (<["b"%string := 1]> (<["b_delta"%string := 0.1]> ∅)))
                   None 0.5 0.31 0.5 [[1; 1]; [2; 2]] (Scalar 0) (Arr1 [1; 1.5])
                 = Ok P) as [P HP] by (eexists; reflexivity).
    destruct (HB _ None 0.5 [[1; 1]; [2; 2]] (Scalar 0) (Arr1 [1; 1.5]) P HP)
      as (alpha & b_delta & b & bd & Ha & Hbdl & Hb & Hbd & H).
    injection Ha as <-. injection Hbdl as <-. injection Hb as <-.
    injection Hbd as <-.
    destruct H as (D & (par & perp & Hpar & Hperp & _ & Hpow) & HPD).
    exists P, D, par, perp. split_and!; [exact HP | exact Hpar | exact Hperp |
                                         exact Hpow | exact HPD].
Defined.

(** C4 (as amended).  On a [mu] grid within [[-1, 1]] and a non-negative
    wavenumber grid that increases with the index, for every [om] whose
    precomputed damping scale is strictly positive: the arrays returned by
    [get_damping] and [get_damping_dd] for every growth value, by
    [get_damping_sd] for every growth value [>= -1], and by
    [get_damping_ss], do not increase along the [k] axis at any fixed
    [mu]. *)
Theorem damping_decreasing_in_k (self : PowerSpectrumFit) (growth om : R) :
  Forall (λ m, -1 <= m <= 1) (mu self) →
  arrays.nonneg (camb_ks (camb self)) →
  arrays.increasing (camb_ks (camb self)) →
  (∀ sigma, get_pregen self "sigma_nl" om = Ok sigma → 0 < sigma →
     ∃ D, get_damping self growth om = Ok D ∧ arrays.decreasing_in_k D) ∧
  (∀ sigma, get_pregen self "sigma_dd_nl" om = Ok sigma → 0 < sigma →
     ∃ D, get_damping_dd self growth om = Ok D ∧ arrays.decreasing_in_k D) ∧
  (∀ sigma, -1 <= growth → get_pregen self "sigma_sd_nl" om = Ok sigma → 0 < sigma →
     ∃ D, get_damping_sd self growth om = Ok D ∧ arrays.decreasing_in_k D) ∧
  (∀ sigma, get_pregen self "sigma_ss_nl" om = Ok sigma → 0 < sigma →
     ∃ D, get_damping_ss self om = Ok D ∧ arrays.decreasing_in_k D).
Proof.
  intros Hmu Hnn Hinc. split_and!.
  - intros sigma Hsig Hpos.
    unfold get_damping. rewrite Hsig. simpl. eexists; split; [done|].
    rewrite exp_damp_outer.
    apply (damping_decreasing (λ i, 1 + (2 + growth) * growth * nth i (mu self) 0 ^ 2));
      auto using growth_weight_nonneg, nth_within with real.
  - intros sigma Hsig Hpos.
    unfold get_damping_dd. rewrite Hsig. simpl. eexists; split; [done|].
    rewrite exp_damp_outer.
    apply (damping_decreasing (λ i, 1 + (2 + growth) * growth * nth i (mu self) 0 ^ 2));
      auto using growth_weight_nonneg, nth_within with real.
  - intros sigma Hg Hsig Hpos.
    unfold get_damping_sd. rewrite Hsig. simpl. eexists; split; [done|].
    rewrite exp_damp_outer.
    apply (damping_decreasing (λ i, 1 + growth * nth i (mu self) 0 ^ 2));
      auto using growth_weight_sd_nonneg, nth_within with real.
  - intros sigma Hsig Hpos.
    unfold get_damping_ss. rewrite Hsig. simpl. eexists; split; [done|].
    rewrite tile_fmap_mat, exp_damp_mat.
    rewrite (mat_ext _ _ _
      (λ i j, exp (- (1 * nth j (camb_ks (camb self)) 0 ^ 2) * sigma))).
    + apply (damping_decreasing (λ _, 1)); auto with real.
    + intros. f_equal. lra.
Qed.

Lemma damping_decreasing_in_k_witness :
  Forall (λ m, -1 <= m <= 1) [0; 1] ∧
  arrays.nonneg [1; 2] ∧
  arrays.increasing [1; 2] ∧
  (∃ D, get_damping (examples.toy_model true false false [0%nat]) (-0.5) 0.31 = Ok D
        ∧ arrays.decreasing_in_k D) ∧
  (∃ D, get_damping_sd (examples.toy_model true false false [0%nat]) (-0.5) 0.31 = Ok D
        ∧ arrays.decreasing_in_k D).
Proof.
  assert (Forall (λ m, -1 <= m <= 1) [0; 1]) as H0 by (repeat constructor; lra).
  assert (arrays.nonneg [1; 2]) as H1 by (repeat constructor; lra).
  assert (arrays.increasing [1; 2]) as H2 by grid_increasing.
  destruct (damping_decreasing_in_k
              (examples.toy_model true false false [0%nat]) (-0.5) 0.31 H0 H1 H2)
    as (Hnl & _ & Hsd & _).
  split_and!; try assumption.
  - apply (Hnl 1); [reflexivity | lra].
  - apply (Hsd 1); [lra | reflexivity | lra].
Defined.

(** C4 as stated fails.  With the growth value [-2] the shifted-density
    array rises along an increasing positive grid at [mu = 1], for a
    strictly positive damping scale; and on the increasing grid
    [-2, -1] the plain array rises for growth [0]. *)
Lemma damping_increasing_counterexample :
  (get_pregen (examples.toy_model true true false [0%nat]) "sigma_sd_nl" 0.31 = Ok 1
   ∧ 0 < 1
   ∧ arrays.increasing (camb_ks (camb (examples.toy_model true true false [0%nat])))
   ∧ ∃ D, get_damping_sd (examples.toy_model true true false [0%nat]) (-2) 0.31 = Ok D
          ∧ ¬ arrays.decreasing_in_k D)
  ∧
  (get_pregen (examples.toy_model_on [-2; -1] true false false [0%nat]) "sigma_nl" 0.31 = Ok 1
   ∧ 0 < 1
   ∧ arrays.increasing [-2; -1]
   ∧ ∃ D, get_damping (examples.toy_model_on [-2; -1] true false false [0%nat]) 0 0.31 = Ok D
          ∧ ¬ arrays.decreasing_in_k D).
Proof.
  split.
  - split; [reflexivity|]. split; [lra|]. split; [grid_increasing|].
    eexists. split; [reflexivity|]. intros H.
    eapply Rlt_not_le; [|eapply (H 1%nat 0%nat 1%nat); [lia|reflexivity..]].
    apply exp_increasing. lra.
  - split; [reflexivity|]. split; [lra|]. split; [grid_increasing|].
    eexists. split; [reflexivity|]. intros H.
    eapply Rlt_not_le; [|eapply (H 0%nat 0%nat 1%nat); [lia|reflexivity..]].
    apply exp_increasing. lra.
Qed.

(** C5.  With marginalization ("full" or "partial", so that [self.marg]
    holds) the polynomial-term array [compute_power_spectrum] returns is
    the one of [add_three_poly] / [add_five_poly] without its first (bias)
    entry.  And a [CorrSeo2016] instance built with such a mode lists every
    polynomial amplitude [a{pole}_1], [a{pole}_2], [a{pole}_3] of its poles
    among the fixed parameters, declares it, gives it the default value
    zero and leaves it out of the free parameters. *)
Theorem marg_strips_bias_and_fixes_amplitudes
    (round : R → nat → R) (sp : Scipy) (self : PowerSpectrumFit) (k : list R) (p : params)
    (smooth : bool) (data_name : option string)
    (kprime : ndarray) (pk : list ndarray) (poly : option (list ndarray))
    {PowerSeo2016 : Type}
    (PowerSeo2016_init :
       list string → option string → option string → bool → option string → bool →
       option string → result PowerSeo2016)
    (super_declared : CorrSeo2016.Instance PowerSeo2016 → list model.Param)
    (args : CorrSeo2016.InitArgs) (inst : CorrSeo2016.Instance PowerSeo2016) :
  marg self = true →
  compute_power_spectrum round sp self k p smooth false data_name = Ok (kprime, pk, poly) →
  CorrSeo2016.arg_marg args = Some "full"%string
  ∨ CorrSeo2016.arg_marg args = Some "partial"%string →
  CorrSeo2016.init _ PowerSeo2016_init super_declared args = Ok inst →
  (∃ ks p' prefac pk_arg shape poly_full,
     add_poly self ks k p' prefac pk_arg = Ok (shape, poly_full) ∧
     poly = Some (drop 1 poly_full))
  ∧
  (∀ name,
     name ∈ CorrSeo2016.poly_poles _ inst ≫= CorrSeo2016.poly_names →
     name ∈ CorrSeo2016.fix_params _ inst ∧
     (∃ q, q ∈ CorrSeo2016.params _ inst ∧ model.p_name q = name) ∧
     (∀ q, q ∈ CorrSeo2016.params _ inst → model.p_name q = name →
           model.p_default q = 0 ∧
           q ∉ model.free_params (CorrSeo2016.fix_params _ inst)
                 (CorrSeo2016.params _ inst))).
Proof.
  intros Hmarg H Hmode Hinit. split.
  - apply evaluate_facts.compute_power_spectrum_inv in H as (ks & psl & pr & p' & H).
    destruct (isotropic self).
    + apply evaluate_facts.compute_isotropic_inv in H
        as (_ & prefac & shape & poly_full & Hpoly & ->).
      rewrite Hmarg. eauto 10.
    + apply evaluate_facts.compute_anisotropic_inv in H
        as (pk2d & pk0 & pk2 & pk4 & _ & shape & poly_full & Hpoly & H).
      rewrite Hmarg in H. destruct H as [_ ->]. eauto 10.
  - unfold CorrSeo2016.init in Hinit. cbv zeta in Hinit.
    unfold CorrSeo2016.CorrelationFunctionFit_init in Hinit.
    cbn [mbind result_bind] in Hinit.
    apply bind_Ok_inv in Hinit as (m & _ & Hinit).
    rewrite (bool_decide_eq_true_2 _ Hmode) in Hinit.
    match type of Hinit with
    | context [CorrSeo2016.declare_parameters _ _ ?s0] => set (self0 := s0) in *
    end.
    pose proof (corr_facts.declare_parameters_names super_declared self0) as Hnames.
    set (self1 := CorrSeo2016.declare_parameters _ super_declared self0) in *.
    change (foldM (CorrSeo2016.default_pole _) (CorrSeo2016.with_parent _ self1 m)
              (CorrSeo2016.poly_poles _ self0) = Ok inst) in Hinit.
    apply (corr_facts.foldM_default_pole_spec _ _ _ []) in Hinit
      as (Hp & Hf & Hn & Hz).
    change (CorrSeo2016.poly_poles _ inst = CorrSeo2016.poly_poles _ self0) in Hp.
    change (CorrSeo2016.fix_params _ inst = CorrSeo2016.fix_params _ self0) in Hf.
    change (model.p_name <$> CorrSeo2016.params _ inst
            = model.p_name <$> CorrSeo2016.params _ self1) in Hn.
    rewrite Hnames in Hn.
    intros name Hname. rewrite Hp in Hname.
    assert (name ∈ CorrSeo2016.fix_params _ inst) as Hfixed.
    { rewrite Hf. cbn [CorrSeo2016.fix_params self0].
      destruct Hmode as [-> | ->]; apply elem_of_app; by right. }
    split; [exact Hfixed|]. split.
    + assert (name ∈ model.p_name <$> CorrSeo2016.params _ inst) as Hin.
      { rewrite Hn. rewrite !elem_of_app. auto. }
      apply list_elem_of_fmap in Hin as (q & -> & Hq). eauto.
    + intros q Hq Hqname. split.
      * apply Hz; [by intros ? ? ?%elem_of_nil | exact Hq |].
        rewrite app_nil_r, Hqname. exact Hname.
      * unfold model.free_params. rewrite list_elem_of_filter.
        intros [Hfree _]. apply Hfree. by rewrite Hqname.
Qed.

Lemma marg_strips_bias_and_fixes_amplitudes_witness :
  ∃ kprime pk poly inst,
    compute_power_spectrum examples.round examples.toy_scipy (examples.toy_model true true true [0%nat])
      [1; 2] examples.toy_params false false None = Ok (kprime, pk, poly) ∧
    CorrSeo2016.init unit examples.toy_parent_init examples.toy_super_declared
      (examples.toy_corr_args true [0; 2]%nat (Some "full"%string)) = Ok inst ∧
    (∃ ks p' prefac pk_arg shape poly_full,
       add_poly (examples.toy_model true true true [0%nat]) ks [1; 2] p' prefac pk_arg
       = Ok (shape, poly_full) ∧
       poly = Some (drop 1 poly_full)) ∧
    "a{0}_1"%string ∈ CorrSeo2016.fix_params _ inst.
Proof.
  assert (∃ r, compute_power_spectrum examples.round examples.toy_scipy
                 (examples.toy_model true true true [0%nat])
                 [1; 2] examples.toy_params false false None = Ok r)
    as [[[kprime pk] poly] Hr] by (eexists; reflexivity).
  assert (∃ inst,
    CorrSeo2016.init unit examples.toy_parent_init examples.toy_super_declared
      (examples.toy_corr_args true [0; 2]%nat (Some "full"%string)) = Ok inst ∧
    CorrSeo2016.poly_poles _ inst = [0%nat])
    as (inst & Hinst & Hpoles) by (eexists; split; vm_compute; reflexivity).
  destruct (marg_strips_bias_and_fixes_amplitudes examples.round
              examples.toy_scipy (examples.toy_model true true true [0%nat])
              [1; 2] examples.toy_params false None kprime pk poly
              examples.toy_parent_init examples.toy_super_declared
              (examples.toy_corr_args true [0; 2]%nat (Some "full"%string)) inst
              eq_refl Hr (or_introl eq_refl) Hinst) as [Ha Hb].
  exists kprime, pk, poly, inst. split; [exact Hr|]. split; [exact Hinst|].
  split; [exact Ha|].
  apply Hb. rewrite Hpoles. vm_compute. left.
Defined.

(** C6.  An isotropic model returns a multipole list with the monopole
    alone: the quadrupole and hexadecapole entries are absent.  An
    anisotropic model returns six entries, the monopole, quadrupole and
    hexadecapole of [integrate_mu] in slots 0, 2 and 4 and zero arrays in
    the odd slots; a slot differs from that only where the polynomial
    shape of one of [poly_poles] is added to it. *)
Theorem multipole_slots (round : R → nat → R) (sp : Scipy)
    (self : PowerSpectrumFit)
    (k : list R) (p : params) (smooth for_corr : bool) (data_name : option string)
    (kprime : ndarray) (pk : list ndarray) (poly : option (list ndarray)) :
  compute_power_spectrum round sp self k p smooth for_corr data_name = Ok (kprime, pk, poly) →
  if isotropic self then
    (∃ pk0, pk = [pk0]) ∧ pk !! 2%nat = None ∧ pk !! 4%nat = None
  else
    length pk = 6%nat ∧
    ∃ pk2d pk0 pk2 pk4,
      integrate_mu self pk2d = Ok (pk0, pk2, pk4) ∧
      ∀ i, for_corr = true ∨ marg self = true ∨ i ∉ poly_poles self →
        pk !! i
        = [pk0; Arr1 (zeros (length k)); pk2; Arr1 (zeros (length k));
           pk4; Arr1 (zeros (length k))] !! i.
Proof.
  intros H.
  apply evaluate_facts.compute_power_spectrum_inv in H as (ks & psl & pr & p' & H).
  destruct (isotropic self).
  - apply evaluate_facts.compute_isotropic_inv in H as [[pk0 ->] _]. eauto.
  - apply evaluate_facts.compute_anisotropic_inv in H
      as (pk2d & pk0 & pk2 & pk4 & Hint & H). cbv zeta in H.
    destruct for_corr.
    + destruct H as (_ & -> & _). split; [done|]. by exists pk2d, pk0, pk2, pk4.
    + destruct H as (shape & poly_full & _ & H). destruct (marg self).
      * destruct H as [-> _]. split; [done|]. by exists pk2d, pk0, pk2, pk4.
      * destruct H as [Hfold _].
        apply evaluate_facts.foldM_add_shape_other in Hfold as [Hlen Hother].
        split; [done|]. exists pk2d, pk0, pk2, pk4. split; [done|].
        intros i [?|[?|Hi]]; [done..|]. by apply Hother.
Qed.

Lemma multipole_slots_witness :
  (∃ kprime pk0 poly,
     compute_power_spectrum examples.round examples.toy_scipy (examples.toy_model true true true [0%nat])
       [1; 2] examples.toy_params false false None = Ok (kprime, [pk0], poly))
  ∧
  (∃ kprime pk poly,
     compute_power_spectrum examples.round examples.toy_scipy
       (examples.toy_model false true false [0; 2]%nat)
       [1; 2] examples.toy_params false false None = Ok (kprime, pk, poly) ∧
     length pk = 6%nat ∧
     pk !! 1%nat = Some (Arr1 (zeros 2)) ∧
     pk !! 3%nat = Some (Arr1 (zeros 2)) ∧
     pk !! 5%nat = Some (Arr1 (zeros 2))).
Proof.
  split.
  - assert (∃ r, compute_power_spectrum examples.round examples.toy_scipy
                   (examples.toy_model true true true [0%nat])
                   [1; 2] examples.toy_params false false None = Ok r)
      as [[[kprime pk] poly] Hr] by (eexists; reflexivity).
    pose proof (multipole_slots _ _ _ _ _ _ _ _ _ _ _ Hr) as H.
    cbn [isotropic examples.toy_model examples.toy_model_on examples.toy_model_rt] in H.
    destruct H as [[pk0 ->] _]. exists kprime, pk0, poly. exact Hr.
  - assert (∃ r, compute_power_spectrum examples.round examples.toy_scipy
                   (examples.toy_model false true false [0; 2]%nat)
                   [1; 2] examples.toy_params false false None = Ok r)
      as [[[kprime pk] poly] Hr] by (eexists; reflexivity).
    pose proof (multipole_slots _ _ _ _ _ _ _ _ _ _ _ Hr) as H.
    cbn [isotropic poly_poles examples.toy_model examples.toy_model_on
         examples.toy_model_rt] in H.
    destruct H as (Hlen & pk2d & pk0 & pk2 & pk4 & _ & Hslots).
    exists kprime, pk, poly. split; [exact Hr|]. split; [exact Hlen|].
    rewrite !Hslots
      by (right; right; rewrite !not_elem_of_cons; split_and!;
          first [lia | apply not_elem_of_nil]).
    done.
Defined.


(** C7.  Two parameter sets whose ["om"] round to the same 5-decimal
    number and whose products [b * beta] round to the same 5-decimal
    number use identical damping arrays and cache entries in the
    non-smooth evaluation: the damping enters only through the rounded
    values.  Both sets make the evaluation form the same [(om, growth)]
    pair.  [compute_power_spectrum] run over the caches of the instance
    returns what the evaluation on the methods returns, for the first set
    and then for the second, and leaves the caches well formed.  When the
    evaluation of the first set has returned, every damping call of its
    branch is stored under the key made of the rounded values, and the
    evaluation of the second set takes every damping array from those
    entries: it leaves every cache exactly as the first evaluation left
    it. *)
Theorem rounded_inputs_share_damping (round : R → nat → R) (sp : Scipy)
    (self : PowerSpectrumFit) (k1 k2 : list R) (p1 p2 : params)
    (for_corr1 for_corr2 : bool) (data_name : option string)
    (om1 om2 b1 b2 beta1 beta2 : R) (c0 : Caches) :
  p1 !! "om"%string = Some om1 → p1 !! "b"%string = Some b1 →
  p1 !! "beta"%string = Some beta1 →
  p2 !! "om"%string = Some om2 → p2 !! "b"%string = Some b2 →
  p2 !! "beta"%string = Some beta2 →
  round om1 5%nat = round om2 5%nat →
  round (b1 * beta1) 5%nat = round (b2 * beta2) 5%nat →
  caches_wf self c0 →
  round_om_growth round p1 = Ok (round om1 5%nat, round (b1 * beta1) 5%nat) ∧
  round_om_growth round p2 = round_om_growth round p1 ∧
  ∃ c1 c2,
    cached_compute_power_spectrum round sp self k1 p1 false for_corr1 data_name c0
    = (compute_power_spectrum round sp self k1 p1 false for_corr1 data_name, c1) ∧
    cached_compute_power_spectrum round sp self k2 p2 false for_corr2 data_name c1
    = (compute_power_spectrum round sp self k2 p2 false for_corr2 data_name, c2) ∧
    caches_wf self c2 ∧
    (is_Ok (compute_power_spectrum round sp self k1 p1 false for_corr1 data_name) →
     all_stored
       (damping_calls self (round om1 5%nat) (round (b1 * beta1) 5%nat) data_name) c1 ∧
     c2 = c1).
Proof.
  intros Hom1 Hb1 Hbeta1 Hom2 Hb2 Hbeta2 Ho Hg Hwf.
  pose proof (cache_facts.round_om_growth_lookup round p1 _ _ _ Hom1 Hb1 Hbeta1) as Hk1.
  pose proof (cache_facts.round_om_growth_lookup round p2 _ _ _ Hom2 Hb2 Hbeta2) as Hk2.
  split; [exact Hk1|]. split; [by rewrite Hk1, Hk2, Ho, Hg|].
  destruct (cache_facts.cached_compute_power_spectrum_returns round sp self
              k1 p1 false for_corr1 data_name c0 Hwf) as (c1 & H1 & Hwf1).
  destruct (cache_facts.cached_compute_power_spectrum_returns round sp self
              k2 p2 false for_corr2 data_name c1 Hwf1) as (c2 & H2 & Hwf2).
  exists c1, c2. split; [exact H1|]. split; [exact H2|]. split; [exact Hwf2|].
  intros [r1 Hr1]. rewrite Hr1 in H1.
  destruct (cache_facts.cached_compute_power_spectrum_stores round sp self
              k1 p1 for_corr1 data_name om1 b1 beta1 Hom1 Hb1 Hbeta1
              c0 r1 c1 Hwf H1) as (_ & Hst & _).
  split; [exact Hst|].
  rewrite Ho, Hg in Hst.
  pose proof (cache_facts.cached_compute_power_spectrum_keeps round sp self
                c1 k2 p2 for_corr2 data_name om2 b2 beta2 Hom2 Hb2 Hbeta2 Hst) as Hk.
  unfold keeps in Hk. rewrite H2 in Hk. exact Hk.
Qed.

Lemma rounded_inputs_share_damping_witness :
  examples.round 0.31 5 = examples.round 0.310001 5 ∧
  ∃ r1 c1,
    cached_compute_power_spectrum examples.round examples.toy_scipy examples.toy_aniso
      [1; 2] (examples.toy_params_with 0.31) false false None ∅ = (Ok r1, c1) ∧
    cached_compute_power_spectrum examples.round examples.toy_scipy examples.toy_aniso
      [1; 2] (examples.toy_params_with 0.310001) false false None c1
    = (compute_power_spectrum examples.round examples.toy_scipy examples.toy_aniso
         [1; 2] (examples.toy_params_with 0.310001) false false None, c1) ∧
    all_stored
      (damping_calls examples.toy_aniso (examples.round 0.31 5)
         (examples.round (1 * 0.5) 5) None) c1.
Proof.
  assert (examples.round 0.31 5 = examples.round 0.310001 5) as Hround.
  { unfold examples.round.
    rewrite (round_facts.rint_near (0.31 * 10 ^ 5) 31000) by (simpl; lra).
    rewrite (round_facts.rint_near (0.310001 * 10 ^ 5) 31000) by (simpl; lra).
    reflexivity. }
  split; [exact Hround|].
  assert (∃ r1, compute_power_spectrum examples.round examples.toy_scipy
                  examples.toy_aniso [1; 2] (examples.toy_params_with 0.31)
                  false false None = Ok r1) as [r1 Hr1] by (eexists; reflexivity).
  destruct (rounded_inputs_share_damping examples.round examples.toy_scipy
              examples.toy_aniso [1; 2] [1; 2]
              (examples.toy_params_with 0.31) (examples.toy_params_with 0.310001)
              false false None 0.31 0.310001 1 1 0.5 0.5 ∅
              eq_refl eq_refl eq_refl eq_refl eq_refl eq_refl Hround eq_refl
              (cache_facts.caches_wf_empty examples.toy_aniso))
    as (_ & _ & c1 & c2 & H1 & H2 & _ & Hshare).
  destruct (Hshare (ex_intro _ r1 Hr1)) as [Hst Hc].
  exists r1, c1. rewrite Hr1 in H1. rewrite Hc in H2.
  split; [exact H1|]. split; [exact H2|exact Hst].
Defined.
(** C8.  With [for_corr=True] the evaluation returns no polynomial terms
    ([poly] is [None]) and the wavenumbers it returns are the input grid
    [k] itself, not [k / alpha]. *)
Theorem for_corr_skips_poly_and_dilation (round : R → nat → R) (sp : Scipy)
    (self : PowerSpectrumFit)
    (k : list R) (p : params) (smooth : bool) (data_name : option string)
    (kprime : ndarray) (pk : list ndarray) (poly : option (list ndarray)) :
  compute_power_spectrum round sp self k p smooth true data_name = Ok (kprime, pk, poly) →
  kprime = Arr1 k ∧ poly = None.
Proof.
  intros H.
  apply evaluate_facts.compute_power_spectrum_inv in H as (ks & psl & pr & p' & H).
  destruct (isotropic self).
  - by apply evaluate_facts.compute_isotropic_inv in H as [_ H].
  - apply evaluate_facts.compute_anisotropic_inv in H
      as (pk2d & pk0 & pk2 & pk4 & _ & Hk & _ & Hp). done.
Qed.

Lemma for_corr_skips_poly_and_dilation_witness :
  (∃ pk, compute_power_spectrum examples.round examples.toy_scipy
           (examples.toy_model true true true [0%nat])
           [1; 2] examples.toy_params false true None = Ok (Arr1 [1; 2], pk, None))
  ∧
  (∃ pk, compute_power_spectrum examples.round examples.toy_scipy
           (examples.toy_model false true false [0; 2]%nat)
           [1; 2] examples.toy_params false true None = Ok (Arr1 [1; 2], pk, None)).
Proof.
  split.
  - assert (∃ r, compute_power_spectrum examples.round examples.toy_scipy
                   (examples.toy_model true true true [0%nat])
                   [1; 2] examples.toy_params false true None = Ok r)
      as [[[kprime pk] poly] Hr] by (eexists; reflexivity).
    destruct (for_corr_skips_poly_and_dilation _ _ _ _ _ _ _ _ _ _ Hr) as [-> ->].
    exists pk. exact Hr.
  - assert (∃ r, compute_power_spectrum examples.round examples.toy_scipy
                   (examples.toy_model false true false [0; 2]%nat)
                   [1; 2] examples.toy_params false true None = Ok r)
      as [[[kprime pk] poly] Hr] by (eexists; reflexivity).
    destruct (for_corr_skips_poly_and_dilation _ _ _ _ _ _ _ _ _ _ Hr) as [-> ->].
    exists pk. exact Hr.
Defined.

(** C9.  Constructing [PowerDing2018] with [n_poly] other than 0, 3 or 5
    raises [NotImplementedError] before anything else happens; with an
    admissible [n_poly], once the base constructor has set the
    reconstruction type to "sym" or "ani" the constructor raises
    [NotImplementedError] as well.  Nothing catches either exception: in
    both cases the constructor returns no instance. *)
Theorem init_rejects_bad_configuration
    (super_init : bool → PowerDing2018.InitArgs → result PowerSpectrumFit)
    (set_marg : PowerSpectrumFit → list string → list nat → Z → result PowerSpectrumFit)
    (args : PowerDing2018.InitArgs) :
  (PowerDing2018.arg_n_poly args ∉ [0; 3; 5]%Z →
     PowerDing2018.init super_init set_marg args
     = Raise (NotImplementedError
         "Models require n_poly to be 0, 3 or 5 polynomial terms per multipole")) ∧
  (∀ self,
     PowerDing2018.arg_n_poly args ∈ [0; 3; 5]%Z →
     super_init false args = Ok self →
     recon_type self = "sym"%string ∨ recon_type self = "ani"%string →
     PowerDing2018.init super_init set_marg args
     = Raise (NotImplementedError
         "Symmetric and Anisotropic reconstruction not yet available for Ding2018 model")) ∧
  (PowerDing2018.arg_n_poly args ∉ [0; 3; 5]%Z ∨
   (∃ self, super_init false args = Ok self ∧
            (recon_type self = "sym"%string ∨ recon_type self = "ani"%string)) →
   ¬ is_Ok (PowerDing2018.init super_init set_marg args)).
Proof.
  assert (PowerDing2018.arg_n_poly args ∉ [0; 3; 5]%Z →
          PowerDing2018.init super_init set_marg args
          = Raise (NotImplementedError
              "Models require n_poly to be 0, 3 or 5 polynomial terms per multipole"))
    as Hpoly.
  { intros Hn. unfold PowerDing2018.init. by rewrite decide_False. }
  assert (∀ self,
     super_init false args = Ok self →
     recon_type self = "sym"%string ∨ recon_type self = "ani"%string →
     ∃ msg, PowerDing2018.init super_init set_marg args = Raise (NotImplementedError msg))
    as Hrecon.
  { intros self Hself Hrt. unfold PowerDing2018.init.
    destruct (decide (PowerDing2018.arg_n_poly args ∈ [0; 3; 5]%Z)); [|eauto].
    rewrite Hself. cbn [mbind result_bind]. rewrite decide_True by done. eauto. }
  split; [exact Hpoly|]. split.
  - intros self Hn Hself Hrt. unfold PowerDing2018.init.
    rewrite decide_True by done. rewrite Hself. cbn [mbind result_bind].
    by rewrite decide_True.
  - intros [Hn|(self & Hself & Hrt)] [inst Hinst].
    + rewrite Hpoly in Hinst by done. discriminate.
    + destruct (Hrecon self Hself Hrt) as [msg Hmsg]. congruence.
Qed.

Lemma init_rejects_bad_configuration_witness :
  PowerDing2018.init examples.toy_super_init examples.toy_set_marg
    (examples.toy_ding_args None 4)
  = Raise (NotImplementedError
      "Models require n_poly to be 0, 3 or 5 polynomial terms per multipole")
  ∧
  PowerDing2018.init examples.toy_super_init examples.toy_set_marg
    (examples.toy_ding_args (Some "sym"%string) 5)
  = Raise (NotImplementedError
      "Symmetric and Anisotropic reconstruction not yet available for Ding2018 model")
  ∧
  is_Ok (PowerDing2018.init examples.toy_super_init examples.toy_set_marg
           (examples.toy_ding_args (Some "iso"%string) 5)).
Proof.
  split; [|split].
  - apply (proj1 (init_rejects_bad_configuration examples.toy_super_init
                    examples.toy_set_marg (examples.toy_ding_args None 4))).
    cbn. rewrite !not_elem_of_cons. split_and!; first [lia | apply not_elem_of_nil].
  - eapply (proj1 (proj2 (init_rejects_bad_configuration examples.toy_super_init
                    examples.toy_set_marg (examples.toy_ding_args (Some "sym"%string) 5)))).
    + cbn. rewrite !elem_of_cons. auto.
    + reflexivity.
    + left. reflexivity.
  - eexists. reflexivity.
Defined.

(** C10.  Constructing [CorrSeo2016] with [isotropic=True] hands the poles
    [[0]] to the base constructor whatever [poly_poles] was passed, and
    the names the instance has declared are those that
    [super().declare_parameters()] declares for the instance as the base
    constructor set it up, followed by [b], [beta], [sigma_s] and the
    monopole polynomial parameters [a{0}_1], [a{0}_2], [a{0}_3], and by
    nothing else. *)
Theorem isotropic_declares_monopole_only {PowerSeo2016 : Type}
    (PowerSeo2016_init :
       list string → option string → option string → bool → option string → bool →
       option string → result PowerSeo2016)
    (super_declared : CorrSeo2016.Instance PowerSeo2016 → list model.Param)
    (args : CorrSeo2016.InitArgs) (inst : CorrSeo2016.Instance PowerSeo2016) :
  CorrSeo2016.arg_isotropic args = true →
  CorrSeo2016.init _ PowerSeo2016_init super_declared args = Ok inst →
  let self0 : CorrSeo2016.Instance PowerSeo2016 :=
    {| CorrSeo2016.recon_smoothing_scale := None;
       CorrSeo2016.isotropic := true;
       CorrSeo2016.marg :=
         bool_decide (CorrSeo2016.arg_marg args = Some "full"%string
                      ∨ CorrSeo2016.arg_marg args = Some "partial"%string);
       CorrSeo2016.poly_poles := [0%nat];
       CorrSeo2016.fix_params :=
         match CorrSeo2016.arg_marg args with
         | Some _ => CorrSeo2016.arg_fix_params args ++ CorrSeo2016.poly_names 0
         | None => CorrSeo2016.arg_fix_params args
         end;
       CorrSeo2016.params := [];
       CorrSeo2016.parent := None |} in
  CorrSeo2016.poly_poles _ inst = [0%nat] ∧
  model.p_name <$> CorrSeo2016.params _ inst
  = (model.p_name <$> super_declared self0)
    ++ ["b"; "beta"; "sigma_s"; "a{0}_1"; "a{0}_2"; "a{0}_3"]%string.
Proof.
  intros Hiso H self0. unfold CorrSeo2016.init in H. rewrite Hiso in H. cbv zeta in H.
  unfold CorrSeo2016.CorrelationFunctionFit_init in H. cbn [mbind result_bind] in H.
  apply bind_Ok_inv in H as (m & _ & H).
  match type of H with
  | context [CorrSeo2016.declare_parameters _ _ ?s0] => set (self1 := s0) in *
  end.
  pose proof (corr_facts.declare_parameters_names super_declared self1) as Hnames.
  set (self := CorrSeo2016.declare_parameters _ super_declared self1) in *.
  assert (CorrSeo2016.poly_poles _ self = [0%nat]) as Hpoles by reflexivity.
  cbn [CorrSeo2016.marg CorrSeo2016.poly_poles CorrSeo2016.with_parent] in H.
  rewrite Hpoles in H.
  assert (CorrSeo2016.poly_poles _ inst = [0%nat] ∧
          model.p_name <$> CorrSeo2016.params _ inst
          = model.p_name <$> CorrSeo2016.params _ self) as [Hp Hn].
  { destruct (CorrSeo2016.marg _ self).
    - apply (corr_facts.foldM_default_pole_spec _ _ _ []) in H
        as (Hp & _ & Hn & _). split; [rewrite Hp; exact Hpoles | exact Hn].
    - injection H as <-. done. }
  split; [exact Hp|].
  rewrite Hn, Hnames. reflexivity.
Qed.

Lemma isotropic_declares_monopole_only_witness :
  ∃ inst,
    CorrSeo2016.init unit examples.toy_parent_init examples.toy_super_declared
      (examples.toy_corr_args true [0; 2]%nat (Some "full"%string)) = Ok inst ∧
    CorrSeo2016.poly_poles _ inst = [0%nat] ∧
    model.p_name <$> CorrSeo2016.params _ inst
    = ["om"; "alpha"; "b"; "beta"; "sigma_s"; "a{0}_1"; "a{0}_2"; "a{0}_3"]%string.
Proof.
  assert (∃ inst,
    CorrSeo2016.init unit examples.toy_parent_init examples.toy_super_declared
      (examples.toy_corr_args true [0; 2]%nat (Some "full"%string)) = Ok inst)
    as [inst Hinst] by (eexists; vm_compute; reflexivity).
  exists inst. split; [exact Hinst|].
  exact (isotropic_declares_monopole_only examples.toy_parent_init
           examples.toy_super_declared
           (examples.toy_corr_args true [0; 2]%nat (Some "full"%string)) inst
           eq_refl Hinst).
Defined.

(** * Further properties of the two models *)

Module damping_more.
Import PowerDing2018 damping_facts aniso_facts.
Local Open Scope R_scope.

Lemma exp_neg_le_1 x : 0 <= x → exp (- x) <= 1.
Proof. intros Hx. rewrite <- exp_0. apply exp_mono. lra. Qed.

(** The entries of an exponential damping array with non-negative weights
    and scale lie in the unit interval. *)
Lemma damping_unit (w v : nat → R) r c sigma i j x :
  (∀ i, 0 <= w i) → (∀ j, 0 <= v j) → 0 <= sigma →
  get2 (mat r c (λ i j, exp (- (w i * v j) * sigma))) i j = Some x → 0 <= x <= 1.
Proof.
  intros Hw Hv Hs (_ & _ & ->)%get2_mat_inv. split; [left; apply exp_pos|].
  replace (- (w i * v j) * sigma) with (- (w i * v j * sigma)) by ring.
  apply exp_neg_le_1. specialize (Hw i). specialize (Hv j).
  apply Rmult_le_pos; [apply Rmult_le_pos|]; assumption.
Qed.


Lemma Rpower_exp a q : Rpower (exp a) q = exp (q * a).
Proof. unfold Rpower. by rewrite ln_exp. Qed.

(** A parallel and a perpendicular array whose exponents add up to the
    exponent of an isotropic array, combined with one and the same
    power. *)
Lemma pair_is_iso_power (ks mus : list R) (fk fm gk gm wm wk : R → R) sigma q :
  (∀ k m, fk k * fm m + gk k * gm m = wm m * wk k) →
  ∃ A,
    aniso_damping (exp_damp (outer (fk <$> ks) (fm <$> mus)) sigma)
                  (exp_damp (outer (gk <$> ks) (gm <$> mus)) sigma) q q
    = Ok (Arr2 A) ∧
    arrays.rect (length ks) (length mus) A ∧
    arrays.transposed_power (exp_damp (outer (wm <$> mus) (wk <$> ks)) sigma) A q.
Proof.
  intros Hsum. rewrite !exp_damp_outer, aniso_damping_mat.
  eexists. split; [done|]. split; [apply mat_rect|].
  intros i j x (Hi & Hj & ->)%get2_mat_inv. rewrite get2_mat by done.
  f_equal. rewrite !Rpower_exp, <- exp_plus. f_equal.
  rewrite <- Hsum. ring.
Qed.

(** A parallel and a perpendicular array with non-negative weights and
    scales: both lie in the unit interval, and so does their combination
    with non-negative powers. *)
Lemma pair_in_unit (ks mus : list R) (fk fm gk gm : R → R) s s' :
  (∀ i, 0 <= fk (nth i ks 0)) → (∀ j, 0 <= fm (nth j mus 0)) →
  (∀ i, 0 <= gk (nth i ks 0)) → (∀ j, 0 <= gm (nth j mus 0)) →
  0 <= s → 0 <= s' →
  arrays.rect (length ks) (length mus) (exp_damp (outer (fk <$> ks) (fm <$> mus)) s) ∧
  arrays.rect (length ks) (length mus) (exp_damp (outer (gk <$> ks) (gm <$> mus)) s') ∧
  arrays.in_unit (exp_damp (outer (fk <$> ks) (fm <$> mus)) s) ∧
  arrays.in_unit (exp_damp (outer (gk <$> ks) (gm <$> mus)) s') ∧
  ∀ pp pq, 0 <= pp → 0 <= pq →
    ∃ A, aniso_damping (exp_damp (outer (fk <$> ks) (fm <$> mus)) s)
                       (exp_damp (outer (gk <$> ks) (gm <$> mus)) s') pp pq
         = Ok (Arr2 A) ∧
         arrays.rect (length ks) (length mus) A ∧ arrays.in_unit A.
Proof.
  intros Hfk Hfm Hgk Hgm Hs Hs'. rewrite !exp_damp_outer.
  split_and!; try apply mat_rect.
  - intros i j x. by apply (damping_unit (λ i, fk (nth i ks 0)) (λ j, fm (nth j mus 0))).
  - intros i j x. by apply (damping_unit (λ i, gk (nth i ks 0)) (λ j, gm (nth j mus 0))).
  - intros pp pq Hpp Hpq. rewrite aniso_damping_mat.
    eexists. split; [done|]. split; [apply mat_rect|].
    intros i j x (_ & _ & ->)%get2_mat_inv.
    rewrite !Rpower_exp, <- exp_plus. split; [left; apply exp_pos|].
    specialize (Hfk i). specialize (Hfm j). specialize (Hgk i). specialize (Hgm j).
    set (a := fk (nth i ks 0)) in *. set (b := fm (nth j mus 0)) in *.
    set (c := gk (nth i ks 0)) in *. set (d := gm (nth j mus 0)) in *.
    replace (pp * (- (a * b) * s) + pq * (- (c * d) * s'))
      with (- (pp * (a * b * s) + pq * (c * d * s'))) by ring.
    apply exp_neg_le_1.
    assert (0 <= a * b * s) by (apply Rmult_le_pos; [apply Rmult_le_pos|]; assumption).
    assert (0 <= c * d * s') by (apply Rmult_le_pos; [apply Rmult_le_pos|]; assumption).
    assert (0 <= pp * (a * b * s)) by (by apply Rmult_le_pos).
    assert (0 <= pq * (c * d * s')) by (by apply Rmult_le_pos).
    lra.
Qed.

Lemma sq_weight_nonneg (k : R) : 0 <= k ^ 2.
Proof. apply pow2_ge_0. Qed.

Lemma par_weight_nonneg growth k : 0 <= (1 + (2 + growth) * growth) * k ^ 2.
Proof.
  replace (1 + (2 + growth) * growth) with ((1 + growth) ^ 2) by ring.
  apply Rmult_le_pos; apply pow2_ge_0.
Qed.

Lemma par_weight_sd_nonneg growth k : -1 <= growth → 0 <= (1 + growth) * k ^ 2.
Proof. intros Hg. apply Rmult_le_pos; [lra | apply pow2_ge_0]. Qed.

Lemma perp_weight_nonneg m : -1 <= m <= 1 → 0 <= 1 - m ^ 2.
Proof. intros Hm. nra. Qed.

End damping_more.

Import damping_more.

(** X1.  On a [mu] grid within [[-1, 1]], for a non-negative damping scale
    (and, for the shifted-density array, a growth value [>= -1]) the four
    isotropic damping methods return arrays whose entries all lie in
    [0, 1]: the damping never amplifies and is never negative, whatever
    the wavenumbers are. *)
Theorem iso_damping_in_unit_interval (self : PowerSpectrumFit) (growth om : R) :
  Forall (λ m, -1 <= m <= 1) (mu self) →
  (∀ sigma, get_pregen self "sigma_nl" om = Ok sigma → 0 <= sigma →
     ∃ D, get_damping self growth om = Ok D ∧ arrays.in_unit D) ∧
  (∀ sigma, get_pregen self "sigma_dd_nl" om = Ok sigma → 0 <= sigma →
     ∃ D, get_damping_dd self growth om = Ok D ∧ arrays.in_unit D) ∧
  (∀ sigma, -1 <= growth → get_pregen self "sigma_sd_nl" om = Ok sigma → 0 <= sigma →
     ∃ D, get_damping_sd self growth om = Ok D ∧ arrays.in_unit D) ∧
  (∀ sigma, get_pregen self "sigma_ss_nl" om = Ok sigma → 0 <= sigma →
     ∃ D, get_damping_ss self om = Ok D ∧ arrays.in_unit D).
Proof.
  intros Hmu. split_and!.
  - intros sigma Hsig Hpos. unfold get_damping. rewrite Hsig. simpl.
    eexists; split; [done|]. rewrite exp_damp_outer. intros i j x.
    apply (damping_unit (λ i, 1 + (2 + growth) * growth * nth i (mu self) 0 ^ 2)
             (λ j, nth j (camb_ks (camb self)) 0 ^ 2));
      auto using growth_weight_nonneg, nth_within, pow2_ge_0.
  - intros sigma Hsig Hpos. unfold get_damping_dd. rewrite Hsig. simpl.
    eexists; split; [done|]. rewrite exp_damp_outer. intros i j x.
    apply (damping_unit (λ i, 1 + (2 + growth) * growth * nth i (mu self) 0 ^ 2)
             (λ j, nth j (camb_ks (camb self)) 0 ^ 2));
      auto using growth_weight_nonneg, nth_within, pow2_ge_0.
  - intros sigma Hg Hsig Hpos. unfold get_damping_sd. rewrite Hsig. simpl.
    eexists; split; [done|]. rewrite exp_damp_outer. intros i j x.
    apply (damping_unit (λ i, 1 + growth * nth i (mu self) 0 ^ 2)
             (λ j, nth j (camb_ks (camb self)) 0 ^ 2));
      auto using growth_weight_sd_nonneg, nth_within, pow2_ge_0.
  - intros sigma Hsig Hpos. unfold get_damping_ss. rewrite Hsig. simpl.
    eexists; split; [done|]. rewrite tile_fmap_mat, exp_damp_mat.
    rewrite (mat_ext _ _ _
      (λ i j, exp (- (1 * nth j (camb_ks (camb self)) 0 ^ 2) * sigma)))
      by (intros; f_equal; lra).
    intros i j x.
    apply (damping_unit (λ _, 1) (λ j, nth j (camb_ks (camb self)) 0 ^ 2));
      auto using pow2_ge_0 with real.
Qed.

Lemma iso_damping_in_unit_interval_witness :
  Forall (λ m, -1 <= m <= 1) [0; 1] ∧
  (∃ D, get_damping (examples.toy_model true false false [0%nat]) (-3) 0.31 = Ok D
        ∧ arrays.in_unit D) ∧
  (∃ D, get_damping_sd (examples.toy_model true false false [0%nat]) (-1) 0.31 = Ok D
        ∧ arrays.in_unit D).
Proof.
  assert (Forall (λ m, -1 <= m <= 1) [0; 1]) as H0 by (repeat constructor; lra).
  destruct (iso_damping_in_unit_interval
              (examples.toy_model true false false [0%nat]) (-3) 0.31 H0)
    as (Hnl & _ & _ & _).
  destruct (iso_damping_in_unit_interval
              (examples.toy_model true false false [0%nat]) (-1) 0.31 H0)
    as (_ & _ & Hsd & _).
  split_and!; [exact H0 | apply (Hnl 1); [reflexivity | lra]
              | apply (Hsd 1); [lra | reflexivity | lra]].
Defined.

(** X2.  With one and the same power [q] for the parallel and the
    perpendicular array, the anisotropic damping on the provider's grid is
    the isotropic damping array transposed and raised to [q], for the
    plain, dd, sd and ss kernels alike; at [epsilon = 0] the two powers of
    the anisotropic branch are one and the same, [1 / alpha^2]. *)
Theorem aniso_damping_equal_powers (self : PowerSpectrumFit) (growth om q : R) :
  nmu self = length (mu self) →
  (∀ par perp D,
     get_damping_aniso_par self growth om None = Ok par →
     get_damping_aniso_perp self om None = Ok perp →
     get_damping self growth om = Ok D →
     ∃ A, aniso_damping par perp q q = Ok (Arr2 A) ∧
          arrays.rect (length (camb_ks (camb self))) (length (mu self)) A ∧
          arrays.transposed_power D A q) ∧
  (∀ par perp D,
     get_damping_aniso_dd_par self growth om None = Ok par →
     get_damping_aniso_dd_perp self om None = Ok perp →
     get_damping_dd self growth om = Ok D →
     ∃ A, aniso_damping par perp q q = Ok (Arr2 A) ∧
          arrays.rect (length (camb_ks (camb self))) (length (mu self)) A ∧
          arrays.transposed_power D A q) ∧
  (∀ par perp D,
     get_damping_aniso_sd_par self growth om None = Ok par →
     get_damping_aniso_sd_perp self om None = Ok perp →
     get_damping_sd self growth om = Ok D →
     ∃ A, aniso_damping par perp q q = Ok (Arr2 A) ∧
          arrays.rect (length (camb_ks (camb self))) (length (mu self)) A ∧
          arrays.transposed_power D A q) ∧
  (∀ par perp D,
     get_damping_aniso_ss_par self om None = Ok par →
     get_damping_aniso_ss_perp self om None = Ok perp →
     get_damping_ss self om = Ok D →
     ∃ A, aniso_damping par perp q q = Ok (Arr2 A) ∧
          arrays.rect (length (camb_ks (camb self))) (length (mu self)) A ∧
          arrays.transposed_power D A q) ∧
  (∀ alpha, 1 / (alpha ^ 2 * (1 + 0) ^ 4) = (1 + 0) ^ 2 / alpha ^ 2).
Proof.
  intros Hnmu. split_and!.
  - intros par perp D Hp Hq HD.
    unfold get_damping_aniso_par, get_damping_aniso_perp, get_damping in *.
    cbn [damping_ks mbind result_bind] in *.
    inv_bind Hp. inv_bind Hq. inv_bind HD. same_result. subst.
    apply (pair_is_iso_power _ _ _ _ _ _
             (λ m, 1 + (2 + growth) * growth * m ^ 2) (λ k, k ^ 2)).
    intros k m. ring.
  - intros par perp D Hp Hq HD.
    unfold get_damping_aniso_dd_par, get_damping_aniso_dd_perp, get_damping_dd in *.
    cbn [damping_ks mbind result_bind] in *.
    inv_bind Hp. inv_bind Hq. inv_bind HD. same_result. subst.
    apply (pair_is_iso_power _ _ _ _ _ _
             (λ m, 1 + (2 + growth) * growth * m ^ 2) (λ k, k ^ 2)).
    intros k m. ring.
  - intros par perp D Hp Hq HD.
    unfold get_damping_aniso_sd_par, get_damping_aniso_sd_perp, get_damping_sd in *.
    cbn [damping_ks mbind result_bind] in *.
    inv_bind Hp. inv_bind Hq. inv_bind HD. same_result. subst.
    apply (pair_is_iso_power _ _ _ _ _ _ (λ m, 1 + growth * m ^ 2) (λ k, k ^ 2)).
    intros k m. ring.
  - intros par perp D Hp Hq HD.
    unfold get_damping_aniso_ss_par, get_damping_aniso_ss_perp, get_damping_ss in *.
    cbn [damping_ks mbind result_bind] in *.
    inv_bind Hp. inv_bind Hq. inv_bind HD. same_result. subst.
    match goal with
    | |- context [exp_damp _ ?s] =>
        destruct (pair_is_iso_power (camb_ks (camb self)) (mu self)
                    (λ k, k ^ 2) (λ m, m ^ 2) (λ k, k ^ 2) (λ m, 1 - m ^ 2)
                    (λ _, 1) (λ k, k ^ 2) s q) as (A & HA & Hrect & Htp);
          [intros k m; ring|]
    end.
    exists A. split; [exact HA|]. split; [exact Hrect|].
    intros i j y Hy. apply Htp. revert Hy.
    rewrite tile_fmap_mat, Hnmu, outer_fmap_mat, !exp_damp_mat.
    intros (Hi & Hj & ->)%get2_mat_inv. rewrite get2_mat by done.
    do 2 f_equal. ring.
  - intros alpha. unfold Rdiv.
    replace (alpha ^ 2 * (1 + 0) ^ 4) with (alpha ^ 2) by ring.
    replace ((1 + 0) ^ 2) with 1 by ring. done.
Qed.

Lemma aniso_damping_equal_powers_witness :
  nmu (examples.toy_model false false false [0%nat])
  = length (mu (examples.toy_model false false false [0%nat])) ∧
  ∃ par perp D A,
    get_damping_aniso_ss_par (examples.toy_model false false false [0%nat]) 0.31 None
    = Ok par ∧
    get_damping_aniso_ss_perp (examples.toy_model false false false [0%nat]) 0.31 None
    = Ok perp ∧
    get_damping_ss (examples.toy_model false false false [0%nat]) 0.31 = Ok D ∧
    aniso_damping par perp 2 2 = Ok (Arr2 A) ∧
    arrays.transposed_power D A 2.
Proof.
  split; [reflexivity|].
  destruct (aniso_damping_equal_powers
              (examples.toy_model false false false [0%nat]) 1 0.31 2 eq_refl)
    as (_ & _ & _ & Hss & _).
  destruct (Hss _ _ _ eq_refl eq_refl eq_refl) as (A & HA & _ & Htp).
  eexists _, _, _, A. split_and!; [reflexivity | reflexivity | reflexivity | exact HA | exact Htp].
Defined.

(** X3.  On a [mu] grid within [[-1, 1]], with [growth >= -1] and damping
    scales that are never negative, every parallel/perpendicular pair of
    anisotropic damping methods that returns gives two arrays of shape
    [(k, mu)] with entries in [0, 1], and combining the pair with any two
    non-negative powers again gives an array of that shape with entries
    in [0, 1]. *)
Theorem aniso_damping_in_unit_interval (self : PowerSpectrumFit) (growth om : R)
    (data_name : option string) :
  Forall (λ m, -1 <= m <= 1) (mu self) →
  -1 <= growth →
  (∀ key sigma, get_pregen self key om = Ok sigma → 0 <= sigma) →
  Forall (λ pr, ∀ par perp,
            pr.1 data_name = Ok par → pr.2 data_name = Ok perp →
            ∃ ks, damping_ks self data_name = Ok ks ∧
              arrays.rect (length ks) (length (mu self)) par ∧
              arrays.rect (length ks) (length (mu self)) perp ∧
              arrays.in_unit par ∧ arrays.in_unit perp ∧
              ∀ pp pq, 0 <= pp → 0 <= pq →
                ∃ A, aniso_damping par perp pp pq = Ok (Arr2 A) ∧
                     arrays.rect (length ks) (length (mu self)) A ∧
                     arrays.in_unit A)
         (methods.aniso_damping_pairs self growth om).
Proof.
  intros Hmu Hg Hsig.
  assert (∀ j, 0 <= 1 - nth j (mu self) 0 ^ 2) as Hperp
    by (intros j; apply perp_weight_nonneg, nth_within, Hmu).
  unfold methods.aniso_damping_pairs.
  repeat apply Forall_cons_2; [| | | |apply Forall_nil_2];
    cbn [fst snd]; intros par perp Hp Hq.
  - unfold get_damping_aniso_par, get_damping_aniso_perp in *.
    inv_bind Hp. inv_bind Hq. same_result. subst.
    eexists. split; [eassumption|].
    apply (pair_in_unit _ _ (λ k, (1 + (2 + growth) * growth) * k ^ 2) (λ m, m ^ 2)
             (λ k, k ^ 2) (λ m, 1 - m ^ 2));
      intros; eauto using par_weight_nonneg, sq_weight_nonneg.
  - unfold get_damping_aniso_dd_par, get_damping_aniso_dd_perp in *.
    inv_bind Hp. inv_bind Hq. same_result. subst.
    eexists. split; [eassumption|].
    apply (pair_in_unit _ _ (λ k, (1 + (2 + growth) * growth) * k ^ 2) (λ m, m ^ 2)
             (λ k, k ^ 2) (λ m, 1 - m ^ 2));
      intros; eauto using par_weight_nonneg, sq_weight_nonneg.
  - unfold get_damping_aniso_sd_par, get_damping_aniso_sd_perp in *.
    inv_bind Hp. inv_bind Hq. same_result. subst.
    eexists. split; [eassumption|].
    apply (pair_in_unit _ _ (λ k, (1 + growth) * k ^ 2) (λ m, m ^ 2)
             (λ k, k ^ 2) (λ m, 1 - m ^ 2));
      intros; eauto using par_weight_sd_nonneg, sq_weight_nonneg.
  - unfold get_damping_aniso_ss_par, get_damping_aniso_ss_perp in *.
    inv_bind Hp. inv_bind Hq. same_result. subst.
    eexists. split; [eassumption|].
    apply (pair_in_unit _ _ (λ k, k ^ 2) (λ m, m ^ 2) (λ k, k ^ 2) (λ m, 1 - m ^ 2));
      intros; eauto using sq_weight_nonneg.
Qed.

Lemma aniso_damping_in_unit_interval_witness :
  Forall (λ m, -1 <= m <= 1) [0; 1] ∧ -1 <= 1 ∧
  Forall (λ pr, ∀ par perp,
            pr.1 None = Ok par → pr.2 None = Ok perp →
            arrays.in_unit par ∧ arrays.in_unit perp)
         (methods.aniso_damping_pairs
            (examples.toy_model false false false [0%nat]) 1 0.31).
Proof.
  assert (Forall (λ m, -1 <= m <= 1) [0; 1]) as H0 by (repeat constructor; lra).
  assert (-1 <= 1) as H1 by lra.
  split; [exact H0|]. split; [exact H1|].
  eapply Forall_impl;
    [apply (aniso_damping_in_unit_interval
              (examples.toy_model false false false [0%nat]) 1 0.31 None H0 H1);
     intros key sigma [= <-]; lra|].
  intros pr H par perp Hp Hq.
  destruct (H par perp Hp Hq) as (ks & _ & _ & _ & Hpar & Hperp & _). by split.
Defined.

(** X4.  A [data_name] that is not a key of [data_dict] makes each of the
    eight anisotropic damping methods raise [KeyError] for that name, and
    an entry without ["ks_input"] makes each raise [KeyError] for
    ["ks_input"]: the wavenumbers are looked up before the damping scale,
    so the outcome does not depend on [get_pregen]. *)
Theorem unknown_data_name_raises (self : PowerSpectrumFit) (growth om : R)
    (name : string) :
  (data_dict self !! name = None →
   Forall (λ f, f (Some name) = Raise (KeyError name))
          (methods.aniso_damping_methods self growth om)) ∧
  (∀ d, data_dict self !! name = Some d → d !! "ks_input"%string = None →
   Forall (λ f, f (Some name) = Raise (KeyError "ks_input"))
          (methods.aniso_damping_methods self growth om)).
Proof.
  split.
  - intros Hn. repeat apply Forall_cons_2; [..|apply Forall_nil_2]; cbn [fst snd];
      unfold get_damping_aniso_par, get_damping_aniso_perp,
        get_damping_aniso_dd_par, get_damping_aniso_dd_perp,
        get_damping_aniso_sd_par, get_damping_aniso_sd_perp,
        get_damping_aniso_ss_par, get_damping_aniso_ss_perp, damping_ks, getitem;
      by rewrite Hn.
  - intros d Hn Hd. repeat apply Forall_cons_2; [..|apply Forall_nil_2]; cbn [fst snd];
      unfold get_damping_aniso_par, get_damping_aniso_perp,
        get_damping_aniso_dd_par, get_damping_aniso_dd_perp,
        get_damping_aniso_sd_par, get_damping_aniso_sd_perp,
        get_damping_aniso_ss_par, get_damping_aniso_ss_perp, damping_ks, getitem;
      rewrite Hn; cbn [mbind result_bind]; by rewrite Hd.
Qed.

Lemma unknown_data_name_raises_witness :
  data_dict (examples.toy_model false false false [0%nat]) !! "survey"%string = None ∧
  Forall (λ f, f (Some "survey"%string) = Raise (KeyError "survey"))
         (methods.aniso_damping_methods
            (examples.toy_model false false false [0%nat]) 1 0.31).
Proof.
  split; [reflexivity|].
  apply (proj1 (unknown_data_name_raises
                  (examples.toy_model false false false [0%nat]) 1 0.31 "survey")).
  reflexivity.
Defined.

Module lru_more.
Import lru_facts lru_wf.
Local Open Scope nat_scope.

Section Cache.
Context {K V : Type} `{EqDecision K}.
Variable maxsize : nat.
Variable f : K → result V.

Lemma run_wf keys (c : list (K * V)) :
  lru.wf maxsize f c →
  (lru.run maxsize f keys c).1 = f <$> keys ∧
  lru.wf maxsize f (lru.run maxsize f keys c).2.
Proof.
  revert c. induction keys as [|key keys IH]; intros c Hwf; [done|].
  cbn [lru.run].
  destruct (lru.call maxsize f key c) as [r c1] eqn:Hcall.
  destruct (call_wf _ _ _ _ _ _ Hwf Hcall) as [-> Hwf1].
  specialize (IH c1 Hwf1).
  destruct (lru.run maxsize f keys c1) as [rs c2]. simpl in *.
  destruct IH as [-> IH]. done.
Qed.

Lemma behind_find B key v (c : list (K * V)) :
  NoDup c.*1 → lru.behind B key v c → lru.find key c = Some v.
Proof.
  intros Hnd (pre & post & -> & _).
  rewrite fmap_app, fmap_cons in Hnd. apply NoDup_app in Hnd as (_ & Hpre & _).
  assert (key ∉ pre.*1) as Hk by (intros Hk; apply (Hpre _ Hk); left).
  clear Hpre. induction pre as [|[k' v'] pre IH]; cbn [app lru.find]; simpl.
  - by rewrite decide_True.
  - rewrite fmap_cons in Hk. apply not_elem_of_cons in Hk as [Hne Hk]. simpl in Hne.
    rewrite decide_False by congruence. by apply IH.
Qed.

Lemma call_behind B key v k (c : list (K * V)) r c' :
  NoDup B → length B < maxsize → (k ≠ key → k ∈ B) →
  lru.wf maxsize f c → lru.behind B key v c →
  lru.call maxsize f k c = (r, c') → lru.behind B key v c'.
Proof.
  intros HB Hlen Hk (Hc & Hsz & Hnd) Hb Hcall.
  pose proof (behind_find _ _ _ _ Hnd Hb) as Hfind.
  destruct Hb as (pre & post & -> & Hpre).
  unfold lru.call in Hcall.
  destruct (decide (k = key)) as [->|Hne].
  - rewrite Hfind in Hcall. injection Hcall as _ <-.
    exists [], (lru.remove key (pre ++ (key, v) :: post)). split; [done|].
    intros k' Hk'. by apply elem_of_nil in Hk'.
  - specialize (Hk Hne).
    destruct (lru.find k (pre ++ (key, v) :: post)) as [w|] eqn:Hfk.
    + injection Hcall as _ <-.
      exists ((k, w) :: lru.remove k pre), (lru.remove k post). split.
      * unfold lru.remove. rewrite filter_app, filter_cons. simpl.
        rewrite decide_True by congruence. done.
      * intros k'. rewrite fmap_cons, remove_keys. simpl.
        intros [->|[_ Hin]%list_elem_of_filter]%elem_of_cons; [done|by apply Hpre].
    + destruct (f k) as [w|e]; injection Hcall as _ <-.
      * apply find_None_keys in Hfk.
        assert (length ((k, w) :: pre) < maxsize) as Hshort.
        { rewrite <- (length_fmap fst). eapply Nat.le_lt_trans; [|exact Hlen].
          apply submseteq_length, NoDup_submseteq.
          - rewrite fmap_cons. apply NoDup_cons. split.
            + intros Hin. apply Hfk. rewrite fmap_app. apply elem_of_app. by left.
            + rewrite fmap_app in Hnd. by apply NoDup_app in Hnd as (Hnd & _).
          - intros k'. rewrite fmap_cons.
            intros [->|Hin]%elem_of_cons; [done|by apply Hpre]. }
        exists ((k, w) :: pre),
          (take (maxsize - length ((k, w) :: pre) - 1) post). split.
        -- change ((k, w) :: pre ++ (key, v) :: post)
             with (((k, w) :: pre) ++ (key, v) :: post).
           rewrite take_app, take_ge by lia.
           destruct (maxsize - length ((k, w) :: pre)) as [|n] eqn:Hn; [lia|].
           cbn [take]. do 3 f_equal. lia.
        -- intros k'. rewrite fmap_cons.
           intros [->|Hin]%elem_of_cons; [done|by apply Hpre].
      * by exists pre, post.
Qed.

Lemma run_behind B key v keys (c : list (K * V)) :
  NoDup B → length B < maxsize → (∀ k, k ∈ keys → k ≠ key → k ∈ B) →
  lru.wf maxsize f c → lru.behind B key v c →
  lru.find key (lru.run maxsize f keys c).2 = Some v.
Proof.
  intros HB Hlen. revert c. induction keys as [|k keys IH]; intros c Hin Hwf Hb.
  - simpl. destruct Hwf as (_ & _ & Hnd). by eapply behind_find.
  - cbn [lru.run].
    destruct (lru.call maxsize f k c) as [r c1] eqn:Hcall.
    assert (lru.behind B key v c1) as Hb1.
    { eapply call_behind; [done..| |done|done|done].
      intros Hne. apply Hin; [left|done]. }
    destruct (call_wf _ _ _ _ _ _ Hwf Hcall) as [_ Hwf1].
    specialize (IH c1 (λ k' Hk', Hin k' (list_elem_of_further _ _ _ Hk')) Hwf1 Hb1).
    by destruct (lru.run maxsize f keys c1) as [rs c2].
Qed.

Lemma call_ok_behind B key v (c c1 : list (K * V)) :
  0 < maxsize → lru.call maxsize f key c = (Ok v, c1) → lru.behind B key v c1.
Proof.
  intros Hpos Hcall. unfold lru.call in Hcall.
  destruct (lru.find key c) as [w|] eqn:Hfind.
  - injection Hcall as <- <-. exists [], (lru.remove key c). split; [done|].
    intros k Hk. by apply elem_of_nil in Hk.
  - destruct (f key) as [w|e]; [|done]. injection Hcall as <- <-.
    destruct maxsize as [|n]; [lia|]. cbn [take].
    exists [], (take n c). split; [done|].
    intros k Hk. by apply elem_of_nil in Hk.
Qed.
End Cache.

End lru_more.

(** X5.  A run of calls through a cache of any size returns, call by
    call, exactly what the wrapped function returns, errors included, and
    leaves a cache that holds at most [maxsize] entries, at most one per
    key, each equal to the function's value at its key. *)
Theorem lru_run_transparent {K V : Type} `{EqDecision K} (maxsize : nat)
    (f : K → result V) (keys : list K) (c : list (K * V)) :
  lru.wf maxsize f c →
  (lru.run maxsize f keys c).1 = f <$> keys ∧
  lru.wf maxsize f (lru.run maxsize f keys c).2.
Proof. apply lru_more.run_wf. Qed.

Lemma lru_run_transparent_witness :
  lru.wf 4 (λ key : R * R,
              get_damping (examples.toy_model true false false [0%nat]) key.1 key.2) [] ∧
  (lru.run 4 (λ key : R * R,
                get_damping (examples.toy_model true false false [0%nat]) key.1 key.2)
     [(1, 0.31); (2, 0.31); (1, 0.31)] []).1
  = (λ key : R * R,
       get_damping (examples.toy_model true false false [0%nat]) key.1 key.2)
    <$> [(1, 0.31); (2, 0.31); (1, 0.31)].
Proof.
  assert (lru.wf 4 (λ key : R * R,
            get_damping (examples.toy_model true false false [0%nat]) key.1 key.2) [])
    as Hwf by (split; [constructor | split; [simpl; lia | constructor]]).
  split; [exact Hwf|].
  exact (proj1 (lru_run_transparent 4 _ [(1, 0.31); (2, 0.31); (1, 0.31)] [] Hwf)).
Defined.

(** X6.  With [maxsize] entries, a value a call has returned stays in the
    cache while fewer than [maxsize] distinct other keys are called: after
    any such run of calls, whether they hit, miss or raise, a call with
    the first key is a hit that returns the stored value. *)
Theorem lru_keeps_recent {K V : Type} `{EqDecision K} (maxsize : nat)
    (f : K → result V) (key : K) (v : V) (keys : list K) (c c1 : list (K * V)) :
  lru.wf maxsize f c →
  lru.call maxsize f key c = (Ok v, c1) →
  (length (remove_dups (filter (λ k, k ≠ key) keys)) < maxsize)%nat →
  let c2 := (lru.run maxsize f keys c1).2 in
  lru.find key c2 = Some v ∧
  lru.call maxsize f key c2 = (Ok v, (key, v) :: lru.remove key c2).
Proof.
  intros Hwf Hcall Hlen c2.
  assert (lru.find key c2 = Some v) as Hfind.
  { destruct (lru_wf.call_wf _ _ _ _ _ _ Hwf Hcall) as [_ Hwf1].
    apply (lru_more.run_behind maxsize f
             (remove_dups (filter (λ k, k ≠ key) keys))); [| done | | done |].
    - apply NoDup_remove_dups.
    - intros k Hk Hne. apply elem_of_remove_dups, list_elem_of_filter. by split.
    - apply (lru_more.call_ok_behind maxsize f _ _ _ c); [lia|done]. }
  split; [done|]. by apply lru_facts.call_hit.
Qed.

Lemma lru_keeps_recent_witness :
  ∃ v c1,
    lru.call 4 (λ key : R * R,
                  get_damping (examples.toy_model true false false [0%nat]) key.1 key.2)
      (1, 0.31) [] = (Ok v, c1) ∧
    lru.find (1, 0.31)
      (lru.run 4 (λ key : R * R,
                    get_damping (examples.toy_model true false false [0%nat]) key.1 key.2)
         [(2, 0.31); (3, 0.31); (2, 0.31)] c1).2
    = Some v.
Proof.
  eexists _, _. split; [reflexivity|].
  refine (proj1 (lru_keeps_recent 4
                   (λ key : R * R,
                      get_damping (examples.toy_model true false false [0%nat])
                        key.1 key.2)
                   (1, 0.31) _ [(2, 0.31); (3, 0.31); (2, 0.31)] [] _ _ eq_refl _)).
  - split; [constructor | split; [simpl; lia | constructor]].
  - eapply Nat.le_lt_trans; [apply lru_wf.remove_dups_length|].
    eapply Nat.le_lt_trans; [apply length_filter|]. simpl. lia.
Defined.

(** X7.  In the anisotropic branch, with the damping scales precomputed
    and [kprime], the Kaiser factor [K] and (with reconstruction) the
    interpolated smoothing kernel [S] of the shape [(k, mu)] of the damping
    arrays, the propagator is returned as a 2-D array of that shape.
    Multiplied by the [K^2] that the anisotropic smooth spectrum carries,
    its entry is the isotropic prescription with the Kaiser factor
    [K - S / b + bdelta_prefac] (with reconstruction) or
    [K + bdelta_prefac] (without), [bdelta_prefac = 0.5 b_delta / b k'^2],
    applied to the combined damping entries, wherever [K] is not zero. *)
Theorem aniso_propagator_prescription (self : PowerSpectrumFit) (p : params)
    (data_name : option string) (epsilon om growth alpha b b_delta : R)
    (ks_d : list R) (kprime Kp Sp : list (list R)) (sprime : ndarray) :
  p !! "alpha"%string = Some alpha →
  p !! "b_delta"%string = Some b_delta →
  p !! "b"%string = Some b →
  damping_ks self data_name = Ok ks_d →
  arrays.rect (length ks_d) (length (mu self)) kprime →
  arrays.rect (length ks_d) (length (mu self)) Kp →
  let power_par := 1 / (alpha ^ 2 * (1 + epsilon) ^ 4) in
  let power_perp := (1 + epsilon) ^ 2 / alpha ^ 2 in
  if recon self then
    arrays.rect (length ks_d) (length (mu self)) Sp →
    is_Ok (get_pregen self "sigma_dd_nl" om) →
    is_Ok (get_pregen self "sigma_sd_nl" om) →
    is_Ok (get_pregen self "sigma_ss_nl" om) →
    ∃ Ddd Dsd Dss P,
      methods.combined_damping (get_damping_aniso_dd_par self growth om)
        (get_damping_aniso_dd_perp self om) data_name power_par power_perp
      = Ok (Arr2 Ddd) ∧
      methods.combined_damping (get_damping_aniso_sd_par self growth om)
        (get_damping_aniso_sd_perp self om) data_name power_par power_perp
      = Ok (Arr2 Dsd) ∧
      methods.combined_damping (get_damping_aniso_ss_par self om)
        (get_damping_aniso_ss_perp self om) data_name power_par power_perp
      = Ok (Arr2 Dss) ∧
      aniso_propagator self p data_name epsilon om growth kprime (Arr2 Sp) (Arr2 Kp)
      = Ok (Arr2 P) ∧
      arrays.rect (length ks_d) (length (mu self)) P ∧
      ∀ j i kp K S,
        get2 kprime j i = Some kp → get2 Kp j i = Some K → get2 Sp j i = Some S →
        K ≠ 0 →
        ∃ dd sd ss x,
          get2 Ddd j i = Some dd ∧ get2 Dsd j i = Some sd ∧ get2 Dss j i = Some ss ∧
          get2 P j i = Some x ∧
          let smooth_prefac := S / b in
          let bdelta_prefac := 0.5 * b_delta / b * kp ^ 2 in
          K ^ 2 * x
          = prescription.propagator_recon (K - smooth_prefac + bdelta_prefac)
              bdelta_prefac smooth_prefac dd sd ss
  else
    is_Ok (get_pregen self "sigma_nl" om) →
    ∃ D P,
      methods.combined_damping (get_damping_aniso_par self growth om)
        (get_damping_aniso_perp self om) data_name power_par power_perp
      = Ok (Arr2 D) ∧
      aniso_propagator self p data_name epsilon om growth kprime sprime (Arr2 Kp)
      = Ok (Arr2 P) ∧
      arrays.rect (length ks_d) (length (mu self)) P ∧
      ∀ j i kp K,
        get2 kprime j i = Some kp → get2 Kp j i = Some K → K ≠ 0 →
        ∃ d x,
          get2 D j i = Some d ∧ get2 P j i = Some x ∧
          let bdelta_prefac := 0.5 * b_delta / b * kp ^ 2 in
          K ^ 2 * x
          = prescription.propagator_norecon (K + bdelta_prefac) bdelta_prefac d.
Proof.
  intros Ha Hbd Hb Hks Hk HK pp pq.
  apply rect_mat in Hk, HK.
  destruct (recon self) eqn:Hrec.
  - intros HS [sdd Hdd] [ssd Hsd] [sss Hss]. apply rect_mat in HS.
    unfold methods.combined_damping, aniso_propagator,
      get_damping_aniso_dd_par, get_damping_aniso_dd_perp,
      get_damping_aniso_sd_par, get_damping_aniso_sd_perp,
      get_damping_aniso_ss_par, get_damping_aniso_ss_perp.
    rewrite Hrec, Hks, Hdd, Hsd, Hss. getitems. fold pp pq.
    rewrite !exp_damp_outer, !aniso_damping_mat.
    cbn [mbind result_bind].
    rewrite Hk, HK, HS. unfold sq, div. rewrite !map_mat. mat_eval.
    do 4 eexists. split_and!; try reflexivity; [apply mat_rect|].
    intros j i kp K S (Hj & Hi & ->)%get2_mat_inv (_ & _ & ->)%get2_mat_inv
      (_ & _ & ->)%get2_mat_inv HK0.
    do 4 eexists. rewrite !get2_mat by done. split_and!; try reflexivity.
    cbv zeta. unfold prescription.propagator_recon, Rdiv. rewrite !Rinv_mult.
    generalize (/ b). intros ib. field. exact HK0.
  - intros [s Hs].
    unfold methods.combined_damping, aniso_propagator,
      get_damping_aniso_par, get_damping_aniso_perp.
    rewrite Hrec, Hks, Hs. getitems. fold pp pq.
    rewrite !exp_damp_outer, !aniso_damping_mat.
    cbn [mbind result_bind].
    rewrite Hk, HK. unfold sq. rewrite !map_mat. mat_eval.
    do 2 eexists. split_and!; try reflexivity; [apply mat_rect|].
    intros j i kp K (Hj & Hi & ->)%get2_mat_inv (_ & _ & ->)%get2_mat_inv HK0.
    do 2 eexists. rewrite !get2_mat by done. split_and!; try reflexivity.
    cbv zeta. unfold prescription.propagator_norecon, Rdiv. rewrite !Rinv_mult.
    generalize (/ b). intros ib. field. exact HK0.
Qed.

Lemma aniso_propagator_prescription_witness :
  arrays.rect 2 2 [[1; 1]; [2; 2]] ∧
  ∃ P, aniso_propagator (examples.toy_model false true false [0%nat])
         examples.toy_params None 0 0.31 0.5 [[1; 1]; [2; 2]]
         (Arr2 [[0.5; 0.5]; [0.25; 0.25]]) (Arr2 [[1; 1.5]; [1; 1.5]])
       = Ok (Arr2 P) ∧
       arrays.rect 2 2 P.
Proof.
  assert (∀ a b c d : R, arrays.rect 2 2 [[a; b]; [c; d]]) as Hrect
    by (intros; split; [reflexivity | repeat constructor]).
  split; [apply Hrect|].
  pose proof (aniso_propagator_prescription
                (examples.toy_model false true false [0%nat])
                examples.toy_params None 0 0.31 0.5 1 1 0 [1; 2]
                [[1; 1]; [2; 2]] [[1; 1.5]; [1; 1.5]] [[0.5; 0.5]; [0.25; 0.25]]
                (Scalar 0) eq_refl eq_refl eq_refl eq_refl
                (Hrect _ _ _ _) (Hrect _ _ _ _)) as H.
  destruct (H (Hrect _ _ _ _) (ex_intro _ 1 eq_refl) (ex_intro _ 1 eq_refl)
              (ex_intro _ 1 eq_refl))
    as (Ddd & Dsd & Dss & P & _ & _ & _ & HP & HrP & _).
  exists P. split; [exact HP | exact HrP].
Defined.

Module params_more.
Import PowerDing2018.

Lemma getitem_agree (p p' : params) key :
  p !! key = p' !! key → getitem p key = getitem p' key.
Proof. unfold getitem. by intros ->. Qed.

Ltac key_in H :=
  apply H; vm_compute;
  repeat first [apply list_elem_of_here | apply list_elem_of_further].

End params_more.

(** X8.  With [for_corr=True] the evaluation depends on the parameter
    dictionary only through the keys it looks up: two dictionaries that
    agree on them give the same outcome, values and exceptions alike.  In
    particular an isotropic correlation-function evaluation never depends
    on ["alpha"] or ["epsilon"], and no such evaluation depends on a
    polynomial amplitude. *)
Theorem for_corr_reads_only (round : R → nat → R) (sp : Scipy) (self : PowerSpectrumFit)
    (k : list R) (p p' : params) (smooth : bool) (data_name : option string) :
  (∀ key, key ∈ methods.read_keys self smooth true → p !! key = p' !! key) →
  compute_power_spectrum round sp self k p smooth true data_name
  = compute_power_spectrum round sp self k p' smooth true data_name.
Proof.
  unfold methods.read_keys, compute_power_spectrum, basic_components,
    effective_params, compute_isotropic, compute_anisotropic, iso_propagator,
    aniso_propagator, round_om_growth, iso_bdelta_prefac.
  destruct (kvals self), (pksmooth self), (pkratio self), (isotropic self), smooth;
    intros H; cbv beta iota; cbn [mbind result_bind];
    rewrite ?(params_more.getitem_agree p p' "om") by params_more.key_in H;
    rewrite ?(params_more.getitem_agree p p' "alpha") by params_more.key_in H;
    rewrite ?(params_more.getitem_agree p p' "epsilon") by params_more.key_in H;
    rewrite ?(params_more.getitem_agree p p' "sigma_s") by params_more.key_in H;
    rewrite ?(params_more.getitem_agree p p' "b") by params_more.key_in H;
    rewrite ?(params_more.getitem_agree p p' "beta") by params_more.key_in H;
    rewrite ?(params_more.getitem_agree p p' "b_delta") by params_more.key_in H;
    reflexivity.
Qed.

Lemma for_corr_reads_only_witness :
  compute_power_spectrum examples.round examples.toy_scipy
    (examples.toy_model true false false [0%nat]) [1; 2]
    examples.toy_params false true None
  = compute_power_spectrum examples.round examples.toy_scipy
      (examples.toy_model true false false [0%nat]) [1; 2]
      (<["a{0}_1_{1}"%string := 7]> examples.toy_params) false true None.
Proof.
  apply for_corr_reads_only. intros key Hkey.
  rewrite lookup_insert_ne; [done|]. intros <-.
  vm_compute in Hkey.
  repeat (apply elem_of_cons in Hkey as [Hkey|Hkey]; [discriminate Hkey|]).
  by apply elem_of_nil in Hkey.
Defined.

Module keys_more.
Import PowerDing2018.

Lemma getitem_bind_inv {B} (p : params) key (f : R → result B) r :
  getitem p key ≫= f = Ok r → is_Some (p !! key) ∧ ∃ v, f v = Ok r.
Proof.
  intros (v & Hv%getitem_Ok & Hf)%bind_Ok_inv. split; [by exists v|by exists v].
Qed.

(** Collect the lookups of a returning chain of steps. *)
Ltac lookups :=
  repeat match goal with
  | H : getitem _ _ ≫= _ = Ok _ |- _ =>
      let Hk := fresh "Hkey" in
      apply getitem_bind_inv in H as (Hk & ? & H)
  | H : _ ≫= _ = Ok _ |- _ =>
      let Hx := fresh "Hx" in
      apply bind_Ok_inv in H as (? & Hx & H)
  | H : _ <$> _ = Ok _ |- _ =>
      let Hx := fresh "Hx" in
      apply fmap_Ok_inv in H as (? & Hx & H)
  | H : (let '(_, _) := ?x in _) = Ok _ |- _ => destruct x
  end.

End keys_more.

(** X9.  An evaluation that returns has found in [p] every key of its
    branch: whenever [p] is evaluated as it is (with [for_corr=True], or
    with ["b"] present), each of the keys looked up is a key of [p]; a
    missing one makes the evaluation raise. *)
Theorem returning_evaluation_has_keys (round : R → nat → R) (sp : Scipy) (self : PowerSpectrumFit)
    (k : list R) (p : params) (smooth for_corr : bool) (data_name : option string)
    (r : ndarray * list ndarray * option (list ndarray)) :
  for_corr = true ∨ is_Some (p !! "b"%string) →
  compute_power_spectrum round sp self k p smooth for_corr data_name = Ok r →
  Forall (λ key, is_Some (p !! key)) (methods.read_keys self smooth for_corr).
Proof.
  intros Hp H. unfold compute_power_spectrum in H.
  apply bind_Ok_inv in H as ([[ks psl] pr] & Hbc & H).
  apply bind_Ok_inv in H as (p' & Hp' & H).
  assert (p' = p) as ->.
  { unfold effective_params in Hp'. destruct Hp as [->|Hb]; [by injection Hp'|].
    destruct for_corr; [by injection Hp'|].
    rewrite decide_True in Hp' by done. by injection Hp'. }
  clear Hp Hp'. unfold methods.read_keys. apply Forall_app. split.
  - unfold basic_components in Hbc.
    destruct (kvals self), (pksmooth self), (pkratio self);
      first [apply Forall_nil_2
            | apply keys_more.getitem_bind_inv in Hbc as [Hom _];
              by apply Forall_singleton].
  - clear Hbc.
    unfold compute_isotropic, compute_anisotropic, iso_propagator,
      aniso_propagator, round_om_growth, iso_bdelta_prefac in H.
    destruct (isotropic self), smooth, for_corr, (recon self);
      cbv beta iota zeta in H; keys_more.lookups;
      cbn [app]; repeat apply Forall_cons_2; first [assumption | apply Forall_nil_2].
Qed.

Lemma returning_evaluation_has_keys_witness :
  ∃ r, compute_power_spectrum examples.round examples.toy_scipy
         (examples.toy_model false true false [0; 2]%nat)
         [1; 2] examples.toy_params false false None = Ok r ∧
       Forall (λ key, is_Some (examples.toy_params !! key))
         (methods.read_keys (examples.toy_model false true false [0; 2]%nat)
            false false).
Proof.
  assert (∃ r, compute_power_spectrum examples.round examples.toy_scipy
                 (examples.toy_model false true false [0; 2]%nat)
                 [1; 2] examples.toy_params false false None = Ok r)
    as [r Hr] by (eexists; reflexivity).
  exists r. split; [exact Hr|].
  refine (returning_evaluation_has_keys examples.round examples.toy_scipy _ [1; 2] _ _ _ None r
            _ Hr).
  right. by eexists.
Defined.

Module declare_more.
Import model.
Local Open Scope nat_scope.

(** A declared parameter whose bounds are ordered and contain the
    default. *)
Lemma add_param_app name label lo hi d ps :
  add_param name label lo hi d ps
  = ps ++ [{| p_name := name; p_label := label; p_min := lo; p_max := hi;
              p_default := d |}].
Proof. done. Qed.

(** A loop whose every round appends [c] parameters satisfying [P]. *)
Lemma foldl_appends {A} (P : Param → Prop) (step : list Param → A → list Param)
    (c : nat) (xs : list A) (ps : list Param) :
  (∀ ps x, ∃ l, step ps x = ps ++ l ∧ length l = c ∧ Forall P l) →
  ∃ l, foldl step ps xs = ps ++ l ∧ length l = length xs * c ∧ Forall P l.
Proof.
  intros Hstep. revert ps. induction xs as [|x xs IH]; intros ps; cbn [foldl].
  - exists []. by rewrite app_nil_r.
  - destruct (Hstep ps x) as (l1 & -> & Hl1 & HP1).
    destruct (IH (ps ++ l1)) as (l2 & -> & Hl2 & HP2).
    exists (l1 ++ l2). rewrite <- app_assoc. split; [done|]. split.
    + rewrite length_app. simpl. lia.
    + by apply Forall_app.
Qed.

End declare_more.

(** X10.  For an [n_poly] the constructor accepts (0, 3 or 5),
    [declare_parameters] keeps what the base class declared and appends
    ["beta"], ["sigma_s"], ["b_delta"] and then exactly
    [n_data_poly * len(poly_poles) * n_poly] polynomial amplitudes; every
    appended parameter has a lower bound below its upper bound and a
    default between them, and every amplitude has default zero. *)
Theorem ding_declared_parameters (self : PowerSpectrumFit)
    (super_params : list model.Param) :
  n_poly self ∈ [0; 3; 5]%Z →
  ∃ added,
    PowerDing2018.declare_parameters self super_params = super_params ++ added ∧
    model.p_name <$> take 3 added = ["beta"; "sigma_s"; "b_delta"]%string ∧
    length (drop 3 added)
    = (n_data_poly self * (length (poly_poles self) * Z.to_nat (n_poly self)))%nat ∧
    Forall (λ q, model.p_min q < model.p_max q ∧
                 model.p_min q <= model.p_default q <= model.p_max q) added ∧
    Forall (λ q, model.p_default q = 0) (drop 3 added).
Proof.
  intros Hn. unfold PowerDing2018.declare_parameters. cbv zeta.
  set (P := λ q : model.Param,
              (model.p_min q < model.p_max q ∧
               model.p_min q <= model.p_default q <= model.p_max q) ∧
              model.p_default q = 0).
  assert (∀ i ps pole, ∃ l,
            PowerDing2018.declare_poly (n_poly self) i pole ps = ps ++ l ∧
            length l = Z.to_nat (n_poly self) ∧ Forall P l) as Hpoly.
  { intros i ps pole. unfold PowerDing2018.declare_poly. cbv zeta.
    rewrite !declare_more.add_param_app.
    apply elem_of_cons in Hn as [->|Hn];
      [|apply elem_of_cons in Hn as [->|Hn];
        [|apply elem_of_cons in Hn as [->|Hn]; [|by apply elem_of_nil in Hn]]].
    - repeat case_decide; try lia.
      exists []. by rewrite app_nil_r.
    - repeat case_decide; try lia.
      rewrite <- !app_assoc. eexists. split; [reflexivity|]. split; [reflexivity|].
      repeat apply Forall_cons_2; [..|apply Forall_nil_2]; unfold P; simpl; lra.
    - repeat case_decide; try lia.
      rewrite <- !app_assoc. eexists. split; [reflexivity|]. split; [reflexivity|].
      repeat apply Forall_cons_2; [..|apply Forall_nil_2]; unfold P; simpl; lra. }
  rewrite !declare_more.add_param_app, <- !app_assoc. cbn [app].
  edestruct (declare_more.foldl_appends P
               (λ params i,
                  foldl (λ params pole,
                           PowerDing2018.declare_poly (n_poly self) i pole params)
                        params (poly_poles self))
               (length (poly_poles self) * Z.to_nat (n_poly self))
               (seq 0 (n_data_poly self))) as (l & -> & Hlen & HP).
  { intros ps i. apply declare_more.foldl_appends. intros ps' pole. apply Hpoly. }
  rewrite <- app_assoc. cbn [app]. eexists. split; [reflexivity|].
  cbn [take drop fmap list_fmap]. rewrite !drop_0. split; [reflexivity|].
  split; [by rewrite Hlen, length_seq|]. split.
  - repeat apply Forall_cons_2; [simpl; lra..|].
    eapply Forall_impl; [exact HP|]. by intros q [Hq _].
  - eapply Forall_impl; [exact HP|]. by intros q [_ Hq].
Qed.

Lemma ding_declared_parameters_witness :
  n_poly (examples.toy_model false false false [0; 2]%nat) ∈ [0; 3; 5]%Z ∧
  ∃ added,
    PowerDing2018.declare_parameters
      (examples.toy_model false false false [0; 2]%nat) []
    = added ∧ length (drop 3 added) = 10%nat.
Proof.
  assert (n_poly (examples.toy_model false false false [0; 2]%nat) ∈ [0; 3; 5]%Z)
    as Hn by (right; right; left).
  split; [exact Hn|].
  destruct (ding_declared_parameters
              (examples.toy_model false false false [0; 2]%nat) [] Hn)
    as (added & Hadd & _ & Hlen & _).
  exists added. split; [exact Hadd | exact Hlen].
Defined.

Module corr_more.
Import model CorrSeo2016 corr_facts.

Section Class.
Context {PowerSeo2016 : Type}.

Lemma set_default_returns name v ps :
  name ∈ p_name <$> ps → ∃ ps', set_default name v ps = Ok ps'.
Proof. intros Hin. unfold set_default. rewrite decide_True by done. by eexists. Qed.

(** The three [set_default] calls of one pole go through when its
    amplitudes are declared, and touch nothing but default values. *)
Lemma default_pole_returns (self : Instance PowerSeo2016) pole :
  (∀ name, name ∈ poly_names pole → name ∈ p_name <$> params _ self) →
  ∃ self', default_pole _ self pole = Ok self' ∧
    parent _ self' = parent _ self ∧ marg _ self' = marg _ self ∧
    poly_poles _ self' = poly_poles _ self ∧
    fix_params _ self' = fix_params _ self ∧
    p_name <$> params _ self' = p_name <$> params _ self.
Proof.
  intros Hin. unfold default_pole.
  destruct (set_default_returns ("a{" +:+ str pole +:+ "}_1") 0%R (params _ self))
    as [ps1 H1]; [apply Hin; left|].
  rewrite H1. cbn [mbind result_bind].
  pose proof (set_default_names _ _ _ _ H1) as Hn1.
  destruct (set_default_returns ("a{" +:+ str pole +:+ "}_2") 0%R ps1)
    as [ps2 H2]; [rewrite Hn1; apply Hin; right; left|].
  rewrite H2. cbn [mbind result_bind].
  pose proof (set_default_names _ _ _ _ H2) as Hn2.
  destruct (set_default_returns ("a{" +:+ str pole +:+ "}_3") 0%R ps2)
    as [ps3 H3]; [rewrite Hn2, Hn1; apply Hin; right; right; left|].
  rewrite H3. cbn [mbind result_bind].
  pose proof (set_default_names _ _ _ _ H3) as Hn3.
  eexists. split; [reflexivity|]. cbn [parent marg poly_poles fix_params params with_params].
  split_and!; try done. congruence.
Qed.

Lemma foldM_default_pole_returns poles (self : Instance PowerSeo2016) :
  (∀ name, name ∈ poles ≫= poly_names → name ∈ p_name <$> params _ self) →
  ∃ self', foldM (default_pole _) self poles = Ok self' ∧
    parent _ self' = parent _ self ∧ marg _ self' = marg _ self ∧
    poly_poles _ self' = poly_poles _ self ∧
    fix_params _ self' = fix_params _ self ∧
    p_name <$> params _ self' = p_name <$> params _ self.
Proof.
  revert self. induction poles as [|pole poles IH]; intros self Hin; cbn [foldM].
  - by eexists.
  - destruct (default_pole_returns self pole) as (self1 & -> & Hpa & Hm & Hp & Hf & Hn).
    { intros name Hname. apply Hin. rewrite bind_cons. apply elem_of_app. by left. }
    cbn [mbind result_bind].
    destruct (IH self1) as (self' & -> & Hpa' & Hm' & Hp' & Hf' & Hn').
    { intros name Hname. rewrite Hn. apply Hin. rewrite bind_cons.
      apply elem_of_app. by right. }
    exists self'. split; [done|]. split_and!; congruence.
Qed.
End Class.

End corr_more.

(** X11.  Once the base constructor has returned, the constructor of
    [CorrSeo2016] raises exactly when the [PowerSeo2016] constructor of its
    parent raises, and with the same exception: the [set_default] calls
    never fail, because the amplitudes they name are the ones
    [declare_parameters] has declared for the same poles.  When it
    returns, the instance keeps that parent, the poles ([[0]] if
    isotropic) and the fixed parameters (extended by the amplitude names
    when a marginalization mode is given), and the names it has declared
    are those the base constructor left: what
    [super().declare_parameters()] declares for the instance as set up,
    then [b], [beta], [sigma_s] and three amplitudes per pole. *)
Theorem corr_init_outcome {PowerSeo2016 : Type}
    (PowerSeo2016_init :
       list string → option string → option string → bool → option string → bool →
       option string → result PowerSeo2016)
    (super_declared : CorrSeo2016.Instance PowerSeo2016 → list model.Param)
    (args : CorrSeo2016.InitArgs) (self : CorrSeo2016.Instance PowerSeo2016) :
  let poles := if CorrSeo2016.arg_isotropic args then [0%nat]
               else CorrSeo2016.arg_poly_poles args in
  let fixed :=
    match CorrSeo2016.arg_marg args with
    | Some _ => CorrSeo2016.arg_fix_params args ++ (poles ≫= CorrSeo2016.poly_names)
    | None => CorrSeo2016.arg_fix_params args
    end in
  let self0 : CorrSeo2016.Instance PowerSeo2016 :=
    {| CorrSeo2016.recon_smoothing_scale := None;
       CorrSeo2016.isotropic := CorrSeo2016.arg_isotropic args;
       CorrSeo2016.marg :=
         bool_decide (CorrSeo2016.arg_marg args = Some "full"%string
                      ∨ CorrSeo2016.arg_marg args = Some "partial"%string);
       CorrSeo2016.poly_poles := poles;
       CorrSeo2016.fix_params := fixed;
       CorrSeo2016.params := [];
       CorrSeo2016.parent := None |} in
  CorrSeo2016.CorrelationFunctionFit_init _ super_declared None
    (CorrSeo2016.arg_name args) fixed (CorrSeo2016.arg_smooth_type args)
    (CorrSeo2016.arg_smooth args) (CorrSeo2016.arg_correction args)
    (CorrSeo2016.arg_isotropic args) poles (CorrSeo2016.arg_marg args) = Ok self →
  match PowerSeo2016_init fixed (CorrSeo2016.arg_smooth_type args)
          (CorrSeo2016.arg_recon args) (CorrSeo2016.arg_smooth args)
          (CorrSeo2016.arg_correction args) (CorrSeo2016.arg_isotropic args)
          (CorrSeo2016.arg_marg args) with
  | Raise e => CorrSeo2016.init _ PowerSeo2016_init super_declared args = Raise e
  | Ok m =>
      ∃ inst,
        CorrSeo2016.init _ PowerSeo2016_init super_declared args = Ok inst ∧
        CorrSeo2016.parent _ inst = Some m ∧
        CorrSeo2016.poly_poles _ inst = poles ∧
        CorrSeo2016.fix_params _ inst = fixed ∧
        model.p_name <$> CorrSeo2016.params _ inst
        = model.p_name <$> CorrSeo2016.params _ self ∧
        model.p_name <$> CorrSeo2016.params _ inst
        = (model.p_name <$> super_declared self0)
          ++ ["b"; "beta"; "sigma_s"]%string ++ (poles ≫= CorrSeo2016.poly_names)
  end.
Proof.
  intros poles fixed self0 Hbase. unfold CorrSeo2016.init. fold poles. fold fixed.
  cbv zeta. rewrite Hbase. cbn [mbind result_bind].
  unfold CorrSeo2016.CorrelationFunctionFit_init in Hbase. injection Hbase as <-.
  fold self0.
  destruct (PowerSeo2016_init _ _ _ _ _ _ _) as [m|e]; cbn [mbind result_bind]; [|done].
  pose proof (corr_facts.declare_parameters_names super_declared self0) as Hnames.
  set (self := CorrSeo2016.declare_parameters _ super_declared self0) in *.
  cbn [CorrSeo2016.marg CorrSeo2016.poly_poles CorrSeo2016.with_parent
       CorrSeo2016.declare_parameters CorrSeo2016.with_params].
  change (CorrSeo2016.poly_poles _ self0) with poles in *.
  change (CorrSeo2016.params _ self0) with (@nil model.Param) in Hnames.
  rewrite app_nil_l in Hnames.
  destruct (CorrSeo2016.marg _ self).
  - destruct (corr_more.foldM_default_pole_returns poles
                (CorrSeo2016.with_parent _ self m))
      as (inst & Hinst & Hpa & _ & Hp & Hf & Hn).
    { intros name Hname. cbn [CorrSeo2016.params CorrSeo2016.with_parent].
      rewrite Hnames. rewrite !elem_of_app. by do 2 right. }
    exists inst. split; [exact Hinst|]. rewrite Hpa, Hp, Hf, Hn.
    split_and!; try done.
  - exists (CorrSeo2016.with_parent _ self m). split_and!; try done.
Qed.

Lemma corr_init_outcome_witness :
  ∃ inst,
    CorrSeo2016.init unit examples.toy_parent_init examples.toy_super_declared
      (examples.toy_corr_args false [0; 2]%nat (Some "full"%string)) = Ok inst ∧
    CorrSeo2016.poly_poles _ inst = [0; 2]%nat ∧
    model.p_name <$> CorrSeo2016.params _ inst
    = ["om"; "alpha"; "b"; "beta"; "sigma_s";
       "a{0}_1"; "a{0}_2"; "a{0}_3"; "a{2}_1"; "a{2}_2"; "a{2}_3"]%string.
Proof.
  destruct (corr_init_outcome examples.toy_parent_init examples.toy_super_declared
              (examples.toy_corr_args false [0; 2]%nat (Some "full"%string))
              _ eq_refl)
    as (inst & Hinst & _ & Hp & _ & _ & Hn).
  exists inst. split; [exact Hinst|]. split; [exact Hp | exact Hn].
Defined.

Module precompute_more.
Import PowerDing2018.

(** Element-wise operations on 1-D arrays over one index range. *)
Lemma map_vec (f : R → R) (g : nat → R) (l : list nat) :
  np.map f (Arr1 (g <$> l)) = Arr1 ((λ i, f (g i)) <$> l).
Proof. cbn [np.map]. by rewrite <- list_fmap_compose. Qed.

Lemma binop_vec (f : R → R → R) (g h : nat → R) (l : list nat) :
  binop f (Arr1 (g <$> l)) (Arr1 (h <$> l)) = Ok (Arr1 ((λ i, f (g i) (h i)) <$> l)).
Proof. cbn [binop]. by rewrite zip_bcast_pure_seq. Qed.

Lemma replicate_vec (x : R) n s : replicate n x = (λ _, x) <$> seq s n.
Proof.
  revert s. induction n as [|n IH]; intros s; [done|].
  cbn [replicate seq]. rewrite fmap_cons. f_equal. apply IH.
Qed.

Lemma as_vec (v : list R) n :
  length v = n → ∃ g : nat → R, v = g <$> seq 0 n.
Proof. intros <-. exists (λ i, nth i v 0). apply seq_nth_id. Qed.

Ltac vec_eval :=
  unfold np.lift2, add, sub, mul;
  cbn [mbind result_bind fmap result_fmap];
  repeat (rewrite ?map_vec; rewrite binop_vec;
          cbn [mbind result_bind fmap result_fmap]);
  rewrite ?map_vec.

End precompute_more.

(** X12.  On a provider whose smoothing kernel and linear spectrum sit on
    the grid of its data, replacing the kernel [S] by [1 - S] leaves
    [sigma_nl] and [sigma_sd_nl] as they were and swaps [sigma_dd_nl] with
    [sigma_ss_nl]: [precompute] returns again, with the same four
    integrals under exchanged names. *)
Theorem precompute_kernel_symmetry (sp : Scipy) (jn : Z → R → R)
    (get_data : CambGenerator → R → R → result PowerDing2018.CambData)
    (camb : CambGenerator) (om h0 : R) (c : PowerDing2018.CambData)
    (d : gmap string ndarray) :
  let camb' := {| camb_ks := camb_ks camb;
                  camb_smoothing_kernel :=
                    (λ s, 1 - s) <$> camb_smoothing_kernel camb |} in
  get_data camb om h0 = Ok c →
  get_data camb' om h0 = Ok c →
  length (PowerDing2018.pk_lin c) = length (PowerDing2018.data_ks c) →
  length (camb_smoothing_kernel camb) = length (PowerDing2018.data_ks c) →
  PowerDing2018.precompute sp jn get_data camb om h0 = Ok d →
  ∃ d', PowerDing2018.precompute sp jn get_data camb' om h0 = Ok d' ∧
    d' !! "sigma_nl"%string = d !! "sigma_nl"%string ∧
    d' !! "sigma_dd_nl"%string = d !! "sigma_ss_nl"%string ∧
    d' !! "sigma_ss_nl"%string = d !! "sigma_dd_nl"%string ∧
    d' !! "sigma_sd_nl"%string = d !! "sigma_sd_nl"%string.
Proof.
  intros camb' Hc Hc' Hpk Hs H.
  unfold PowerDing2018.precompute, PowerDing2018.sigma_integral in *.
  rewrite Hc in H. rewrite Hc'. cbn [mbind result_bind] in *. cbv zeta in *.
  cbn [camb_smoothing_kernel camb'] in *.
  revert H.
  destruct (precompute_more.as_vec (PowerDing2018.pk_lin c) _ Hpk) as [pk ->].
  destruct (precompute_more.as_vec (camb_smoothing_kernel camb) _ Hs) as [S ->].
  destruct (precompute_more.as_vec (PowerDing2018.data_ks c) _ eq_refl) as [kf Hk].
  set (n := length (PowerDing2018.data_ks c)) in *. clearbody n. rewrite Hk.
  rewrite <- !list_fmap_compose.
  precompute_more.vec_eval. unfold compose. cbv beta.
  generalize (PowerDing2018.r_s c). intros r.
  assert ((λ i, pk i * (1 - (1 - S i)) ^ 2 * (1 - jn 0%Z (r * kf i))) <$> seq 0 n
          = (λ i, pk i * S i ^ 2 * (1 - jn 0%Z (r * kf i))) <$> seq 0 n) as ->
    by (apply list_fmap_ext; intros; ring).
  assert ((λ i, pk i * (0.5 * ((1 - S i) ^ 2 + (1 - (1 - S i)) ^ 2)
                        + jn 0%Z (r * kf i) * (1 - S i) * (1 - (1 - S i)))) <$> seq 0 n
          = (λ i, pk i * (0.5 * (S i ^ 2 + (1 - S i) ^ 2)
                          + jn 0%Z (r * kf i) * S i * (1 - S i))) <$> seq 0 n) as ->
    by (apply list_fmap_ext; intros; ring).
  intros H. inv_bind H. subst d.
  repeat match goal with
  | Hx : ?m = Ok _ |- context [?m] => rewrite Hx; clear Hx
  end.
  cbn [mbind result_bind].
  eexists. split; [reflexivity|].
  split_and!; by simplify_map_eq.
Qed.

Lemma precompute_kernel_symmetry_witness :
  ∃ d d',
    PowerDing2018.precompute examples.toy_scipy examples.toy_jn examples.toy_get_data
      (camb (examples.toy_model true true false [0%nat])) 0.31 0.68 = Ok d ∧
    PowerDing2018.precompute examples.toy_scipy examples.toy_jn examples.toy_get_data
      {| camb_ks := [1; 2]; camb_smoothing_kernel := [1 - 0.5; 1 - 0.25] |} 0.31 0.68
    = Ok d' ∧
    d' !! "sigma_dd_nl"%string = d !! "sigma_ss_nl"%string.
Proof.
  assert (∃ d, PowerDing2018.precompute examples.toy_scipy examples.toy_jn
                 examples.toy_get_data
                 (camb (examples.toy_model true true false [0%nat])) 0.31 0.68 = Ok d)
    as [d Hd] by (eexists; reflexivity).
  destruct (precompute_kernel_symmetry examples.toy_scipy examples.toy_jn
              examples.toy_get_data
              (camb (examples.toy_model true true false [0%nat])) 0.31 0.68
              _ d eq_refl eq_refl eq_refl eq_refl Hd)
    as (d' & Hd' & _ & Hdd & _).
  exists d, d'. split; [exact Hd|]. split; [exact Hd' | exact Hdd].
Defined.

(** X13.  The dictionary [precompute] returns has exactly the four keys
    the damping methods ask [get_pregen] for.  With the linear spectrum on
    the grid of the data, a smoothing kernel that is zero throughout makes
    [sigma_dd_nl] equal to [sigma_nl], and one that is one throughout
    makes [sigma_ss_nl] equal to [sigma_nl]. *)
Theorem precompute_limits (sp : Scipy) (jn : Z → R → R)
    (get_data : CambGenerator → R → R → result PowerDing2018.CambData)
    (camb : CambGenerator) (om h0 : R) (c : PowerDing2018.CambData)
    (d : gmap string ndarray) :
  get_data camb om h0 = Ok c →
  length (PowerDing2018.pk_lin c) = length (PowerDing2018.data_ks c) →
  PowerDing2018.precompute sp jn get_data camb om h0 = Ok d →
  (∀ key, is_Some (d !! key) ↔
          key ∈ ["sigma_nl"; "sigma_dd_nl"; "sigma_sd_nl"; "sigma_ss_nl"]%string) ∧
  (camb_smoothing_kernel camb = zeros (length (PowerDing2018.data_ks c)) →
   d !! "sigma_dd_nl"%string = d !! "sigma_nl"%string) ∧
  (camb_smoothing_kernel camb = ones (length (PowerDing2018.data_ks c)) →
   d !! "sigma_ss_nl"%string = d !! "sigma_nl"%string).
Proof.
  intros Hc Hpk H. split; [|split].
  - unfold PowerDing2018.precompute in H. rewrite Hc in H.
    cbn [mbind result_bind] in H. cbv zeta in H. inv_bind H. subst d.
    intros key. rewrite !lookup_insert_is_Some, lookup_empty, !elem_of_cons,
      elem_of_nil. split.
    + intros [->|[_ [->|[_ [->|[_ [->|[_ []%is_Some_None]]]]]]]]; tauto.
    + intros [->|[->|[->|[->|[]]]]].
      * do 3 (right; split; [done|]). by left.
      * do 2 (right; split; [done|]). by left.
      * right. split; [done|]. by left.
      * by left.
  - intros Hs. revert H.
    unfold PowerDing2018.precompute, PowerDing2018.sigma_integral.
    rewrite Hc. cbn [mbind result_bind]. cbv zeta. rewrite Hs. unfold zeros.
    destruct (precompute_more.as_vec (PowerDing2018.pk_lin c) _ Hpk) as [pk ->].
    destruct (precompute_more.as_vec (PowerDing2018.data_ks c) _ eq_refl) as [kf Hk].
    set (n := length (PowerDing2018.data_ks c)) in *. clearbody n. rewrite Hk.
    rewrite (precompute_more.replicate_vec 0 n 0), <- !list_fmap_compose.
    precompute_more.vec_eval. unfold compose. cbv beta.
    generalize (PowerDing2018.r_s c). intros r.
    assert ((λ i, pk i * (1 - 0) ^ 2 * (1 - jn 0%Z (r * kf i))) <$> seq 0 n
            = (λ i, pk i * (1 - jn 0%Z (r * kf i))) <$> seq 0 n) as ->
      by (apply list_fmap_ext; intros; ring).
    intros H. inv_bind H. subst d. same_result. by simplify_map_eq.
  - intros Hs. revert H.
    unfold PowerDing2018.precompute, PowerDing2018.sigma_integral.
    rewrite Hc. cbn [mbind result_bind]. cbv zeta. rewrite Hs. unfold ones.
    destruct (precompute_more.as_vec (PowerDing2018.pk_lin c) _ Hpk) as [pk ->].
    destruct (precompute_more.as_vec (PowerDing2018.data_ks c) _ eq_refl) as [kf Hk].
    set (n := length (PowerDing2018.data_ks c)) in *. clearbody n. rewrite Hk.
    rewrite (precompute_more.replicate_vec 1 n 0), <- !list_fmap_compose.
    precompute_more.vec_eval. unfold compose. cbv beta.
    generalize (PowerDing2018.r_s c). intros r.
    assert ((λ i, pk i * 1 ^ 2 * (1 - jn 0%Z (r * kf i))) <$> seq 0 n
            = (λ i, pk i * (1 - jn 0%Z (r * kf i))) <$> seq 0 n) as ->
      by (apply list_fmap_ext; intros; ring).
    intros H. inv_bind H. subst d. same_result. by simplify_map_eq.
Qed.

Lemma precompute_limits_witness :
  ∃ d,
    PowerDing2018.precompute examples.toy_scipy examples.toy_jn examples.toy_get_data
      {| camb_ks := [1; 2]; camb_smoothing_kernel := zeros 2 |} 0.31 0.68 = Ok d ∧
    d !! "sigma_dd_nl"%string = d !! "sigma_nl"%string.
Proof.
  assert (∃ d, PowerDing2018.precompute examples.toy_scipy examples.toy_jn
                 examples.toy_get_data
                 {| camb_ks := [1; 2]; camb_smoothing_kernel := zeros 2 |} 0.31 0.68
               = Ok d)
    as [d Hd] by (eexists; reflexivity).
  exists d. split; [exact Hd|].
  exact (proj1 (proj2 (precompute_limits examples.toy_scipy examples.toy_jn
                         examples.toy_get_data
                         {| camb_ks := [1; 2]; camb_smoothing_kernel := zeros 2 |}
                         0.31 0.68 _ d eq_refl eq_refl Hd)) eq_refl).
Defined.

(** X14.  Without [for_corr] the wavenumbers returned are the input grid
    divided by ["alpha"] of the effective parameters ([p] itself when it
    holds ["b"], else what [deal_with_ndata(p, 0)] returns): [k / alpha]
    in the isotropic branch, the outer product of [k / alpha] with
    [get_kprimefac] at the rounded ["epsilon"] in the anisotropic one;
    and the polynomial terms are present. *)
Theorem dilated_wavenumbers (round : R → nat → R) (sp : Scipy) (self : PowerSpectrumFit)
    (k : list R) (p : params) (smooth : bool) (data_name : option string)
    (kprime : ndarray) (pk : list ndarray) (poly : option (list ndarray)) :
  compute_power_spectrum round sp self k p smooth false data_name = Ok (kprime, pk, poly) →
  ∃ p' alpha,
    effective_params self p false = Ok p' ∧
    (is_Some (p !! "b"%string) → p' = p) ∧
    p' !! "alpha"%string = Some alpha ∧
    is_Some poly ∧
    if isotropic self then kprime = Arr1 ((λ x, x / alpha) <$> k)
    else ∃ epsilon fac,
           p' !! "epsilon"%string = Some epsilon ∧
           get_kprimefac self (round epsilon 5%nat) = Ok fac ∧
           kprime = Arr2 (outer ((λ x, x / alpha) <$> k) fac).
Proof.
  intros H. unfold compute_power_spectrum in H.
  apply bind_Ok_inv in H as ([[ks psl] pr] & _ & H).
  apply bind_Ok_inv in H as (p' & Hp' & H).
  assert (is_Some (p !! "b"%string) → p' = p) as Hsame.
  { intros Hb. unfold effective_params in Hp'.
    rewrite decide_True in Hp' by done. by injection Hp'. }
  destruct (isotropic self).
  - unfold compute_isotropic in H. cbv zeta in H.
    apply bind_Ok_inv in H as (kp & Hk & H).
    apply bind_Ok_inv in Hk as (alpha & Ha%getitem_Ok & Hk). injection Hk as <-.
    exists p', alpha.
    apply bind_Ok_inv in H as (sigma_s & _ & H).
    apply bind_Ok_inv in H as (b & _ & H).
    apply bind_Ok_inv in H as (pk_smooth & _ & H).
    apply bind_Ok_inv in H as (propagator & _ & H).
    apply bind_Ok_inv in H as (prefac & _ & H).
    apply bind_Ok_inv in H as ([poly' pk1d] & Hin & H).
    apply bind_Ok_inv in H as (pk0 & _ & H). injection H as <- <- <-.
    apply bind_Ok_inv in Hin as ([shape poly_full] & _ & Hin).
    apply bind_Ok_inv in Hin as (x & _ & Hin).
    apply bind_Ok_inv in Hin as (w & _ & Hin).
    apply bind_Ok_inv in Hin as (y & _ & Hin).
    apply bind_Ok_inv in Hin as (s & _ & Hin). injection Hin as <- <-.
    split_and!; first [done | by eexists].
  - unfold compute_anisotropic in H. cbv zeta in H.
    apply bind_Ok_inv in H as (epsilon & He%getitem_Ok & H).
    apply bind_Ok_inv in H as (kp & Hk & H).
    apply bind_Ok_inv in Hk as (alpha & Ha%getitem_Ok & Hk).
    apply bind_Ok_inv in Hk as (fac & Hfac & Hk). injection Hk as <-.
    exists p', alpha.
    apply bind_Ok_inv in H as (muprime & _ & H).
    apply bind_Ok_inv in H as (mk & _ & H).
    apply bind_Ok_inv in H as (sigma_s & _ & H).
    apply bind_Ok_inv in H as ([om growth] & _ & H).
    apply bind_Ok_inv in H as (sprime & _ & H).
    apply bind_Ok_inv in H as (beta & _ & H).
    apply bind_Ok_inv in H as (kaiser_prefac & _ & H).
    apply bind_Ok_inv in H as (b & _ & H).
    apply bind_Ok_inv in H as (pk_smooth & _ & H).
    apply bind_Ok_inv in H as (pk2d & _ & H).
    apply bind_Ok_inv in H as ([[pk0 pk2] pk4] & _ & H).
    apply bind_Ok_inv in H as ([shape poly_full] & _ & H).
    assert (is_Some poly ∧
            kprime = Arr2 (outer ((λ x, x / alpha) <$> k) fac)) as [Hpoly ->].
    { destruct (marg self).
      - injection H as <- <- <-. split; [by eexists|done].
      - apply bind_Ok_inv in H as (pk' & _ & H). injection H as <- <- <-.
        split; [by eexists|done]. }
    split_and!; try done. by exists epsilon, fac.
Qed.

Lemma dilated_wavenumbers_witness :
  ∃ pk poly,
    compute_power_spectrum examples.round examples.toy_scipy
      (examples.toy_model true true true [0%nat])
      [1; 2] examples.toy_params false false None
    = Ok (Arr1 ((λ x, x / 1) <$> [1; 2]), pk, poly).
Proof.
  assert (∃ r, compute_power_spectrum examples.round examples.toy_scipy
                 (examples.toy_model true true true [0%nat])
                 [1; 2] examples.toy_params false false None = Ok r)
    as [[[kprime pk] poly] Hr] by (eexists; reflexivity).
  destruct (dilated_wavenumbers examples.round examples.toy_scipy
              (examples.toy_model true true true [0%nat])
              [1; 2] examples.toy_params false None kprime pk poly Hr)
    as (p' & alpha & _ & Hsame & Ha & _ & Hk).
  rewrite (Hsame (ex_intro _ 1 eq_refl)) in Ha.
  injection Ha as <-.
  exists pk, poly. rewrite Hr. f_equal. f_equal. f_equal. exact Hk.
Defined.

Module recon_more.
Local Open Scope R_scope.

Lemma nth_zeros j n : nth j (zeros n) 0 = 0.
Proof.
  unfold zeros. revert j. induction n as [|n IH]; intros [|j]; simpl; auto.
Qed.

End recon_more.

(** X15.  With a smoothing kernel that vanishes on the whole grid, the
    isotropic propagator of a model with reconstruction is the one of the
    same model without reconstruction, provided the latter's damping scale
    [sigma_nl] is the former's [sigma_dd_nl] (as [precompute] makes it for
    such a kernel): whatever the first returns, the second returns too. *)
Theorem recon_without_smoothing (round : R → nat → R)
    (self self0 : PowerSpectrumFit) (p : params)
    (ks : list R) (P : ndarray) :
  recon self = true → recon self0 = false →
  mu self0 = mu self → nmu self0 = nmu self → camb self0 = camb self →
  nmu self = length (mu self) →
  length ks = length (camb_ks (camb self)) →
  camb_smoothing_kernel (camb self) = zeros (length (camb_ks (camb self))) →
  (∀ om, get_pregen self0 "sigma_nl" om = get_pregen self "sigma_dd_nl" om) →
  iso_propagator round self p ks false = Ok P →
  iso_propagator round self0 p ks false = Ok P.
Proof.
  intros Hrec Hrec0 Hmu Hnmu Hcamb Hn Hks HS Hsig H.
  unfold iso_propagator, get_damping, get_damping_dd, get_damping_sd,
    get_damping_ss, iso_bdelta_prefac in *.
  rewrite Hrec in H. rewrite Hrec0, Hmu, Hnmu, Hcamb.
  apply bind_Ok_inv in H as ([om growth] & Hrg & H). rewrite Hrg.
  cbn [mbind result_bind]. rewrite Hsig.
  apply bind_Ok_inv in H as (Ddd & Hdd & H).
  apply bind_Ok_inv in Hdd as (sdd & Hsdd & Hdd). injection Hdd as <-.
  rewrite Hsdd. cbn [mbind result_bind].
  apply bind_Ok_inv in H as (Dsd & Hsd & H).
  apply bind_Ok_inv in Hsd as (ssd & _ & Hsd). injection Hsd as <-.
  apply bind_Ok_inv in H as (Dss & Hss & H).
  apply bind_Ok_inv in Hss as (sss & _ & Hss). injection Hss as <-.
  apply bind_Ok_inv in H as (b & Hb & H).
  apply bind_Ok_inv in H as (bd & Hbd & H).
  rewrite Hbd. cbn [mbind result_bind].
  apply fmap_Ok_inv in Hbd as (bdm & Hbd & ->).
  apply bind_Ok_inv in Hbd as (b_delta & _ & Hbd).
  apply bind_Ok_inv in Hbd as (b' & _ & Hbd). injection Hbd as <-.
  apply bind_Ok_inv in H as (beta & Hbeta & H). rewrite Hbeta.
  cbn [mbind result_bind].
  assert (length (camb_smoothing_kernel (camb self))
          = length (camb_ks (camb self))) as HlenS
    by (rewrite HS; apply length_replicate).
  assert (∀ j, nth j (camb_smoothing_kernel (camb self)) 0 = 0) as HnthS
    by (intros j; rewrite HS; apply recon_more.nth_zeros).
  clear HS. revert H.
  rewrite !exp_damp_outer, transpose_tile_fmap, outer_fmap_mat, !tile_fmap_mat.
  rewrite !exp_damp_mat.
  rewrite Hn, HlenS, Hks. mat_eval.
  intros <-. do 2 f_equal. apply mat_ext. intros i j _ _.
  rewrite !HnthS. cbn [pow]. unfold Rdiv. ring.
Qed.

Lemma recon_without_smoothing_witness :
  ∃ P, iso_propagator examples.round (examples.toy_unsmoothed true) examples.toy_params [1; 2] false
       = Ok P ∧
       iso_propagator examples.round (examples.toy_unsmoothed false) examples.toy_params [1; 2] false
       = Ok P.
Proof.
  assert (∃ P, iso_propagator examples.round (examples.toy_unsmoothed true) examples.toy_params
                 [1; 2] false = Ok P) as [P HP] by (eexists; reflexivity).
  exists P. split; [exact HP|].
  exact (recon_without_smoothing examples.round (examples.toy_unsmoothed true)
           (examples.toy_unsmoothed false) examples.toy_params [1; 2] P
           eq_refl eq_refl eq_refl eq_refl eq_refl eq_refl eq_refl eq_refl
           (λ om, eq_refl) HP).
Defined.

Module wiggle_more.
Import bcast_facts precompute_more.
Local Open Scope R_scope.

(** A single row against a 2-D array: the row is stretched over every
    row of the array. *)
Lemma zip_bcast_single {A B C} (F : A → B → result C) (x : A) (b : list B) :
  zip_bcast F [x] b = forM (F x) b.
Proof.
  unfold zip_bcast. destruct (decide (length [x] = length b)) as [Hl|Hl]; [|done].
  destruct b as [|y [|y' b]]; try done.
Qed.

Lemma bcast_row_mat (f : R → R → R) (g : nat → R) r c h :
  bcast_rows f [g <$> seq 0 c] (mat r c h)
  = Ok (mat r c (λ i j, f (g j) (h i j))).
Proof.
  unfold bcast_rows. rewrite zip_bcast_single. unfold mat.
  rewrite forM_fmap. rewrite (forM_ok _ (λ i : nat, (λ j, f (g j) (h i j)) <$> seq 0 c)).
  - done.
  - intros i _. apply zip_bcast_pure_seq.
Qed.

Lemma binop_row_mat (f : R → R → R) (g : nat → R) r c h :
  binop f (Arr1 (g <$> seq 0 c)) (Arr2 (mat r c h))
  = Ok (Arr2 (mat r c (λ i j, f (g j) (h i j)))).
Proof. cbn [binop]. by rewrite bcast_row_mat. Qed.

Section Shape.
Variable round : R → nat → R.
Variable self : PowerSpectrumFit.

(** The non-smooth isotropic propagator is a 2-D array over the [mu] grid
    and [ks] once the grids agree. *)
Lemma iso_propagator_shape p ks P :
  nmu self = length (mu self) →
  length ks = length (camb_ks (camb self)) →
  (recon self = true →
   length (camb_smoothing_kernel (camb self)) = length (camb_ks (camb self))) →
  iso_propagator round self p ks false = Ok P →
  ∃ m, P = Arr2 m ∧ arrays.rect (length (mu self)) (length ks) m.
Proof.
  intros Hn Hks HS H.
  unfold iso_propagator, get_damping, get_damping_dd, get_damping_sd,
    get_damping_ss, iso_bdelta_prefac in H.
  apply bind_Ok_inv in H as ([om growth] & _ & H).
  destruct (recon self).
  - specialize (HS eq_refl).
    apply bind_Ok_inv in H as (Ddd & Hdd & H).
    apply bind_Ok_inv in Hdd as (sdd & _ & Hdd). injection Hdd as <-.
    apply bind_Ok_inv in H as (Dsd & Hsd & H).
    apply bind_Ok_inv in Hsd as (ssd & _ & Hsd). injection Hsd as <-.
    apply bind_Ok_inv in H as (Dss & Hss & H).
    apply bind_Ok_inv in Hss as (sss & _ & Hss). injection Hss as <-.
    apply bind_Ok_inv in H as (b & _ & H).
    apply bind_Ok_inv in H as (bd & Hbd & H).
    apply fmap_Ok_inv in Hbd as (bdm & Hbd & ->).
    apply bind_Ok_inv in Hbd as (b_delta & _ & Hbd).
    apply bind_Ok_inv in Hbd as (b' & _ & Hbd). injection Hbd as <-.
    apply bind_Ok_inv in H as (beta & _ & H).
    revert H.
    rewrite !exp_damp_outer, outer_fmap_mat, !tile_fmap_mat, !exp_damp_mat.
    rewrite Hn, HS, Hks. mat_eval.
    intros [= <-]. eexists. split; [done|]. apply mat_rect.
  - apply bind_Ok_inv in H as (D & HD & H).
    apply bind_Ok_inv in HD as (s & _ & HD). injection HD as <-.
    apply bind_Ok_inv in H as (bd & Hbd & H).
    apply fmap_Ok_inv in Hbd as (bdm & Hbd & ->).
    apply bind_Ok_inv in Hbd as (b_delta & _ & Hbd).
    apply bind_Ok_inv in Hbd as (b' & _ & Hbd). injection Hbd as <-.
    apply bind_Ok_inv in H as (beta & _ & H).
    revert H.
    rewrite !exp_damp_outer, transpose_tile_fmap, !tile_fmap_mat.
    rewrite Hn, Hks. mat_eval.
    intros [= <-]. eexists. split; [done|]. apply mat_rect.
Qed.
End Shape.

End wiggle_more.

(** X16.  Where the wiggle ratio vanishes on the whole grid, an isotropic
    evaluation with [for_corr=True] returns for the full model what it
    returns for the smooth one: once the grids of the model agree, dropping
    the BAO feature changes nothing when there is no feature. *)
Theorem no_wiggles_is_smooth (round : R → nat → R) (sp : Scipy) (self : PowerSpectrumFit)
    (k : list R) (p : params) (data_name : option string)
    (ks pk_smooth_lin : list R)
    (r : ndarray * list ndarray * option (list ndarray)) :
  isotropic self = true →
  basic_components self p = Ok (ks, pk_smooth_lin, zeros (length ks)) →
  length pk_smooth_lin = length ks →
  nmu self = length (mu self) →
  length ks = length (camb_ks (camb self)) →
  (recon self = true →
   length (camb_smoothing_kernel (camb self)) = length (camb_ks (camb self))) →
  compute_power_spectrum round sp self k p false true data_name = Ok r →
  compute_power_spectrum round sp self k p true true data_name = Ok r.
Proof.
  intros Hiso Hbc Hpsl Hn Hks HS H.
  unfold compute_power_spectrum, effective_params in *.
  rewrite Hbc, Hiso in *. cbn [mbind result_bind] in *.
  unfold compute_isotropic in *. cbv beta iota zeta in *.
  cbn [mbind result_bind] in *.
  step H. step H.
  apply bind_Ok_inv in H as (pk_smooth & Hps & H). rewrite Hps.
  cbn [mbind result_bind].
  apply bind_Ok_inv in H as (P & HP & H).
  destruct (wiggle_more.iso_propagator_shape round self _ _ _ Hn Hks HS HP)
    as (m & -> & Hrect).
  apply bind_Ok_inv in H as (prefac & _ & H).
  apply bind_Ok_inv in H as ([poly pk1d] & Hin & H).
  unfold iso_propagator. cbv iota. cbn [mbind result_bind].
  match goal with |- ?inner ≫= _ = _ => assert (inner = Ok (poly, pk1d)) as -> end;
    [|exact H].
  rewrite bcast_facts.wiggle_zeros by apply length_replicate.
  cbn [mbind result_bind].
  revert Hps Hin. unfold sq.
  rewrite (fmap_seq_nth 0 _ pk_smooth_lin), Hpsl, outer_fmap_mat.
  cbn [np.map]. rewrite map_mat. unfold mul at 1.
  rewrite wiggle_more.binop_row_mat. intros [= <-].
  rewrite (rect_mat _ _ m Hrect).
  unfold wiggle, mul, zeros.
  rewrite (precompute_more.replicate_vec 0 (length ks) 0).
  rewrite wiggle_more.binop_row_mat. cbn [fmap result_fmap np.map mbind result_bind].
  rewrite map_mat, binop_mat. cbn [mbind result_bind].
  rewrite bcast_facts.mul_ones_fits by (right; apply mat_rect).
  cbn [mbind result_bind].
  match goal with
  | |- context [simps sp (Arr2 (mat ?r ?c ?g)) _] =>
      match goal with
      | |- simps sp (Arr2 (mat r c ?h)) _ ≫= _ = _ → _ =>
          rewrite (mat_ext r c h g) by (intros; ring)
      end
  end.
  done.
Qed.

Lemma no_wiggles_is_smooth_witness :
  ∃ r,
    compute_power_spectrum examples.round examples.toy_scipy
      (examples.toy_iso_with false [0.5; 0.25] (Some (zeros 2)))
      [1; 2] examples.toy_params false true None = Ok r ∧
    compute_power_spectrum examples.round examples.toy_scipy
      (examples.toy_iso_with false [0.5; 0.25] (Some (zeros 2)))
      [1; 2] examples.toy_params true true None = Ok r.
Proof.
  assert (∃ r, compute_power_spectrum examples.round examples.toy_scipy
                 (examples.toy_iso_with false [0.5; 0.25] (Some (zeros 2)))
                 [1; 2] examples.toy_params false true None = Ok r)
    as [r Hr] by (eexists; reflexivity).
  exists r. split; [exact Hr|].
  refine (no_wiggles_is_smooth examples.round examples.toy_scipy
            (examples.toy_iso_with false [0.5; 0.25] (Some (zeros 2)))
            [1; 2] examples.toy_params None [1; 2] [10; 20] r
            eq_refl eq_refl eq_refl eq_refl eq_refl _ Hr).
  intros Hrec. discriminate Hrec.
Defined.
